(** * An in-memory B+-tree index (package [btree]): model and verification

    The development follows [btree/btree.go] and [btree/pager.go].  The tree
    code is embedded as functions over an explicit store of pages: a page
    handle of the Go code is the page's integer reference, and every method
    call through a handle reads and writes the store at that reference.
    Operations that can panic return a [result]. *)

From Stdlib Require Import ZArith Lia String.
From Stdlib Require Import Orders OrdersTac.
From Stdlib.Strings Require Import Byte.
From stdpp Require Import base list numbers option sorting gmap.

#[local] Set Warnings "-clear-no-such-hyp".

Local Open Scope Z_scope.

(** ** Byte strings *)

Abbreviation bytes := (list byte).

(** A Go [[]byte] argument may be [nil]; [None] stands for [nil]. *)
Abbreviation slice := (option bytes).

Definition str (s : string) : bytes := list_byte_of_string s.

(** Modelled from the spec: the helper [keyLess] (its file is not part of
    the sources at hand) is the strict lexicographic ordering on bytes. *)
Fixpoint compareBytes (a b : bytes) : comparison :=
  match a, b with
  | [], [] => Eq
  | [], _ :: _ => Lt
  | _ :: _, [] => Gt
  | x :: a', y :: b' =>
      match N.compare (Byte.to_N x) (Byte.to_N y) with
      | Eq => compareBytes a' b'
      | c => c
      end
  end.

Definition keyLess (a b : bytes) : bool :=
  match compareBytes a b with Lt => true | _ => false end.

Definition bytesEqual (a b : bytes) : bool :=
  match compareBytes a b with Eq => true | _ => false end.

(** Modelled from the spec: [k] starts with the prefix [p], the test of the
    page iterator. *)
Fixpoint hasPrefix (k p : bytes) : bool :=
  match p, k with
  | [], _ => true
  | _ :: _, [] => false
  | x :: p', y :: k' => N.eqb (Byte.to_N x) (Byte.to_N y) && hasPrefix k' p'
  end.

(** Modelled from the spec: [copyBytes] returns a fresh copy of its
    argument; values are immutable lists here, so the copy is the list. *)
Definition copyBytes (b : bytes) : bytes := b.

(** ** Results of operations that may panic *)

Inductive result (A : Type) : Type :=
| Ok (a : A)
| Panic (msg : string)
| Diverge.
Arguments Ok {A} a.
Arguments Panic {A} msg.
Arguments Diverge {A}.

Definition rbind {A B} (m : result A) (k : A → result B) : result B :=
  match m with
  | Ok a => k a
  | Panic msg => Panic msg
  | Diverge => Diverge
  end.

Notation "'let?' x ':=' m 'in' k" := (rbind m (fun x => k))
  (at level 10, x pattern, m at level 100, k at level 200).

Definition index_out_of_range : string := "index out of range".

(** [l[r]] and [l[r] = y] for an integer index [r]. *)
Definition zget {A} (l : list A) (r : Z) : option A :=
  if r <? 0 then None else l !! Z.to_nat r.

Definition zset {A} (r : Z) (y : A) (l : list A) : list A :=
  if r <? 0 then l else <[Z.to_nat r := y]> l.

(** [l[i]] of Go: a run-time panic when [i] is out of range. *)
Definition at_index {A} (l : list A) (i : Z) : result A :=
  match zget l i with
  | Some x => Ok x
  | None => Panic index_out_of_range
  end.

(** ** Key records *)

Module Key.
Record t : Type := mk { Get : bytes; Ref : Z }.
End Key.

(** ** Pages *)

(** Modelled from the spec: the in-memory page type behind the [Page]
    interface of [pager.go] is not part of the sources at hand.  A page has
    its leaf flag, the sibling reference, the "first" reference and its real
    records in ascending key order.  On an internal page position 0 is the
    synthetic record carrying the first reference, so [Size] counts it; on a
    leaf the real records are positions [0..Size-1], which is what
    [checkPage] reads. *)

Module Page.
Record t : Type := mk {
  IsLeaf : bool;
  NextPage : Z;
  First : Z;
  keys : list Key.t
}.

Definition SetNextPage (ref : Z) (p : t) : t :=
  mk (IsLeaf p) ref (First p) (keys p).

Definition SetFirst (ref : Z) (p : t) : t :=
  mk (IsLeaf p) (NextPage p) ref (keys p).

Definition set_keys (l : list Key.t) (p : t) : t :=
  mk (IsLeaf p) (NextPage p) (First p) l.

(** Modelled from the spec: the number of positions of the page. *)
Definition Size (p : t) : Z :=
  if IsLeaf p then Z.of_nat (length (keys p))
  else 1 + Z.of_nat (length (keys p)).

(** Modelled from the spec: the key and the reference at a position. *)
Definition GetKey (i : Z) (p : t) : result (bytes * Z) :=
  if IsLeaf p then
    let? k := at_index (keys p) i in Ok (Key.Get k, Key.Ref k)
  else if i =? 0 then Ok ([], First p)
  else let? k := at_index (keys p) (i - 1) in Ok (Key.Get k, Key.Ref k).

(** Modelled from the spec: the ordered placement of a record by [Insert];
    a record with the same key is replaced, which keeps the keys strictly
    ascending. *)
Fixpoint place (k : bytes) (ref : Z) (l : list Key.t) : list Key.t :=
  match l with
  | [] => [Key.mk k ref]
  | x :: l' =>
      if keyLess (Key.Get x) k then x :: place k ref l'
      else if keyLess k (Key.Get x) then Key.mk k ref :: x :: l'
      else Key.mk k ref :: l'
  end.

(** Modelled from the spec: [Insert] returns false iff the page is at
    capacity [cap]. *)
Definition Insert (cap : nat) (k : bytes) (ref : Z) (p : t) : bool * t :=
  if Z.of_nat cap <=? Size p then (false, p)
  else (true, set_keys (place k ref (keys p)) p).

(** Modelled from the spec: the greatest record whose key is not above the
    query, over ascending records (the result of the binary search of
    [Search]). *)
Fixpoint floor (q : bytes) (l : list Key.t) : option Key.t :=
  match l with
  | [] => None
  | x :: l' =>
      if keyLess q (Key.Get x) then None
      else match floor q l' with
           | Some y => Some y
           | None => Some x
           end
  end.

(** Modelled from the spec: [Search] returns true and the record when the
    key is found, false and the record one key smaller when it is not; below
    every key that is the synthetic record of the first reference. *)
Definition Search (q : bytes) (p : t) : bool * Key.t :=
  match floor q (keys p) with
  | Some x => (bytesEqual (Key.Get x) q, x)
  | None => (false, Key.mk [] (First p))
  end.

(** Modelled from the spec: the position of a page iterator at its start,
    the records from the first one whose key is not below the prefix. *)
Fixpoint seek (prefix : bytes) (l : list Key.t) : list Key.t :=
  match l with
  | [] => []
  | x :: l' => if keyLess (Key.Get x) prefix then seek prefix l' else l
  end.

(** Modelled from the spec: [Split] keeps the first [cap/2] positions and
    moves the others to the new page; it returns the split key, the page and
    the new page. *)
Definition Split (cap : nat) (newPageRef : Z) (newPage : t) (p : t)
  : bytes * t * t :=
  let half := Nat.div cap 2 in
  if IsLeaf p then
    let upper := drop half (keys p) in
    (from_option Key.Get [] (head upper),
     set_keys (take half (keys p)) p,
     set_keys upper newPage)
  else
    let upper := drop (half - 1) (keys p) in
    (from_option Key.Get [] (head upper),
     set_keys (take (half - 1) (keys p)) p,
     set_keys (tail upper) (SetFirst (from_option Key.Ref (-1) (head upper)) newPage)).
End Page.

(** Modelled from the spec: the cursor of one page, the records not yet
    visited and the prefix.  It stops at the first key that does not start
    with the prefix. *)
Module PageIter.
Record t : Type := mk { rest : list Key.t; prefix : bytes }.

Definition Next (it : t) : (bool * bytes * Z) * t :=
  match rest it with
  | x :: l =>
      if hasPrefix (Key.Get x) (prefix it)
      then ((true, Key.Get x, Key.Ref x), mk l (prefix it))
      else ((false, [], 0), it)
  | [] => ((false, [], 0), it)
  end.
End PageIter.

(** Modelled from the spec: [page.Start(prefix)]. *)
Definition Page_Start (prefix : bytes) (p : Page.t) : PageIter.t :=
  PageIter.mk (Page.seek prefix (Page.keys p)) prefix.

(** ** The pager *)

(** [ramPageSize] of [pager.go]: the keys per node. *)
Definition ramPageSize : nat := 100.

(** Modelled from the spec: the in-memory pager is not part of the sources
    at hand.  It owns the pages in allocation order; a reference is the
    index of its page. *)

Module Pager.
Abbreviation t := (list Page.t).

Definition New (isLeaf : bool) (pg : t) : Z * t :=
  (Z.of_nat (length pg), pg ++ [Page.mk isLeaf (-1) (-1) []]).

Definition Get (ref : Z) (pg : t) : result Page.t := at_index pg ref.

Definition set (ref : Z) (p : Page.t) (pg : t) : t := zset ref p pg.
End Pager.

(** ** The tree *)

Module Btree.
Record t : Type := mk {
  pager : Pager.t;
  values : list bytes;
  root : Z;
  size : Z
}.

Definition set_pager (pg : Pager.t) (b : t) : t :=
  mk pg (values b) (root b) (size b).

Definition set_values (vs : list bytes) (b : t) : t :=
  mk (pager b) vs (root b) (size b).

Definition set_root (r : Z) (b : t) : t :=
  mk (pager b) (values b) r (size b).

Definition set_size (n : Z) (b : t) : t :=
  mk (pager b) (values b) (root b) n.

(** [size] is an [int64]: incrementing wraps around. *)
Definition wrap64 (z : Z) : Z := (z + 2 ^ 63) mod 2 ^ 64 - 2 ^ 63.

(** *** Stateful code: a state and panic monad over the tree *)

Definition M (A : Type) : Type := t → result (A * t).

Definition ret {A} (a : A) : M A := fun b => Ok (a, b).

Definition bind {A B} (m : M A) (k : A → M B) : M B :=
  fun b => match m b with
           | Ok (a, b') => k a b'
           | Panic msg => Panic msg
           | Diverge => Diverge
           end.

Definition panic {A} (msg : string) : M A := fun _ => Panic msg.

Definition diverge {A} : M A := fun _ => Diverge.

Definition lift {A} (r : result A) : M A :=
  fun b => match r with
           | Ok a => Ok (a, b)
           | Panic msg => Panic msg
           | Diverge => Diverge
           end.

Definition gets {A} (f : t → A) : M A := fun b => Ok (f b, b).

Definition modify (f : t → t) : M unit := fun b => Ok (tt, f b).

Notation "'let*' x ':=' m 'in' k" := (bind m (fun x => k))
  (at level 10, x pattern, m at level 100, k at level 200).

(** [b.pager.Get(ref)]: the handle of an allocated page. *)
Definition pagerGet (ref : Z) : M Page.t :=
  fun b => lift (Pager.Get ref (pager b)) b.

(** [b.pager.New(isLeaf)]. *)
Definition pagerNew (isLeaf : bool) : M Z :=
  fun b => let '(ref, pg) := Pager.New isLeaf (pager b) in Ok (ref, set_pager pg b).

(** A method that reads the page behind the handle [ref]. *)
Definition read {A} (ref : Z) (f : Page.t → A) : M A :=
  let* p := pagerGet ref in ret (f p).

(** A method that mutates the page behind the handle [ref]. *)
Definition call {A} (ref : Z) (f : Page.t → A * Page.t) : M A :=
  let* p := pagerGet ref in
  let '(a, p') := f p in
  let* _ := modify (fun b => set_pager (Pager.set ref p' (pager b)) b) in
  ret a.

(** The iterator of the tree; the tree it points to is passed to [Next]. *)
Record btreeIter : Type := mkIter {
  prefix : bytes;
  pageIter : PageIter.t;
  page : Z;
  done : bool
}.

Definition last_index (pageRefs : list Z) (back : Z) : M Z :=
  lift (at_index pageRefs (Z.of_nat (length pageRefs) - back)).

Section WithCapacity.
Variable N : nat.

Definition NewInMemoryBtree : t :=
  let b := mk [] [] 0 0 in
  let '(ref, pg) := Pager.New false (pager b) in
  let b := set_root ref (set_pager pg b) in
  let '(ref1, pg) := Pager.New true (pager b) in
  set_pager (Pager.set ref (Page.SetFirst ref1 (Page.mk false (-1) (-1) [])) pg) b.

(** The loop of [search]; [fuel] bounds the number of iterations. *)
Fixpoint search_loop (fuel : nat) (b : t) (key : bytes) (ref : Z) (pageRefs : list Z)
  : result (bool * Key.t * list Z) :=
  match fuel with
  | O => Diverge
  | S fuel' =>
      let? p := Pager.Get ref (pager b) in
      let '(ok, k) := Page.Search key p in
      let ref := Key.Ref k in
      if Page.IsLeaf p then Ok (ok, k, pageRefs)
      else search_loop fuel' b key ref (pageRefs ++ [ref])
  end.

(** A walk that ends visits each page at most once, so as many iterations
    as there are pages (and one more to fail) decide the loop. *)
Definition search (b : t) (key : bytes) : result (bool * Key.t * list Z) :=
  search_loop (S (length (pager b))) b key (root b) [root b].

Definition illegal_key : string := "Illegal key nil".
Definition illegal_key_or_value : string := "Illegal nil key or value".

Definition is_empty (s : slice) : bool :=
  match s with
  | None => true
  | Some [] => true
  | Some (_ :: _) => false
  end.

Definition Get (key : slice) (b : t) : result (bool * bytes) :=
  if is_empty key then Panic illegal_key
  else
    let? (ok, k, _) := search b (default [] key) in
    if ok then
      let? value := at_index (values b) (Key.Ref k) in Ok (ok, value)
    else Ok (ok, []).

Definition Start (prefix : slice) (b : t) : result btreeIter :=
  match prefix with
  | None => Panic illegal_key
  | Some prefix =>
      let? (_, _, pageRefs) := search b prefix in
      let? ref := at_index pageRefs (Z.of_nat (length pageRefs) - 1) in
      let? page := Pager.Get ref (pager b) in
      Ok (mkIter prefix (Page_Start prefix page) ref false)
  end.

Definition Next (b : t) (i : btreeIter) : result ((bool * bytes * bytes) * btreeIter) :=
  if done i then Ok ((false, [], []), i)
  else
    let '((ok, key, ref), pit) := PageIter.Next (pageIter i) in
    let i := mkIter (prefix i) pit (page i) (done i) in
    if ok then
      let? value := at_index (values b) ref in Ok ((ok, key, value), i)
    else
      let? page := Pager.Get (page i) (pager b) in
      let n := Page.NextPage page in
      if n =? -1 then Ok ((false, [], []), mkIter (prefix i) (pageIter i) (Btree.page i) true)
      else
        let? page := Pager.Get n (pager b) in
        let '((ok, key, ref), pit) := PageIter.Next (Page_Start (prefix i) page) in
        if negb ok then Ok ((false, [], []), mkIter (prefix i) pit n true)
        else
          let? value := at_index (values b) ref in
          Ok ((ok, key, value), mkIter (prefix i) pit n false).

Definition insane : string := "insane".

(** [page.Split(newPageRef, newPage)] through the two handles. *)
Definition Split_at (pageRef newPageRef : Z) : M bytes :=
  let* page := pagerGet pageRef in
  let* newPage := pagerGet newPageRef in
  let '(splitKey, page', newPage') := Page.Split N newPageRef newPage page in
  let* _ := call pageRef (fun _ => (tt, page')) in
  let* _ := call newPageRef (fun _ => (tt, newPage')) in
  ret splitKey.

(** The body of [split] up to the insertion into the parent; it returns
    the split key, the new page, the parent and the parent's answer. *)
Definition split_step (key : bytes) (ref : Z) (pageRefs : list Z)
  : M (bytes * Z * Z * bool) :=
  let* pageRef := last_index pageRefs 1 in
  let* page := pagerGet pageRef in
  let* parentRef := last_index pageRefs 2 in
  let* _ := pagerGet parentRef in
  let* newPageRef := pagerNew (Page.IsLeaf page) in
  let* splitKey := Split_at pageRef newPageRef in
  let* next := read pageRef Page.NextPage in
  let* _ := call newPageRef (fun p => (tt, Page.SetNextPage next p)) in
  let* _ := call pageRef (fun p => (tt, Page.SetNextPage newPageRef p)) in
  let* _ := (if keyLess key splitKey
             then call pageRef (Page.Insert N key ref)
             else call newPageRef (Page.Insert N key ref)) in
  let* ok := call parentRef (Page.Insert N splitKey newPageRef) in
  ret (splitKey, newPageRef, parentRef, ok).

(** The root promotion of [split] and [appendPage]. *)
Definition promote_root : M Z :=
  let* oldRootRef := gets root in
  let* newRootRef := pagerNew false in
  let* _ := call newRootRef (fun p => (tt, Page.SetFirst oldRootRef p)) in
  let* _ := modify (set_root newRootRef) in
  ret newRootRef.

Fixpoint split_rec (fuel : nat) (key : bytes) (ref : Z) (pageRefs : list Z) : M unit :=
  match fuel with
  | O => diverge
  | S fuel' =>
      let* (splitKey, newPageRef, parentRef, ok) := split_step key ref pageRefs in
      if ok then ret tt
      else
        let* rootRef := gets root in
        if parentRef =? rootRef then
          if negb (Z.of_nat (length pageRefs) =? 2) then panic insane
          else
            let* newRootRef := promote_root in
            split_rec fuel' splitKey newPageRef [newRootRef; parentRef]
        else split_rec fuel' splitKey newPageRef (removelast pageRefs)
  end.

(** Every call shortens the path or is the single call after a root
    promotion, so [length pageRefs] calls are enough. *)
Definition split (key : bytes) (ref : Z) (pageRefs : list Z) : M unit :=
  split_rec (S (length pageRefs)) key ref pageRefs.

Definition set_value (ref : Z) (f : bytes → bytes) : M unit :=
  let* vs := gets values in
  let* old := lift (at_index vs ref) in
  modify (set_values (zset ref (f old) vs)).

Definition Put (key valuev : slice) : M bool :=
  if is_empty key || bool_decide (valuev = None) then panic illegal_key_or_value
  else
    let key := default [] key in
    let valuev := default [] valuev in
    let* b := gets id in
    let* (replaced, k, pageRefs) := lift (search b key) in
    if replaced then
      let* _ := set_value (Key.Ref k) (fun _ => valuev) in
      ret replaced
    else
      let value := copyBytes valuev in
      let* vs := gets values in
      let vref := Z.of_nat (length vs) in
      let* pageRef := last_index pageRefs 1 in
      let* _ := pagerGet pageRef in
      let* ok := call pageRef (Page.Insert N key vref) in
      let* _ := (if ok then ret tt else split key vref pageRefs) in
      let* _ := modify (fun b => set_values (values b ++ [[]]) b) in
      let* _ := set_value vref (fun old => old ++ value) in
      let* _ := modify (fun b => set_size (wrap64 (size b + 1)) b) in
      ret replaced.

Definition unexpected_replace : string := "Did not expect to have to replace the value".

Definition Append (key value : slice) : M unit :=
  if is_empty key || bool_decide (value = None) then panic illegal_key_or_value
  else
    let* b := gets id in
    let* (ok, k, _) := lift (search b (default [] key)) in
    if ok then set_value (Key.Ref k) (fun old => old ++ default [] value)
    else
      let* replaced := Put key value in
      if replaced then panic unexpected_replace else ret tt.

Definition Size (b : t) : Z := size b.

Definition appendPage_step (key : bytes) (ref : Z) (pageRefs : list Z)
  : M (Z * Z * bool) :=
  let* pageRef := last_index pageRefs 1 in
  let* page := pagerGet pageRef in
  let* parentRef := last_index pageRefs 2 in
  let* _ := pagerGet parentRef in
  let* newPageRef := pagerNew (Page.IsLeaf page) in
  let* _ := call pageRef (fun p => (tt, Page.SetNextPage newPageRef p)) in
  let* _ := (if Page.IsLeaf page
             then call newPageRef (Page.Insert N key ref)
             else call newPageRef (fun p => (false, Page.SetFirst ref p))) in
  let* ok := call parentRef (Page.Insert N key newPageRef) in
  ret (newPageRef, parentRef, ok).

Fixpoint appendPage_rec (fuel : nat) (key : bytes) (ref : Z) (pageRefs : list Z) : M unit :=
  match fuel with
  | O => diverge
  | S fuel' =>
      let* (newPageRef, parentRef, ok) := appendPage_step key ref pageRefs in
      if ok then ret tt
      else
        let* rootRef := gets root in
        if parentRef =? rootRef then
          let* newRootRef := promote_root in
          appendPage_rec fuel' key newPageRef [newRootRef; rootRef]
        else appendPage_rec fuel' key newPageRef (removelast pageRefs)
  end.

Definition appendPage (key : bytes) (ref : Z) (pageRefs : list Z) : M unit :=
  appendPage_rec (S (length pageRefs)) key ref pageRefs.

Definition out_of_order : string := "out of order put:".

(** The descent of [PutNext] along the last record of every internal
    page. *)
Fixpoint descend_last (fuel : nat) (b : t) (keyv : bytes) (page : Page.t) (pageRefs : list Z)
  : result (Page.t * list Z) :=
  match fuel with
  | O => Diverge
  | S fuel' =>
      if Page.IsLeaf page then Ok (page, pageRefs)
      else
        let? (k, r) := Page.GetKey (Page.Size page - 1) page in
        if negb (keyLess k keyv) then Panic out_of_order
        else
          let? page := Pager.Get r (pager b) in
          descend_last fuel' b keyv page (pageRefs ++ [r])
  end.

Definition PutNext (keyv valuev : slice) : M unit :=
  if is_empty keyv || bool_decide (valuev = None) then panic illegal_key_or_value
  else
    let keyv := default [] keyv in
    let valuev := default [] valuev in
    let* rootRef := gets root in
    let* page := pagerGet rootRef in
    let* b := gets id in
    let* (_, pageRefs) := lift (descend_last (S (length (pager b))) b keyv page [rootRef]) in
    let* vs := gets values in
    let vref := Z.of_nat (length vs) in
    let* _ := modify (set_values (vs ++ [copyBytes valuev])) in
    let key := copyBytes keyv in
    let* pageRef := last_index pageRefs 1 in
    let* ok := call pageRef (Page.Insert N key vref) in
    let* _ := (if ok then ret tt else appendPage key vref pageRefs) in
    modify (fun b => set_size (wrap64 (size b + 1)) b).

(** *** The consistency checker *)

Definition err_strict : string := "Expect strict ordering".
Definition err_negative_ref : string := "value reference cannot be < 0".
Definition err_no_children : string := "Expected internal node to refer to other pages".
Definition err_min_key : string :=
  "Expect parent key to be smaller or equal to all in referred to child page".
Definition err_empty_key : string := "Got empty key".
Definition err_count : string := "Expected size, got count".

(** The loop over a leaf: [n] iterations are left, from index [i]. *)
Fixpoint checkLeaf (page : Page.t) (n : nat) (i : Z) (prev : bytes) : result (option string) :=
  match n with
  | O => Ok None
  | S n' =>
      let? (k, r) := Page.GetKey i page in
      if negb (keyLess prev k) then Ok (Some err_strict)
      else if r <? 0 then Ok (Some err_negative_ref)
      else checkLeaf page n' (i + 1) k
  end.

(** The loop over an internal page; [rec] is the recursive call. *)
Fixpoint checkInternal (rec : Page.t → bytes → Z → result (option string))
    (b : t) (page : Page.t) (checkMinKey : bool) (minKey prevk : bytes)
    (n : nat) (i : Z) : result (option string) :=
  match n with
  | O => Ok None
  | S n' =>
      let? (k, r) := Page.GetKey i page in
      if checkMinKey && negb (keyLess minKey k) then Ok (Some err_min_key)
      else if negb (keyLess prevk k) then Ok (Some err_strict)
      else if r <? 0 then Ok (Some err_negative_ref)
      else
        let? child := Pager.Get r (pager b) in
        let? err := rec child k r in
        match err with
        | Some e => Ok (Some e)
        | None => checkInternal rec b page checkMinKey minKey prevk n' (i + 1)
        end
  end.

(** [fuel] bounds the depth of the recursion. *)
Fixpoint checkPage (fuel : nat) (b : t) (page : Page.t) (checkMinKey : bool)
    (minKey : bytes) (ref : Z) (depth : Z) : result (option string) :=
  match fuel with
  | O => Diverge
  | S fuel' =>
      if Page.IsLeaf page then
        checkLeaf page (Z.to_nat (Page.Size page)) 0 []
      else
        let? (prevk, prevr) := Page.GetKey 0 page in
        if (prevr =? -1) && (1 <? Page.Size page) then Ok (Some err_no_children)
        else
          checkInternal (fun child k r => checkPage fuel' b child true k r (depth + 1))
            b page checkMinKey minKey prevk (Z.to_nat (Page.Size page - 1)) 1
  end.

(** The first pass of [CheckConsistency]: the loop over the iterator. *)
Fixpoint checkScan (fuel : nat) (b : t) (iter : btreeIter) (prev : bytes) (count : Z)
  : result (string + Z) :=
  match fuel with
  | O => Diverge
  | S fuel' =>
      let? (ok, k, _, iter) := Next b iter in
      if negb ok then Ok (inr count)
      else if bool_decide (k = []) then Ok (inl err_empty_key)
      else if negb (keyLess prev k) then Ok (inl err_strict)
      else checkScan fuel' b iter prev (wrap64 (count + 1))
  end.

Definition CheckConsistency (fuel : nat) (b : t) : result (option string) :=
  let? iter := Start (Some []) b in
  let? r := checkScan fuel b iter [] 0 in
  match r with
  | inl e => Ok (Some e)
  | inr count =>
      if negb (count =? Size b) then Ok (Some err_count)
      else
        let? root := Pager.Get (root b) (pager b) in
        checkPage fuel b root false [] 0 0
  end.

End WithCapacity.
End Btree.

(** * Specification: the abstract state of a tree

    The invariant of the tree is stated over a ghost table that gives every
    page its level (0 for leaves) and the interval of keys it covers. *)

Definition klt (a b : bytes) : Prop := keyLess a b = true.
Definition kle (a b : bytes) : Prop := keyLess b a = false.

Definition lt_hi (k : bytes) (h : option bytes) : Prop :=
  match h with
  | None => True
  | Some h => klt k h
  end.

Record Info : Type := mkInfo { lvl : nat; lo : bytes; hi : option bytes }.

Definition in_range (i : Info) (k : bytes) : Prop :=
  kle (lo i) k ∧ lt_hi k (hi i).

(** [lo < k1 < k2 < ... < hi] for the keys of the records. *)
Fixpoint sorted_from (lo : bytes) (l : list Key.t) (hi : option bytes) : Prop :=
  match l with
  | [] => lt_hi lo hi
  | x :: l' => klt lo (Key.Get x) ∧ sorted_from (Key.Get x) l' hi
  end.

Definition leaf_ok (lo : bytes) (l : list Key.t) (hi : option bytes) : Prop :=
  match l with
  | [] => True
  | x :: l' => kle lo (Key.Get x) ∧ sorted_from (Key.Get x) l' hi
  end.

(** The children of an internal page: the child [c] covers [lo] up to the
    next key, and so on to [hi]. *)
Fixpoint chain (G : list Info) (d : nat) (lo : bytes) (c : Z) (l : list Key.t)
    (hi : option bytes) : Prop :=
  match l with
  | [] => zget G c = Some (mkInfo d lo hi) ∧ lt_hi lo hi
  | x :: l' =>
      zget G c = Some (mkInfo d lo (Some (Key.Get x))) ∧ klt lo (Key.Get x) ∧
      chain G d (Key.Get x) (Key.Ref x) l' hi
  end.

Definition page_ok (G : list Info) (i : Info) (p : Page.t) : Prop :=
  match lvl i with
  | O => Page.IsLeaf p = true ∧ leaf_ok (lo i) (Page.keys p) (hi i) ∧
         (lo i ≠ [] → Page.keys p ≠ [])
  | S d => Page.IsLeaf p = false ∧ chain G d (lo i) (Page.First p) (Page.keys p) (hi i)
  end.

(** The sibling reference leads to the page that covers the next interval
    of the same level. *)
Definition link_ok (G : list Info) (i : Info) (p : Page.t) : Prop :=
  match hi i with
  | None => Page.NextPage p = -1
  | Some h => ∃ i', zget G (Page.NextPage p) = Some i' ∧ lvl i' = lvl i ∧ lo i' = h
  end.

Record SInv (pg : Pager.t) (root : Z) (G : list Info) : Prop := mkSInv {
  s_len : length G = length pg;
  s_root : ∃ h, zget G root = Some (mkInfo (S h) [] None) ∧
                (∀ r i, zget G r = Some i → (lvl i ≤ S h)%nat) ∧
                (S h ≤ length pg)%nat;
  s_page : ∀ r p i, zget pg r = Some p → zget G r = Some i →
                    page_ok G i p ∧ link_ok G i p;
  s_inj : ∀ r r' i i' k, zget G r = Some i → zget G r' = Some i' →
                         lvl i = lvl i' → in_range i k → in_range i' k → r = r'
}.

(** [r] is a child of an internal page with first reference [c] and
    records [l]. *)
Definition child (c : Z) (l : list Key.t) (r : Z) : Prop :=
  r = c ∨ r ∈ Key.Ref <$> l.

(** Consecutive references of a path go from a parent to its child. *)
Definition links (pg : Pager.t) (path : list Z) : Prop :=
  ∀ (n : nat) q p, path !! n = Some q → path !! S n = Some p →
    ∃ pq, zget pg q = Some pq ∧ Page.IsLeaf pq = false ∧
          child (Page.First pq) (Page.keys pq) p.

Definition CapInv (N : nat) (pg : Pager.t) : Prop :=
  ∀ r p, zget pg r = Some p → Page.Size p ≤ Z.of_nat N.

(** The records of the leaves. *)
Definition leafrec (pg : Pager.t) (x : Key.t) : Prop :=
  ∃ r p, zget pg r = Some p ∧ Page.IsLeaf p = true ∧ x ∈ Page.keys p.

Definition leaf_len (p : Page.t) : nat :=
  if Page.IsLeaf p then length (Page.keys p) else O.

Definition leaf_count (pg : Pager.t) : nat := sum_list_with leaf_len pg.

(** Every key of an internal page is the key of some leaf record. *)
Definition Prov (pg : Pager.t) : Prop :=
  ∀ r p x, zget pg r = Some p → Page.IsLeaf p = false → x ∈ Page.keys p →
           ∃ y, leafrec pg y ∧ Key.Get y = Key.Get x.

#[global] Instance byte_eq_dec : EqDecision byte := Byte.byte_eq_dec.

#[global] Instance byte_countable : Countable byte :=
  inj_countable Byte.to_N Byte.of_N Byte.of_to_N.

#[global] Instance key_eq_dec : EqDecision Key.t.
Proof. solve_decision. Defined.

(** [Rep N b m]: the tree [b] holds the finite map [m]. *)
Record Rep (N : nat) (b : Btree.t) (m : gmap bytes bytes) : Prop := mkRep {
  r_sinv : ∃ G, SInv (Btree.pager b) (Btree.root b) G;
  r_cap : CapInv N (Btree.pager b);
  r_vals : ∀ x, leafrec (Btree.pager b) x →
                is_Some (m !! Key.Get x) ∧ zget (Btree.values b) (Key.Ref x) = m !! Key.Get x;
  r_dom : ∀ k, is_Some (m !! k) → ∃ x, leafrec (Btree.pager b) x ∧ Key.Get x = k;
  r_refs : ∀ x y, leafrec (Btree.pager b) x → leafrec (Btree.pager b) y →
                  Key.Ref x = Key.Ref y → x = y;
  r_count : leaf_count (Btree.pager b) = size m;
  r_size : Btree.size b = Btree.wrap64 (Z.of_nat (size m));
  r_prov : Prov (Btree.pager b)
}.

(** ** Sequences of operations and their meaning on a finite map *)

Inductive op : Type :=
| OpPut (k v : bytes)
| OpAppend (k v : bytes)
| OpPutNext (k v : bytes).

Definition apply_op (N : nat) (o : op) : Btree.M unit :=
  match o with
  | OpPut k v => Btree.bind (Btree.Put N (Some k) (Some v)) (fun _ => Btree.ret tt)
  | OpAppend k v => Btree.Append N (Some k) (Some v)
  | OpPutNext k v => Btree.PutNext N (Some k) (Some v)
  end.

Fixpoint run_ops (N : nat) (ops : list op) : Btree.M unit :=
  match ops with
  | [] => Btree.ret tt
  | o :: ops' => Btree.bind (apply_op N o) (fun _ => run_ops N ops')
  end.

Definition model_step (m : gmap bytes bytes) (o : op) : gmap bytes bytes :=
  match o with
  | OpPut k v => <[k := v]> m
  | OpAppend k v => <[k := default [] (m !! k) ++ v]> m
  | OpPutNext k v => <[k := v]> m
  end.

Definition model (ops : list op) : gmap bytes bytes :=
  fold_left model_step ops ∅.

(** An operation is legal when its key is not empty and, for [PutNext],
    above every key inserted before. *)
Definition legal_op (m : gmap bytes bytes) (o : op) : Prop :=
  match o with
  | OpPut k _ | OpAppend k _ => k ≠ []
  | OpPutNext k _ => k ≠ [] ∧ ∀ k', is_Some (m !! k') → klt k' k
  end.

Fixpoint legal_from (m : gmap bytes bytes) (ops : list op) : Prop :=
  match ops with
  | [] => True
  | o :: ops' => legal_op m o ∧ legal_from (model_step m o) ops'
  end.

Definition legal (ops : list op) : Prop := legal_from ∅ ops.

(** The pairs an iterator yields until it reports exhaustion. *)
Fixpoint drain (fuel : nat) (b : Btree.t) (it : Btree.btreeIter)
  : result (list (bytes * bytes) * Btree.btreeIter) :=
  match fuel with
  | O => Diverge
  | S fuel' =>
      let? (ok, key, value, it') := Btree.Next b it in
      if ok then
        let? (l, it'') := drain fuel' b it' in Ok ((key, value) :: l, it'')
      else Ok ([], it')
  end.

(** ** Definitions used by the proofs and by the statements *)

(** The pages of a division: the divided page and the new page after
    [Split], the two sibling links and the insertion of the key. *)
Definition split_pages (N : nat) (key : bytes) (ref NP : Z) (pP : Page.t)
  : bytes * Page.t * Page.t :=
  let '(s, p1, np1) := Page.Split N NP (Page.mk (Page.IsLeaf pP) (-1) (-1) []) pP in
  let np2 := Page.SetNextPage (Page.NextPage p1) np1 in
  let p2 := Page.SetNextPage NP p1 in
  if keyLess key s then (s, (Page.Insert N key ref p2).2, np2)
  else (s, p2, (Page.Insert N key ref np2).2).

(** The outcome of [split]: a tree that holds the records of the leaf
    with the new record. *)
Definition split_post (N : nat) (b : Btree.t) (pgV : Pager.t) (b' : Btree.t) : Prop :=
  (∃ G', SInv (Btree.pager b') (Btree.root b') G') ∧ CapInv N (Btree.pager b') ∧
  Btree.values b' = Btree.values b ∧ Btree.size b' = Btree.size b ∧
  (∀ x, leafrec (Btree.pager b') x ↔ leafrec pgV x) ∧
  leaf_count (Btree.pager b') = leaf_count pgV ∧
  (Prov pgV → Prov (Btree.pager b')).

Definition append_pages (N : nat) (key : bytes) (ref NP : Z) (pP : Page.t)
  : Page.t * Page.t :=
  (Page.SetNextPage NP pP,
   if Page.IsLeaf pP
   then (Page.Insert N key ref (Page.mk true (-1) (-1) [])).2
   else Page.SetFirst ref (Page.mk false (-1) (-1) [])).

(** The records up to the first one whose key does not start with the
    prefix. *)
Fixpoint while_prefix (p : bytes) (l : list Key.t) : list Key.t :=
  match l with
  | [] => []
  | x :: l' => if hasPrefix (Key.Get x) p then x :: while_prefix p l' else []
  end.

(** The records of the leaves from the page [r] along the sibling
    references. *)
Inductive Leaves (pg : Pager.t) : Z → list Key.t → Prop :=
| Leaves_end : Leaves pg (-1) []
| Leaves_page r p t :
    zget pg r = Some p → Page.keys p ≠ [] → Leaves pg (Page.NextPage p) t →
    Leaves pg r (Page.keys p ++ t).

(** The number of leaves whose interval starts above [a]. *)
Definition above (a : bytes) (G : list Info) : nat :=
  length (List.filter (fun i => Nat.eqb (lvl i) 0 && keyLess a (lo i)) G).

(** What the iterator hands out for a record. *)
Definition yield (b : Btree.t) (x : Key.t) : bytes * bytes :=
  (Key.Get x, default [] (zget (Btree.values b) (Key.Ref x))).

(** The order of the pairs an iterator hands out. *)
Definition by_key (x y : bytes * bytes) : Prop := klt x.1 y.1.

Definition stuck (pfx : bytes) (s : list Key.t) : Prop :=
  match s with
  | [] => True
  | x :: _ => hasPrefix (Key.Get x) pfx = false
  end.

(** A run ends: it returns or panics within its fuel. *)
Definition terminates {A} (r : result A) : bool :=
  match r with
  | Diverge => false
  | _ => true
  end.

Definition promoted (b1 : Btree.t) : Btree.t :=
  Btree.mk (Btree.pager b1 ++ [Page.mk false (-1) (Btree.root b1) []])
    (Btree.values b1) (Z.of_nat (length (Btree.pager b1))) (Btree.size b1).

Definition op_key (o : op) : bytes :=
  match o with
  | OpPut k _ | OpAppend k _ | OpPutNext k _ => k
  end.

(** Some operation of the sequence wrote the key. *)
Definition written (ops : list op) (k : bytes) : Prop := ∃ o, o ∈ ops ∧ op_key o = k.

Definition distinct_keys (ops : list op) : gset bytes := list_to_set (op_key <$> ops).

(** The value most recently written for [k]: the value of the last [Put],
    extended by every [Append] since.  The operations come latest first. *)
Fixpoint latest (k : bytes) (rops : list op) : option bytes :=
  match rops with
  | [] => None
  | OpPut k' v :: r | OpPutNext k' v :: r =>
      if decide (k' = k) then Some v else latest k r
  | OpAppend k' v :: r =>
      if decide (k' = k) then Some (default [] (latest k r) ++ v) else latest k r
  end.

(** The child behind the last record of an internal page. *)
Definition lastChild (p : Page.t) : Z :=
  from_option Key.Ref (Page.First p) (last (Page.keys p)).

(** [Spine pg r r' p']: the page [p'] at [r'] is on the path from [r]
    along the last children. *)
Inductive Spine (pg : Pager.t) : Z → Z → Page.t → Prop :=
| Spine_here r p : zget pg r = Some p → Spine pg r r p
| Spine_down r p r' p' :
    zget pg r = Some p → Page.IsLeaf p = false → Spine pg (lastChild p) r' p' →
    Spine pg r r' p'.

(** The one-byte key with code [n]. *)
Definition key_of (n : nat) : bytes := [default Byte.x00 (Byte.of_N (N.of_nat n))].

(** The tree of a sequence of operations, when the sequence runs. *)
Definition tree_of (N : nat) (ops : list op) : Btree.t :=
  match run_ops N ops Btree.NewInMemoryBtree with
  | Ok (_, b) => b
  | _ => Btree.NewInMemoryBtree
  end.

(** A tree whose root has its two keys in descending order and whose second
    leaf holds a key below the key that refers to it. *)
Definition unordered_tree : Btree.t :=
  Btree.mk [Page.mk false (-1) 1 [Key.mk (str "m") 2; Key.mk (str "c") 3];
            Page.mk true 2 (-1) [Key.mk (str "a") 0];
            Page.mk true 3 (-1) [Key.mk (str "b") 1];
            Page.mk true (-1) (-1) [Key.mk (str "d") 2]]
    [str "1"; str "2"; str "3"] 0 3.

(** A tree of capacity 4 whose root and leaves are full. *)
Definition full_root_tree : Btree.t :=
  tree_of 4 ((λ n, OpPutNext (key_of n) []) <$> seq 1 16).

(** The state after the first leaf of [full_root_tree] is split for a new
    key. *)
Definition after_leaf_split : Btree.t :=
  match Btree.split_step 4 (key_of 1 ++ key_of 1) 16 [0; 1] full_root_tree with
  | Ok (_, b1) => b1
  | _ => full_root_tree
  end.

(** The ascending keys 1, ..., 101, put with [PutNext]. *)
Definition ascending_101 : list op := (λ n, OpPutNext (key_of n) []) <$> seq 1 101.

(** A scan: the pairs that the iterator of a prefix hands out. *)
Definition scan (fuel : nat) (b : Btree.t) (p : bytes) : result (list (bytes * bytes)) :=
  let? it := Btree.Start (Some p) b in
  let? (l, _) := drain fuel b it in
  Ok l.

(** [b'] is [b] with one more leaf record: the key [k] with the next slot of
    the value arena, which holds [v]. *)
Definition adds_record (b : Btree.t) (k v : bytes) (b' : Btree.t) : Prop :=
  Btree.values b' = Btree.values b ++ [v] ∧
  Btree.size b' = Btree.wrap64 (Btree.size b + 1) ∧
  ∀ x, leafrec (Btree.pager b') x ↔
       x = Key.mk k (Z.of_nat (length (Btree.values b))) ∨ leafrec (Btree.pager b) x.

(** [b'] is [b] with the slot of the record of [k] overwritten by [w]. *)
Definition overwrites (b : Btree.t) (k w : bytes) (b' : Btree.t) : Prop :=
  ∃ x, leafrec (Btree.pager b) x ∧ Key.Get x = k ∧
       b' = Btree.set_values (zset (Key.Ref x) w (Btree.values b)) b.

(** The value a key holds after an operation on it. *)
Definition op_result (m : gmap bytes bytes) (o : op) : bytes :=
  match o with
  | OpPut _ v | OpPutNext _ v => v
  | OpAppend k v => default [] (m !! k) ++ v
  end.

(** The verdict of the leaf branch of [checkPage] on the records of a leaf,
    from the last key seen. *)
Fixpoint leaf_verdict (prev : bytes) (l : list Key.t) : option string :=
  match l with
  | [] => None
  | x :: l' =>
      if negb (keyLess prev (Key.Get x)) then Some Btree.err_strict
      else if Key.Ref x <? 0 then Some Btree.err_negative_ref
      else leaf_verdict (Key.Get x) l'
  end.

(** The counter of the scan of [CheckConsistency] after [n] records. *)
Definition count_after (n : nat) (c : Z) : Z :=
  Nat.iter n (fun c => Btree.wrap64 (c + 1)) c.

(** * Proofs *)

(** ** The ordering of keys *)

Lemma compareBytes_refl a : compareBytes a a = Eq.
Proof. induction a as [|x a IH]; simpl; [done|]. by rewrite N.compare_refl. Qed.

Lemma to_N_inj x y : Byte.to_N x = Byte.to_N y → x = y.
Proof.
  intros H. pose proof (Byte.of_to_N x) as Hx.
  rewrite H, Byte.of_to_N in Hx. congruence.
Qed.

Lemma compareBytes_eq a b : compareBytes a b = Eq → a = b.
Proof.
  revert b; induction a as [|x a IH]; intros [|y b]; simpl; try done.
  destruct (N.compare_spec (Byte.to_N x) (Byte.to_N y)) as [E| |]; try done.
  intros H. f_equal; [by apply to_N_inj | by apply IH].
Qed.

Lemma compareBytes_antisym a b : compareBytes b a = CompOpp (compareBytes a b).
Proof.
  revert b; induction a as [|x a IH]; intros [|y b]; simpl; try done.
  rewrite (N.compare_antisym (Byte.to_N x) (Byte.to_N y)).
  destruct (Byte.to_N x ?= Byte.to_N y)%N; simpl; auto.
Qed.

Lemma compareBytes_lt_trans a b c :
  compareBytes a b = Lt → compareBytes b c = Lt → compareBytes a c = Lt.
Proof.
  revert b c; induction a as [|x a IH]; intros [|y b] [|z c]; simpl; try done.
  destruct (N.compare_spec (Byte.to_N x) (Byte.to_N y)) as [E|L|G]; try done;
  destruct (N.compare_spec (Byte.to_N y) (Byte.to_N z)) as [E'|L'|G']; try done; intros.
  - rewrite E, E', N.compare_refl. eauto.
  - rewrite E. by apply N.compare_lt_iff in L' as ->.
  - rewrite <- E'. by apply N.compare_lt_iff in L as ->.
  - assert (Byte.to_N x < Byte.to_N z)%N as L2 by lia.
    by apply N.compare_lt_iff in L2 as ->.
Qed.

Lemma compareBytes_cases a b :
  (compareBytes a b = Lt ∧ compareBytes b a = Gt) ∨ a = b ∨
  (compareBytes a b = Gt ∧ compareBytes b a = Lt).
Proof.
  rewrite (compareBytes_antisym a b).
  destruct (compareBytes a b) eqn:E; simpl; auto.
  right; left. by apply compareBytes_eq.
Qed.

Module KeyOrder <: TotalOrder.
Definition t := bytes.
Definition eq := @eq bytes.
Definition lt := klt.
Definition le := kle.
Lemma eq_equiv : Equivalence eq.
Proof. apply _. Qed.
Lemma lt_strorder : StrictOrder lt.
Proof.
  split.
  - intros a. unfold complement, lt, klt, keyLess. by rewrite compareBytes_refl.
  - intros a b c. unfold lt, klt, keyLess.
    destruct (compareBytes a b) eqn:E1; try done.
    destruct (compareBytes b c) eqn:E2; try done.
    by rewrite (compareBytes_lt_trans _ _ _ E1 E2).
Qed.
Lemma lt_compat : Proper (eq ==> eq ==> iff) lt.
Proof. by intros ?? -> ?? ->. Qed.
Lemma le_lteq x y : le x y ↔ lt x y ∨ eq x y.
Proof.
  unfold le, lt, eq, kle, klt, keyLess.
  destruct (compareBytes_cases x y) as [[E1 E2]|[ -> |[E1 E2]]].
  - rewrite E1, E2. split; auto.
  - rewrite compareBytes_refl. split; auto.
  - rewrite E1, E2. split; [done|]. intros [?| ->]; [done|].
    by rewrite compareBytes_refl in E1.
Qed.
Lemma lt_total x y : lt x y ∨ eq x y ∨ lt y x.
Proof.
  unfold lt, eq, klt, keyLess.
  destruct (compareBytes_cases x y) as [[-> ->]|[ -> |[-> ->]]]; auto.
Qed.
End KeyOrder.

Module KeyOrderTac := MakeOrderTac KeyOrder KeyOrder.

(** Boolean comparisons become order facts, intervals are opened, and the
    order solver finishes. *)
Ltac korder_prep :=
  repeat match goal with
  | H : keyLess ?a ?b = true |- _ => change (klt a b) in H
  | H : keyLess ?a ?b = false |- _ => change (kle b a) in H
  | |- keyLess ?a ?b = true => change (klt a b)
  | |- keyLess ?a ?b = false => change (kle b a)
  | H : in_range _ _ |- _ => destruct H
  | H : lt_hi _ (Some _) |- _ => change (lt_hi ?a (Some ?b)) with (klt a b) in H
  | |- lt_hi _ (Some _) => change (lt_hi ?a (Some ?b)) with (klt a b)
  | |- lt_hi _ None => exact I
  end.

Ltac korder := korder_prep; KeyOrderTac.order.

Lemma keyLess_cases a b : {keyLess a b = true} + {keyLess a b = false}.
Proof. destruct (keyLess a b); auto. Qed.

Lemma bytesEqual_true a b : bytesEqual a b = true ↔ a = b.
Proof.
  unfold bytesEqual. split.
  - destruct (compareBytes a b) eqn:E; try done. intros _. by apply compareBytes_eq.
  - intros ->. by rewrite compareBytes_refl.
Qed.

Lemma bytesEqual_false a b : bytesEqual a b = false ↔ a ≠ b.
Proof.
  rewrite <- bytesEqual_true. destruct (bytesEqual a b); naive_solver.
Qed.

Lemma kle_nil a : kle [] a.
Proof. unfold kle, keyLess. by destruct a. Qed.

Lemma klt_nil a : a ≠ [] → klt [] a.
Proof. unfold klt, keyLess. by destruct a. Qed.

Lemma klt_not_nil a b : klt a b → b ≠ [].
Proof. intros H ->. pose proof (kle_nil a). korder. Qed.

Lemma lt_hi_lt a b h : klt a b → lt_hi b h → lt_hi a h.
Proof. destruct h; simpl; [|done]. intros. korder. Qed.

Lemma lt_hi_le a b h : kle a b → lt_hi b h → lt_hi a h.
Proof. destruct h; simpl; [|done]. intros. korder. Qed.

(** ** Lookups by reference *)

Lemma zget_Some {A} (l : list A) r x :
  zget l r = Some x ↔ 0 ≤ r ∧ l !! Z.to_nat r = Some x.
Proof.
  unfold zget. destruct (Z.ltb_spec r 0).
  - split; [done | intros [? _]; lia].
  - split; [intros; split; [lia|done] | by intros [_ ?]].
Qed.

Lemma zget_lt {A} (l : list A) r x :
  zget l r = Some x → 0 ≤ r < Z.of_nat (length l).
Proof.
  rewrite zget_Some. intros [? H]. apply lookup_lt_Some in H. lia.
Qed.

Lemma zget_is_Some {A} (l : list A) r :
  0 ≤ r < Z.of_nat (length l) → is_Some (zget l r).
Proof.
  intros H. unfold zget. destruct (Z.ltb_spec r 0); [lia|].
  apply lookup_lt_is_Some. lia.
Qed.

Lemma zget_same_length {A B} (l : list A) (l' : list B) r x :
  length l = length l' → zget l r = Some x → is_Some (zget l' r).
Proof. intros E H. apply zget_lt in H. apply zget_is_Some. lia. Qed.

Lemma zget_fresh {A} (l : list A) : zget l (Z.of_nat (length l)) = None.
Proof.
  unfold zget. destruct (Z.ltb_spec (Z.of_nat (length l)) 0); [done|].
  apply lookup_ge_None. lia.
Qed.

Lemma zget_app_l {A} (l l' : list A) r x :
  zget l r = Some x → zget (l ++ l') r = Some x.
Proof.
  rewrite !zget_Some. intros [? H]. split; [done|]. by apply lookup_app_l_Some.
Qed.

Lemma zget_snoc {A} (l : list A) y r :
  zget (l ++ [y]) r =
  if bool_decide (r = Z.of_nat (length l)) then Some y else zget l r.
Proof.
  unfold zget. case_bool_decide as E.
  - subst. destruct (Z.ltb_spec (Z.of_nat (length l)) 0); [lia|].
    rewrite Nat2Z.id. by rewrite lookup_app_r, Nat.sub_diag.
  - destruct (Z.ltb_spec r 0); [done|].
    destruct (decide (Z.to_nat r < length l)%nat).
    + by rewrite lookup_app_l.
    + rewrite lookup_app_r by lia.
      rewrite (lookup_ge_None_2 l) by lia.
      destruct (Z.to_nat r - length l)%nat eqn:E'; [lia|done].
Qed.

Lemma zget_set {A} (l : list A) r r' y :
  zget (zset r y l) r' =
  if bool_decide (r = r') then (λ _, y) <$> zget l r else zget l r'.
Proof.
  unfold zget, zset. case_bool_decide as E.
  - subst r'. destruct (Z.ltb_spec r 0); [done|].
    destruct (l !! Z.to_nat r) eqn:E'.
    + simpl. apply list_lookup_insert_eq. by apply lookup_lt_Some in E'.
    + rewrite list_insert_ge; [by rewrite E'|]. by apply lookup_ge_None.
  - destruct (Z.ltb_spec r' 0); [done|].
    destruct (Z.ltb_spec r 0); [done|].
    apply list_lookup_insert_ne. lia.
Qed.

Lemma zget_set_eq {A} (l : list A) r x y :
  zget l r = Some x → zget (zset r y l) r = Some y.
Proof. intros H. rewrite zget_set, bool_decide_true by done. by rewrite H. Qed.

Lemma zget_set_ne {A} (l : list A) r r' y :
  r ≠ r' → zget (zset r y l) r' = zget l r'.
Proof. intros H. by rewrite zget_set, bool_decide_false. Qed.

Lemma zset_length {A} (l : list A) r y : length (zset r y l) = length l.
Proof. unfold zset. destruct (r <? 0); [done|]. apply length_insert. Qed.

Lemma at_index_zget {A} (l : list A) i :
  at_index l i = match zget l i with Some x => Ok x | None => Panic index_out_of_range end.
Proof. done. Qed.

Lemma pager_get_zget (pg : Pager.t) r p : zget pg r = Some p → Pager.Get r pg = Ok p.
Proof. intros H. unfold Pager.Get, at_index. by rewrite H. Qed.

(** ** Ascending records *)

Lemma sorted_from_lt_hi lo l hi : sorted_from lo l hi → lt_hi lo hi.
Proof.
  revert lo; induction l as [|x l IH]; simpl; intros lo; [done|].
  intros [H1 H2]. apply IH in H2. by eapply lt_hi_lt.
Qed.

Lemma sorted_from_weaken lo lo' l hi :
  kle lo' lo → sorted_from lo l hi → sorted_from lo' l hi.
Proof.
  destruct l as [|x l]; simpl.
  - intros. by eapply lt_hi_le.
  - intros ? [? ?]. split; [korder|done].
Qed.

Lemma sorted_from_app lo l1 x l2 hi :
  sorted_from lo (l1 ++ x :: l2) hi ↔
  sorted_from lo l1 (Some (Key.Get x)) ∧ sorted_from (Key.Get x) l2 hi.
Proof.
  revert lo; induction l1 as [|y l1 IH]; simpl; intros lo; [done|].
  rewrite IH. tauto.
Qed.

Lemma sorted_from_elem lo l hi x :
  sorted_from lo l hi → x ∈ l → klt lo (Key.Get x) ∧ lt_hi (Key.Get x) hi.
Proof.
  revert lo; induction l as [|y l IH]; simpl; intros lo Hs Hx.
  - by apply elem_of_nil in Hx.
  - destruct Hs as [H1 H2]. apply elem_of_cons in Hx as [->|Hx].
    + split; [done|]. by eapply sorted_from_lt_hi.
    + destruct (IH _ H2 Hx). split; [korder|done].
Qed.

Lemma sorted_from_key_inj lo l hi x y :
  sorted_from lo l hi → x ∈ l → y ∈ l → Key.Get x = Key.Get y → x = y.
Proof.
  revert lo; induction l as [|z l IH]; simpl; intros lo Hs Hx Hy E.
  - by apply elem_of_nil in Hx.
  - destruct Hs as [H1 H2].
    apply elem_of_cons in Hx as [->|Hx]; apply elem_of_cons in Hy as [->|Hy]; auto.
    + destruct (sorted_from_elem _ _ _ _ H2 Hy). korder.
    + destruct (sorted_from_elem _ _ _ _ H2 Hx). korder.
    + eauto.
Qed.

Lemma leaf_ok_sorted lo l hi : leaf_ok lo l hi → l ≠ [] → ∀ lo', klt lo' lo → sorted_from lo' l hi.
Proof.
  destruct l as [|x l]; [done|]. simpl. intros [? ?] _ lo' ?. split; [korder|done].
Qed.

Lemma leaf_ok_elem lo l hi x :
  leaf_ok lo l hi → x ∈ l → kle lo (Key.Get x) ∧ lt_hi (Key.Get x) hi.
Proof.
  destruct l as [|y l]; simpl.
  - intros _ Hx. by apply elem_of_nil in Hx.
  - intros [H1 H2] Hx. apply elem_of_cons in Hx as [->|Hx].
    + split; [done|]. by eapply sorted_from_lt_hi.
    + destruct (sorted_from_elem _ _ _ _ H2 Hx). split; [korder|done].
Qed.

Lemma leaf_ok_key_inj lo l hi x y :
  leaf_ok lo l hi → x ∈ l → y ∈ l → Key.Get x = Key.Get y → x = y.
Proof.
  destruct l as [|z l]; simpl.
  - intros _ Hx. by apply elem_of_nil in Hx.
  - intros [H1 H2] Hx Hy E.
    apply elem_of_cons in Hx as [->|Hx]; apply elem_of_cons in Hy as [->|Hy]; auto.
    + destruct (sorted_from_elem _ _ _ _ H2 Hy). korder.
    + destruct (sorted_from_elem _ _ _ _ H2 Hx). korder.
    + eapply sorted_from_key_inj; eauto.
Qed.

(** A leaf's records as an ascending list above an artificial bound. *)
Lemma leaf_ok_app lo l1 x l2 hi :
  leaf_ok lo (l1 ++ x :: l2) hi →
  leaf_ok lo l1 (Some (Key.Get x)) ∧ leaf_ok (Key.Get x) (x :: l2) hi ∧
  (l1 ≠ [] → klt lo (Key.Get x)).
Proof.
  destruct l1 as [|y l1]; simpl.
  - intros [? ?]. repeat split; try done. korder.
  - intros [? H]. apply sorted_from_app in H as [H1 H2].
    repeat split; try done; try korder.
    intros _. apply sorted_from_lt_hi in H1. simpl in H1. korder.
Qed.

(** ** Ordered placement *)

Lemma place_sorted lo l hi k r :
  sorted_from lo l hi → klt lo k → lt_hi k hi → sorted_from lo (Page.place k r l) hi.
Proof.
  revert lo; induction l as [|x l IH]; simpl; intros lo Hs Hlo Hhi.
  - done.
  - destruct Hs as [H1 H2].
    destruct (keyLess_cases (Key.Get x) k) as [E|E]; rewrite E; simpl.
    + split; [done|]. apply IH; try done.
    + destruct (keyLess_cases k (Key.Get x)) as [E'|E']; rewrite E'; simpl.
      * repeat split; try done.
      * assert (k = Key.Get x) as -> by korder. split; [done|done].
Qed.

Lemma place_leaf_ok lo l hi k r :
  leaf_ok lo l hi → kle lo k → lt_hi k hi → leaf_ok lo (Page.place k r l) hi.
Proof.
  destruct l as [|x l]; simpl; intros Hs Hlo Hhi.
  - done.
  - destruct Hs as [H1 H2].
    destruct (keyLess_cases (Key.Get x) k) as [E|E]; rewrite E; simpl.
    + split; [done|]. apply place_sorted; try done.
    + destruct (keyLess_cases k (Key.Get x)) as [E'|E']; rewrite E'; simpl.
      * repeat split; try done.
      * assert (k = Key.Get x) as -> by korder. split; [done|done].
Qed.

Lemma place_sorted_inv lo l hi k r :
  sorted_from lo (Page.place k r l) hi → k ∉ Key.Get <$> l → sorted_from lo l hi.
Proof.
  revert lo; induction l as [|x l IH]; simpl; intros lo Hs Hk.
  - destruct Hs. by eapply lt_hi_lt.
  - apply not_elem_of_cons in Hk as [Hk1 Hk2].
    destruct (keyLess_cases (Key.Get x) k) as [E|E]; rewrite E in Hs; simpl in Hs.
    + destruct Hs. split; [done|]. by apply IH.
    + destruct (keyLess_cases k (Key.Get x)) as [E'|E']; rewrite E' in Hs; simpl in Hs.
      * destruct Hs as (? & ? & ?). split; [korder|done].
      * exfalso. apply Hk1. korder.
Qed.

Lemma place_perm k r l :
  k ∉ Key.Get <$> l → Page.place k r l ≡ₚ Key.mk k r :: l.
Proof.
  induction l as [|x l IH]; simpl; intros Hk; [done|].
  apply not_elem_of_cons in Hk as [Hk1 Hk2].
  destruct (keyLess_cases (Key.Get x) k) as [E|E]; rewrite E.
  - rewrite IH by done. apply Permutation_swap.
  - destruct (keyLess_cases k (Key.Get x)) as [E'|E']; rewrite E'; [done|].
    exfalso. apply Hk1. korder.
Qed.

Lemma place_length k r l :
  k ∉ Key.Get <$> l → length (Page.place k r l) = S (length l).
Proof. intros H. by rewrite (place_perm _ r _ H). Qed.

Lemma place_elem k r l x :
  k ∉ Key.Get <$> l → x ∈ Page.place k r l ↔ x = Key.mk k r ∨ x ∈ l.
Proof. intros H. rewrite (place_perm _ r _ H). apply elem_of_cons. Qed.

Lemma place_app_l k r l1 l2 :
  (∀ y, head l2 = Some y → klt k (Key.Get y)) →
  Page.place k r (l1 ++ l2) = Page.place k r l1 ++ l2.
Proof.
  intros H. induction l1 as [|x l1 IH]; simpl.
  - destruct l2 as [|y l2]; simpl; [done|].
    specialize (H y eq_refl).
    destruct (keyLess_cases (Key.Get y) k) as [E|E]; rewrite E; [korder|].
    destruct (keyLess_cases k (Key.Get y)) as [E'|E']; rewrite E'; [done|korder].
  - destruct (keyLess (Key.Get x) k); [by rewrite IH|].
    by destruct (keyLess k (Key.Get x)).
Qed.

Lemma place_app_r k r l1 l2 :
  (∀ x, x ∈ l1 → klt (Key.Get x) k) →
  Page.place k r (l1 ++ l2) = l1 ++ Page.place k r l2.
Proof.
  induction l1 as [|x l1 IH]; simpl; intros H; [done|].
  assert (klt (Key.Get x) k) as E by (apply H; left).
  unfold klt in E. rewrite E. f_equal. apply IH. intros. apply H. by right.
Qed.

Lemma place_cons_gt k r x l :
  klt (Key.Get x) k → Page.place k r (x :: l) = x :: Page.place k r l.
Proof. intros E. simpl. unfold klt in E. by rewrite E. Qed.

(** The records of a page that is split at [x] and takes a new key. *)
Lemma place_split_lt lo hi k r l1 x l2 :
  sorted_from lo (l1 ++ x :: l2) hi → klt k (Key.Get x) →
  Page.place k r (l1 ++ x :: l2) = Page.place k r l1 ++ x :: l2.
Proof.
  intros _ E. apply place_app_l. by intros y [= <-].
Qed.

Lemma place_split_ge lo hi k r l1 x l2 :
  sorted_from lo (l1 ++ x :: l2) hi → klt (Key.Get x) k →
  Page.place k r (l1 ++ x :: l2) = l1 ++ x :: Page.place k r l2.
Proof.
  intros Hs E. rewrite place_app_r.
  - by rewrite place_cons_gt.
  - apply sorted_from_app in Hs as [H1 _]. intros y Hy.
    destruct (sorted_from_elem _ _ _ _ H1 Hy) as [_ ?]. simpl in *. korder.
Qed.

(** ** The search in a page *)

Lemma floor_elem q l x : Page.floor q l = Some x → x ∈ l.
Proof.
  revert x; induction l as [|y l IH]; simpl; intros x; [done|].
  destruct (keyLess q (Key.Get y)); [done|].
  destruct (Page.floor q l) eqn:E.
  - intros [= <-]. right. by apply IH.
  - intros [= <-]. by left.
Qed.

Lemma floor_le q l x : Page.floor q l = Some x → kle (Key.Get x) q.
Proof.
  revert x; induction l as [|y l IH]; simpl; intros x; [done|].
  destruct (keyLess_cases q (Key.Get y)) as [E|E]; rewrite E; [done|].
  destruct (Page.floor q l) eqn:E'.
  - intros [= <-]. by apply IH.
  - by intros [= <-].
Qed.

Lemma floor_None lo hi q l :
  sorted_from lo l hi → Page.floor q l = None → ∀ x, x ∈ l → klt q (Key.Get x).
Proof.
  destruct l as [|y l]; simpl; intros Hs Hf x Hx.
  - by apply elem_of_nil in Hx.
  - destruct Hs as [H1 H2].
    destruct (keyLess_cases q (Key.Get y)) as [E|E]; rewrite E in Hf.
    + apply elem_of_cons in Hx as [->|Hx]; [done|].
      destruct (sorted_from_elem _ _ _ _ H2 Hx). korder.
    + by destruct (Page.floor q l).
Qed.

Lemma floor_found lo hi l x :
  sorted_from lo l hi → x ∈ l → Page.floor (Key.Get x) l = Some x.
Proof.
  revert lo; induction l as [|y l IH]; simpl; intros lo Hs Hx.
  - by apply elem_of_nil in Hx.
  - destruct Hs as [H1 H2]. apply elem_of_cons in Hx as [->|Hx].
    + destruct (keyLess_cases (Key.Get y) (Key.Get y)) as [E|E]; [korder|]. rewrite E.
      destruct (Page.floor (Key.Get y) l) eqn:E'; [|done].
      pose proof (floor_elem _ _ _ E') as Hin. pose proof (floor_le _ _ _ E').
      destruct (sorted_from_elem _ _ _ _ H2 Hin). korder.
    + destruct (sorted_from_elem _ _ _ _ H2 Hx).
      destruct (keyLess_cases (Key.Get x) (Key.Get y)) as [E|E]; [korder|]. rewrite E.
      by rewrite (IH _ H2 Hx).
Qed.

Lemma leaf_floor_found lo hi l x :
  leaf_ok lo l hi → x ∈ l → Page.floor (Key.Get x) l = Some x.
Proof.
  intros Hl Hx. destruct l as [|y l]; [by apply elem_of_nil in Hx|].
  destruct Hl as [H1 H2].
  destruct (decide (Key.Get y = [])) as [E0|E0].
  - (* the first key is empty: use the list from the second record on *)
    simpl. apply elem_of_cons in Hx as [->|Hx].
    + destruct (keyLess_cases (Key.Get y) (Key.Get y)) as [E|E]; [korder|]. rewrite E.
      destruct (Page.floor (Key.Get y) l) eqn:E'; [|done].
      pose proof (floor_elem _ _ _ E') as Hin. pose proof (floor_le _ _ _ E').
      destruct (sorted_from_elem _ _ _ _ H2 Hin). korder.
    + destruct (sorted_from_elem _ _ _ _ H2 Hx).
      destruct (keyLess_cases (Key.Get x) (Key.Get y)) as [E|E]; [korder|]. rewrite E.
      by rewrite (floor_found _ _ _ _ H2 Hx).
  - apply (floor_found [] hi); [|done]. simpl. split; [by apply klt_nil|done].
Qed.

(** The result of [Search] on a leaf. *)
Lemma leaf_search lo hi p q :
  leaf_ok lo (Page.keys p) hi →
  (∃ x, Page.Search q p = (true, x) ∧ x ∈ Page.keys p ∧ Key.Get x = q) ∨
  (∃ x, Page.Search q p = (false, x) ∧ q ∉ Key.Get <$> Page.keys p).
Proof.
  intros Hl. unfold Page.Search.
  destruct (Page.floor q (Page.keys p)) as [x|] eqn:E.
  - destruct (bytesEqual (Key.Get x) q) eqn:Eq.
    + left. exists x. apply bytesEqual_true in Eq. split; [done|].
      split; [by eapply floor_elem|done].
    + right. eexists. split; [done|]. intros Hin.
      apply list_elem_of_fmap in Hin as (y & -> & Hy).
      rewrite (leaf_floor_found _ _ _ _ Hl Hy) in E. injection E as <-.
      by apply bytesEqual_false in Eq.
  - right. eexists. split; [done|]. intros Hin.
    apply list_elem_of_fmap in Hin as (y & -> & Hy).
    by rewrite (leaf_floor_found _ _ _ _ Hl Hy) in E.
Qed.

(** ** The children of an internal page *)

Lemma chain_sorted G d lo c l hi : chain G d lo c l hi → sorted_from lo l hi.
Proof.
  revert lo c; induction l as [|x l IH]; simpl; intros lo c.
  - by intros [_ ?].
  - intros (? & ? & ?). split; eauto.
Qed.

Lemma chain_app G d lo c l1 x l2 hi :
  chain G d lo c (l1 ++ x :: l2) hi ↔
  chain G d lo c l1 (Some (Key.Get x)) ∧ chain G d (Key.Get x) (Key.Ref x) l2 hi.
Proof.
  revert lo c; induction l1 as [|y l1 IH]; simpl; intros lo c.
  - tauto.
  - rewrite IH. tauto.
Qed.

Lemma child_cons c x l r : child c (x :: l) r ↔ r = c ∨ child (Key.Ref x) l r.
Proof.
  unfold child. rewrite fmap_cons, elem_of_cons. tauto.
Qed.

Lemma child_nil c r : child c [] r ↔ r = c.
Proof.
  unfold child. rewrite fmap_nil. split; [|auto].
  intros [?|H]; [done|]. by apply elem_of_nil in H.
Qed.

Lemma chain_child G d lo c l hi r :
  chain G d lo c l hi → child c l r →
  ∃ lo' hi', zget G r = Some (mkInfo d lo' hi') ∧ kle lo lo' ∧ lt_hi lo' hi' ∧
             (∀ k, lt_hi k hi' → lt_hi k hi).
Proof.
  revert lo c; induction l as [|x l IH]; simpl; intros lo c Hc Hr.
  - apply child_nil in Hr as ->. destruct Hc. exists lo, hi.
    repeat split; try done. korder.
  - destruct Hc as (Hg & Hlt & Hc). apply child_cons in Hr as [->|Hr].
    + exists lo, (Some (Key.Get x)). repeat split; try done; [korder|].
      intros k Hk. simpl in Hk. apply chain_sorted, sorted_from_lt_hi in Hc.
      by eapply lt_hi_lt.
    + destruct (IH _ _ Hc Hr) as (lo' & hi' & ? & ? & ? & ?).
      exists lo', hi'. repeat split; try done. korder.
Qed.

Lemma chain_frame G G' d lo c l hi :
  chain G d lo c l hi → (∀ r, child c l r → zget G' r = zget G r) →
  chain G' d lo c l hi.
Proof.
  revert lo c; induction l as [|x l IH]; simpl; intros lo c Hc Hf.
  - destruct Hc. split; [|done]. rewrite Hf; [done|]. by apply child_nil.
  - destruct Hc as (Hg & Hlt & Hc). repeat split; try done.
    + rewrite Hf; [done|]. apply child_cons. by left.
    + apply IH; [done|]. intros r Hr. apply Hf. apply child_cons. by right.
Qed.

(** The record [Search] returns on an internal page leads to the child
    that covers the query. *)
Lemma chain_floor G d lo c l hi q :
  chain G d lo c l hi → kle lo q → lt_hi q hi →
  let r := match Page.floor q l with Some x => Key.Ref x | None => c end in
  child c l r ∧
  ∃ lo' hi', zget G r = Some (mkInfo d lo' hi') ∧ kle lo' q ∧ lt_hi q hi'.
Proof.
  revert lo c; induction l as [|x l IH]; simpl; intros lo c Hc Hlo Hhi.
  - destruct Hc. split; [by apply child_nil|]. eauto.
  - destruct Hc as (Hg & Hlt & Hc).
    destruct (keyLess_cases q (Key.Get x)) as [E|E]; rewrite E.
    + split; [apply child_cons; by left|].
      exists lo, (Some (Key.Get x)). repeat split; try done.
    + destruct (IH _ _ Hc E Hhi) as [Hch Hi].
      destruct (Page.floor q l) as [y|]; (split; [apply child_cons; by right|done]).
Qed.

(** The last record of an internal page leads to its last child. *)
Lemma chain_last G d lo c l hi :
  chain G d lo c l hi →
  child c l (from_option Key.Ref c (last l)) ∧
  ∃ lo', zget G (from_option Key.Ref c (last l)) = Some (mkInfo d lo' hi) ∧
         kle lo lo' ∧ (l ≠ [] → lo' = from_option Key.Get [] (last l)) ∧
         (∀ x, x ∈ l → kle (Key.Get x) lo').
Proof.
  revert lo c; induction l as [|x l IH]; intros lo c Hc.
  - simpl in *. destruct Hc. split; [by apply child_nil|].
    exists lo. repeat split; try done; [korder|].
    intros x Hx. by apply elem_of_nil in Hx.
  - destruct Hc as (Hg & Hlt & Hc). specialize (IH _ _ Hc).
    destruct IH as (Hch & lo' & Hz & Hle & Hlo' & Hmax).
    destruct l as [|y l].
    + simpl in *. split; [apply child_cons; by right|].
      exists lo'. repeat split; try done; [korder| |].
      * intros _. destruct Hc as [Hc ?]. congruence.
      * intros z Hz'. apply list_elem_of_singleton in Hz' as ->. done.
    + rewrite last_cons_cons.
      assert (is_Some (last (y :: l))) as [w Ew] by (by apply last_is_Some).
      rewrite Ew in *. simpl in *.
      split; [apply child_cons; by right|].
      exists lo'. repeat split; try done; [korder| |].
      * intros _. by apply Hlo'.
      * intros z Hz'. apply elem_of_cons in Hz' as [->|Hz']; [done|by apply Hmax].
Qed.

(** Inserting the separator of a divided child into the chain of its
    parent. *)
Lemma chain_insert G G' d P NP a b s :
  zget G P = Some (mkInfo d a b) → klt a s → lt_hi s b →
  zget G' P = Some (mkInfo d a (Some s)) → zget G' NP = Some (mkInfo d s b) →
  (∀ r, r ≠ P → r ≠ NP → zget G' r = zget G r) → zget G NP = None →
  ∀ l lo c hi, chain G d lo c l hi → child c l P →
               chain G' d lo c (Page.place s NP l) hi ∧ s ∉ Key.Get <$> l.
Proof.
  intros HP Has Hsb HP' HNP' Hoth HNP.
  assert (Hframe : ∀ l lo c hi, chain G d lo c l hi → klt a lo → chain G' d lo c l hi).
  { intros l lo c hi Hc Hlt. eapply chain_frame; [done|].
    intros r Hr. destruct (chain_child _ _ _ _ _ _ _ Hc Hr) as (lo' & hi' & Hz & ? & ? & ?).
    apply Hoth; intros ->; [|congruence].
    rewrite HP in Hz. injection Hz as -> ->. korder. }
  induction l as [|x l IH]; intros lo c hi Hc Hch.
  - apply child_nil in Hch as <-. simpl in *. destruct Hc as [Hz ?].
    rewrite HP in Hz. injection Hz as -> ->.
    split; [|apply not_elem_of_nil]. repeat split; try done.
  - simpl in Hc. destruct Hc as (Hz & Hlt & Hc).
    destruct (decide (P = c)) as [<-|Hne].
    + rewrite HP in Hz. injection Hz as -> ->. simpl in Hsb.
      split.
      * simpl. destruct (keyLess_cases (Key.Get x) s) as [E|E]; [korder|]. rewrite E.
        unfold klt in Hsb. rewrite Hsb. simpl.
        repeat split; try done. apply Hframe; [done|korder].
      * pose proof (chain_sorted _ _ _ _ _ _ Hc) as Hs.
        intros Hin. apply list_elem_of_fmap in Hin as (y & -> & Hy).
        apply elem_of_cons in Hy as [->|Hy]; [korder|].
        destruct (sorted_from_elem _ _ _ _ Hs Hy). korder.
    + apply child_cons in Hch as [?|Hch]; [done|].
      destruct (chain_child _ _ _ _ _ _ _ Hc Hch) as (lo' & hi' & Hz' & ? & ? & ?).
      rewrite HP in Hz'. injection Hz' as -> ->.
      destruct (IH _ _ _ Hc Hch) as [IH1 IH2].
      split.
      * rewrite place_cons_gt by korder. simpl. repeat split; try done.
        rewrite Hoth; [done| congruence |]. intros ->. congruence.
      * rewrite fmap_cons. apply not_elem_of_cons. split; [korder|done].
Qed.

(** ** Consequences of the invariant *)

Section SInvFacts.
Context {pg : Pager.t} {root : Z} {G : list Info}.
Hypothesis HS : SInv pg root G.

Lemma sinv_info r p : zget pg r = Some p → ∃ i, zget G r = Some i.
Proof.
  intros H. apply (zget_same_length pg G) in H as [i Hi]; [eauto|].
  symmetry. apply HS.
Qed.

Lemma sinv_page_of r i : zget G r = Some i → ∃ p, zget pg r = Some p.
Proof.
  intros H. apply (zget_same_length G pg) in H as [p Hp]; [eauto|]. apply HS.
Qed.

Lemma sinv_leaf r p i :
  zget pg r = Some p → zget G r = Some i → Page.IsLeaf p = true →
  lvl i = O ∧ leaf_ok (lo i) (Page.keys p) (hi i) ∧ (lo i ≠ [] → Page.keys p ≠ []).
Proof.
  intros Hp Hi Hl. destruct (s_page _ _ _ HS _ _ _ Hp Hi) as [Hok _].
  unfold page_ok in Hok. destruct (lvl i); [naive_solver|].
  destruct Hok. congruence.
Qed.

Lemma sinv_internal r p i :
  zget pg r = Some p → zget G r = Some i → Page.IsLeaf p = false →
  ∃ d, lvl i = S d ∧ chain G d (lo i) (Page.First p) (Page.keys p) (hi i).
Proof.
  intros Hp Hi Hl. destruct (s_page _ _ _ HS _ _ _ Hp Hi) as [Hok _].
  unfold page_ok in Hok. destruct (lvl i); [|naive_solver].
  destruct Hok. congruence.
Qed.

Lemma sinv_child r p i c :
  zget pg r = Some p → zget G r = Some i → Page.IsLeaf p = false →
  child (Page.First p) (Page.keys p) c →
  ∃ ic, zget G c = Some ic ∧ lvl i = S (lvl ic) ∧ kle (lo i) (lo ic) ∧
        lt_hi (lo ic) (hi ic) ∧ (∀ k, in_range ic k → in_range i k).
Proof.
  intros Hp Hi Hl Hc. destruct (sinv_internal _ _ _ Hp Hi Hl) as (d & Hd & Hch).
  destruct (chain_child _ _ _ _ _ _ _ Hch Hc) as (lo' & hi' & Hz & ? & ? & Hhi).
  eexists. split; [done|]. simpl. repeat split; try done.
  - destruct H1. simpl in *. korder.
  - destruct H1. simpl in *. auto.
Qed.

Lemma parent_unique r r' p p' c :
  zget pg r = Some p → zget pg r' = Some p' →
  Page.IsLeaf p = false → Page.IsLeaf p' = false →
  child (Page.First p) (Page.keys p) c → child (Page.First p') (Page.keys p') c →
  r = r'.
Proof.
  intros Hp Hp' Hl Hl' Hc Hc'.
  destruct (sinv_info _ _ Hp) as [i Hi]. destruct (sinv_info _ _ Hp') as [i' Hi'].
  destruct (sinv_child _ _ _ _ Hp Hi Hl Hc) as (ic & Hz & Hlv & _ & Hne & Hin).
  destruct (sinv_child _ _ _ _ Hp' Hi' Hl' Hc') as (ic' & Hz' & Hlv' & _ & _ & Hin').
  rewrite Hz in Hz'. injection Hz' as <-.
  assert (in_range ic (lo ic)) as Hr by (split; [korder|done]).
  eapply (s_inj _ _ _ HS r r' i i' (lo ic)); eauto. congruence.
Qed.

(** Levels decrease by one at every step of a path. *)
Lemma links_lvl path i0 q0 :
  links pg path → path !! O = Some q0 → zget G q0 = Some i0 →
  ∀ (n : nat) q, path !! n = Some q →
    ∃ i, zget G q = Some i ∧ (lvl i + n = lvl i0)%nat.
Proof.
  intros Hl H0 Hi0 n. induction n as [|n IH]; intros q Hq.
  - rewrite H0 in Hq. injection Hq as <-. exists i0. split; [done|lia].
  - destruct (lookup_lt_is_Some_2 path n) as [q' Hq'].
    { apply lookup_lt_Some in Hq. lia. }
    destruct (IH _ Hq') as (i' & Hi' & Hlv).
    destruct (Hl _ _ _ Hq' Hq) as (pq & Hpq & Hleaf & Hc).
    destruct (sinv_child _ _ _ _ Hpq Hi' Hleaf Hc) as (ic & Hz & Hlv' & _).
    exists ic. split; [done|lia].
Qed.

Lemma links_inj path i0 q0 (n m : nat) q :
  links pg path → path !! O = Some q0 → zget G q0 = Some i0 →
  path !! n = Some q → path !! m = Some q → n = m.
Proof.
  intros Hl H0 Hi0 Hn Hm.
  destruct (links_lvl _ _ _ Hl H0 Hi0 _ _ Hn) as (i & Hi & ?).
  destruct (links_lvl _ _ _ Hl H0 Hi0 _ _ Hm) as (i' & Hi' & ?).
  rewrite Hi in Hi'. injection Hi' as <-. lia.
Qed.

End SInvFacts.

(** ** Dividing a page and promoting the root preserve the invariant *)

Lemma zget_divide {A} (l : list A) P x y r :
  zget (zset P x l ++ [y]) r =
  if bool_decide (r = Z.of_nat (length l)) then Some y
  else if bool_decide (r = P) then (λ _, x) <$> zget l P
  else zget l r.
Proof.
  rewrite zget_snoc, zset_length. case_bool_decide; [done|].
  rewrite zget_set. repeat case_bool_decide; congruence.
Qed.

Lemma page_ok_frame G G' i p :
  page_ok G i p →
  (∀ r, Page.IsLeaf p = false → child (Page.First p) (Page.keys p) r →
        zget G' r = zget G r) →
  page_ok G' i p.
Proof.
  unfold page_ok. destruct (lvl i); [done|].
  intros [Hl Hc] Hf. split; [done|]. eapply chain_frame; eauto.
Qed.

Lemma link_ok_stable G G' i p :
  link_ok G i p →
  (∀ r j, zget G r = Some j → ∃ j', zget G' r = Some j' ∧ lvl j' = lvl j ∧ lo j' = lo j) →
  link_ok G' i p.
Proof.
  unfold link_ok. destruct (hi i); [|done].
  intros (j & Hj & ? & ?) Hst. destruct (Hst _ _ Hj) as (j' & ? & ? & ?).
  exists j'. repeat split; congruence.
Qed.

Lemma leaf_count_snoc pg p :
  leaf_count (pg ++ [p]) = (leaf_count pg + leaf_len p)%nat.
Proof.
  unfold leaf_count. rewrite sum_list_with_app. simpl. lia.
Qed.

Lemma leaf_count_zset pg r p p' :
  zget pg r = Some p →
  (leaf_count (zset r p' pg) + leaf_len p = leaf_count pg + leaf_len p')%nat.
Proof.
  intros H. apply zget_Some in H as [Hr H]. unfold zset.
  destruct (Z.ltb_spec r 0); [lia|].
  rewrite insert_take_drop by (by eapply lookup_lt_Some).
  rewrite <- (take_drop_middle _ _ _ H) at 3.
  unfold leaf_count. rewrite !sum_list_with_app. simpl. lia.
Qed.

Lemma leafrec_intro pg r p x :
  zget pg r = Some p → Page.IsLeaf p = true → x ∈ Page.keys p → leafrec pg x.
Proof. intros. exists r, p. done. Qed.

Lemma link_ok_ext G i i' p p' :
  hi i = hi i' → lvl i = lvl i' → Page.NextPage p = Page.NextPage p' →
  link_ok G i p → link_ok G i' p'.
Proof. unfold link_ok. by intros <- <- <-. Qed.

Section Divide.
Context (pgV : Pager.t) (root : Z) (G : list Info).
Context (P Q : Z) (pV pQ pP' pNP' : Page.t) (d : nat) (a : bytes) (b : option bytes) (s : bytes).
Hypothesis HS : SInv pgV root G.
Hypothesis HP : zget pgV P = Some pV.
Hypothesis HGP : zget G P = Some (mkInfo d a b).
Hypothesis HQ : zget pgV Q = Some pQ.
Hypothesis HQl : Page.IsLeaf pQ = false.
Hypothesis HQc : child (Page.First pQ) (Page.keys pQ) P.
Hypothesis Has : klt a s.
Hypothesis Hsb : lt_hi s b.
Hypothesis HokP : page_ok G (mkInfo d a (Some s)) pP'.
Hypothesis HokNP : page_ok G (mkInfo d s b) pNP'.
Hypothesis HnextP : Page.NextPage pP' = Z.of_nat (length pgV).
Hypothesis HnextNP : Page.NextPage pNP' = Page.NextPage pV.

Let NP : Z := Z.of_nat (length pgV).
Let G' : list Info := zset P (mkInfo d a (Some s)) G ++ [mkInfo d s b].
Let pQ' : Page.t := Page.set_keys (Page.place s NP (Page.keys pQ)) pQ.
Let pg' : Pager.t := zset Q pQ' (zset P pP' pgV ++ [pNP']).

Local Lemma div_len : length G = length pgV.
Proof. apply HS. Qed.

Local Lemma div_G_NP : zget G' NP = Some (mkInfo d s b).
Proof.
  unfold G', NP. rewrite zget_divide, div_len. by rewrite bool_decide_true.
Qed.

Local Lemma div_P_ne_NP : P ≠ NP.
Proof. unfold NP. apply zget_lt in HP. lia. Qed.

Local Lemma div_G_P : zget G' P = Some (mkInfo d a (Some s)).
Proof.
  unfold G'. rewrite zget_divide, div_len.
  rewrite bool_decide_false by apply div_P_ne_NP.
  rewrite bool_decide_true by done. by rewrite HGP.
Qed.

Local Lemma div_G_other r : r ≠ P → r ≠ NP → zget G' r = zget G r.
Proof.
  intros H1 H2. unfold G'. rewrite zget_divide, div_len.
  by rewrite !bool_decide_false.
Qed.

Local Lemma div_G_NP_old : zget G NP = None.
Proof. unfold NP. rewrite <- div_len. apply zget_fresh. Qed.

Local Lemma div_G_cases r i :
  zget G' r = Some i →
  (r = NP ∧ i = mkInfo d s b) ∨ (r = P ∧ i = mkInfo d a (Some s)) ∨
  (r ≠ NP ∧ r ≠ P ∧ zget G r = Some i).
Proof.
  intros H. destruct (decide (r = NP)) as [->|H1].
  - left. rewrite div_G_NP in H. by injection H as <-.
  - destruct (decide (r = P)) as [->|H2].
    + right; left. rewrite div_G_P in H. by injection H as <-.
    + right; right. by rewrite div_G_other in H.
Qed.

Local Lemma div_stable r j :
  zget G r = Some j → ∃ j', zget G' r = Some j' ∧ lvl j' = lvl j ∧ lo j' = lo j.
Proof.
  intros H. destruct (decide (r = P)) as [->|H1].
  - rewrite HGP in H. injection H as <-. eexists. split; [apply div_G_P|done].
  - exists j. rewrite div_G_other; [done|done|].
    intros ->. by rewrite div_G_NP_old in H.
Qed.

Local Lemma div_iQ :
  ∃ iQ, zget G Q = Some iQ ∧ lvl iQ = S d ∧
        chain G d (lo iQ) (Page.First pQ) (Page.keys pQ) (hi iQ).
Proof.
  destruct (sinv_info HS _ _ HQ) as [iQ HiQ]. exists iQ. split; [done|].
  destruct (sinv_internal HS _ _ _ HQ HiQ HQl) as (d' & Hd & Hch).
  destruct (chain_child _ _ _ _ _ _ _ Hch HQc) as (? & ? & Hz & _).
  rewrite HGP in Hz. injection Hz as <- <- <-. done.
Qed.

Local Lemma div_Q_ne_P : Q ≠ P.
Proof.
  destruct div_iQ as (iQ & HiQ & Hl & _). intros ->.
  rewrite HGP in HiQ. injection HiQ as <-. simpl in Hl. lia.
Qed.

Local Lemma div_Q_ne_NP : Q ≠ NP.
Proof. unfold NP. apply zget_lt in HQ. lia. Qed.

Local Lemma div_pg_Q : zget pg' Q = Some pQ'.
Proof.
  unfold pg'. apply (zget_set_eq _ _ pQ). apply zget_app_l.
  rewrite zget_set_ne by (apply not_eq_sym, div_Q_ne_P). done.
Qed.

Local Lemma div_pg_NP : zget pg' NP = Some pNP'.
Proof.
  unfold pg'. rewrite zget_set_ne by apply div_Q_ne_NP.
  unfold NP. rewrite zget_divide. by rewrite bool_decide_true.
Qed.

Local Lemma div_pg_P : zget pg' P = Some pP'.
Proof.
  unfold pg'. rewrite zget_set_ne by apply div_Q_ne_P.
  rewrite zget_divide. rewrite bool_decide_false by apply div_P_ne_NP.
  rewrite bool_decide_true by done. by rewrite HP.
Qed.

Local Lemma div_pg_other r : r ≠ Q → r ≠ P → r ≠ NP → zget pg' r = zget pgV r.
Proof.
  intros H1 H2 H3. unfold pg'. rewrite zget_set_ne by done.
  rewrite zget_divide. by rewrite !bool_decide_false.
Qed.

Local Lemma div_pg_cases r p :
  zget pg' r = Some p →
  (r = Q ∧ p = pQ') ∨ (r = NP ∧ p = pNP') ∨ (r = P ∧ p = pP') ∨
  (r ≠ Q ∧ r ≠ NP ∧ r ≠ P ∧ zget pgV r = Some p).
Proof.
  intros H. destruct (decide (r = Q)) as [->|H1].
  { left. rewrite div_pg_Q in H. by injection H as <-. }
  destruct (decide (r = NP)) as [->|H2].
  { right; left. rewrite div_pg_NP in H. by injection H as <-. }
  destruct (decide (r = P)) as [->|H3].
  { right; right; left. rewrite div_pg_P in H. by injection H as <-. }
  right; right; right. by rewrite div_pg_other in H.
Qed.

(** The children of a page below the level of [P] keep their entries. *)
Local Lemma div_frame_own p i :
  page_ok G i p → lvl i = d → page_ok G' i p.
Proof.
  intros Hok Hl. eapply page_ok_frame; [done|].
  intros r Hleaf Hc. unfold page_ok in Hok.
  destruct (lvl i) as [|n] eqn:En; [destruct Hok; congruence|].
  destruct Hok as [_ Hch].
  destruct (chain_child _ _ _ _ _ _ _ Hch Hc) as (lo' & hi' & Hz & _).
  apply div_G_other.
  - intros ->. rewrite HGP in Hz. injection Hz as E. lia.
  - intros ->. by rewrite div_G_NP_old in Hz.
Qed.

Local Lemma div_in_P k : in_range (mkInfo d a (Some s)) k → in_range (mkInfo d a b) k.
Proof.
  intros [H1 H2]. simpl in *. split; [done|]. simpl. by eapply lt_hi_lt.
Qed.

Local Lemma div_in_NP k : in_range (mkInfo d s b) k → in_range (mkInfo d a b) k.
Proof.
  intros [H1 H2]. simpl in *. split; [|done]. simpl. korder.
Qed.

Lemma divide_SInv : SInv pg' root G' ∧ s ∉ Key.Get <$> Page.keys pQ.
Proof.
  destruct div_iQ as (iQ & HiQ & HlQ & HchQ).
  destruct (chain_insert G G' d P NP a b s HGP Has Hsb div_G_P div_G_NP
              div_G_other div_G_NP_old _ _ _ _ HchQ HQc) as [HchQ' Hfresh].
  split; [|done].
  destruct (s_root _ _ _ HS) as (h & Hroot & Hbound & Hh).
  assert (HdP : (d < S h)%nat).
  { specialize (Hbound _ _ HiQ). lia. }
  assert (HrootP : root ≠ P).
  { intros ->. rewrite HGP in Hroot. injection Hroot as E. lia. }
  split.
  - unfold G', pg'. rewrite !zset_length, !length_app, !zset_length. simpl.
    rewrite div_len. lia.
  - exists h. split; [|split].
    + rewrite div_G_other; [done|done|].
      intros E. rewrite E in Hroot. by rewrite div_G_NP_old in Hroot.
    + intros r i Hi. destruct (div_G_cases _ _ Hi) as [[-> ->]|[[-> ->]|(_ & _ & Hi')]];
        simpl; try lia. by apply (Hbound r).
    + unfold pg'. rewrite zset_length, length_app, zset_length. simpl. lia.
  - intros r p i Hp Hi.
    destruct (div_pg_cases _ _ Hp) as [[-> ->]|[[-> ->]|[[-> ->]|(H1 & H2 & H3 & Hp')]]].
    + (* the parent *)
      rewrite div_G_other in Hi by (apply div_Q_ne_P || apply div_Q_ne_NP).
      rewrite HiQ in Hi. injection Hi as <-.
      destruct (s_page _ _ _ HS _ _ _ HQ HiQ) as [_ Hlk].
      split.
      * unfold page_ok. rewrite HlQ. split; [done|]. exact HchQ'.
      * eapply link_ok_stable; [exact Hlk|]. apply div_stable.
    + (* the new page *)
      rewrite div_G_NP in Hi. injection Hi as <-.
      split; [by apply div_frame_own|].
      destruct (s_page _ _ _ HS _ _ _ HP HGP) as [_ Hlk].
      eapply link_ok_stable; [|apply div_stable].
      eapply link_ok_ext; [| | |exact Hlk]; done.
    + (* the divided page *)
      rewrite div_G_P in Hi. injection Hi as <-.
      split; [by apply div_frame_own|].
      unfold link_ok. simpl. exists (mkInfo d s b). rewrite HnextP.
      split; [apply div_G_NP|done].
    + (* the other pages *)
      rewrite div_G_other in Hi by done.
      destruct (s_page _ _ _ HS _ _ _ Hp' Hi) as [Hok Hlk].
      split; [|eapply link_ok_stable; [exact Hlk|apply div_stable]].
      eapply page_ok_frame; [exact Hok|].
      intros c Hleaf Hc. apply div_G_other.
      * intros ->. apply H1. eapply (parent_unique HS); eauto.
      * intros ->. destruct (sinv_child HS _ _ _ _ Hp' Hi Hleaf Hc) as (ic & Hz & _).
        by rewrite div_G_NP_old in Hz.
  - intros r r' i i' k Hi Hi' Hl Hk Hk'.
    destruct (div_G_cases _ _ Hi) as [[-> ->]|[[-> ->]|(Hn1 & Hn2 & Hi0)]];
    destruct (div_G_cases _ _ Hi') as [[-> ->]|[[-> ->]|(Hn1' & Hn2' & Hi0')]];
      try done.
    + destruct Hk, Hk'. simpl in *. korder.
    + apply div_in_NP in Hk. exfalso. apply Hn2'. symmetry.
      eapply (s_inj _ _ _ HS P r'); eauto.
    + destruct Hk, Hk'. simpl in *. korder.
    + apply div_in_P in Hk. exfalso. apply Hn2'. symmetry.
      eapply (s_inj _ _ _ HS P r'); eauto.
    + apply div_in_NP in Hk'. exfalso. apply Hn2.
      eapply (s_inj _ _ _ HS r P); eauto.
    + apply div_in_P in Hk'. exfalso. apply Hn2.
      eapply (s_inj _ _ _ HS r P); eauto.
    + eapply (s_inj _ _ _ HS r r'); eauto.
Qed.

(** The records and the count of the leaves after the division. *)
Hypothesis HleafP : Page.IsLeaf pP' = Page.IsLeaf pV.
Hypothesis HleafNP : Page.IsLeaf pNP' = Page.IsLeaf pV.
Hypothesis Hperm :
  Page.IsLeaf pV = true → Page.keys pP' ++ Page.keys pNP' ≡ₚ Page.keys pV.
Hypothesis Hsub : ∀ x, x ∈ Page.keys pP' ∨ x ∈ Page.keys pNP' → x ∈ Page.keys pV.
Hypothesis Hsep : ∃ x, x ∈ Page.keys pV ∧ Key.Get x = s.

Lemma divide_lookup r :
  r ≠ Q → r ≠ P → r ≠ Z.of_nat (length pgV) → zget pg' r = zget pgV r.
Proof. apply div_pg_other. Qed.

Lemma divide_leafrec x : leafrec pg' x ↔ leafrec pgV x.
Proof.
  split.
  - intros (r & p & Hp & Hl & Hx).
    destruct (div_pg_cases _ _ Hp) as [[-> ->]|[[-> ->]|[[-> ->]|(H1 & H2 & H3 & Hp')]]].
    + simpl in Hl. congruence.
    + apply (leafrec_intro _ P pV); [done|congruence|]. apply Hsub. by right.
    + apply (leafrec_intro _ P pV); [done|congruence|]. apply Hsub. by left.
    + by apply (leafrec_intro _ r p).
  - intros (r & p & Hp & Hl & Hx).
    destruct (decide (r = P)) as [->|HnP].
    + rewrite HP in Hp. injection Hp as <-.
      rewrite <- (Hperm Hl) in Hx. apply elem_of_app in Hx as [Hx|Hx].
      * apply (leafrec_intro _ P pP'); [apply div_pg_P|congruence|done].
      * apply (leafrec_intro _ NP pNP'); [apply div_pg_NP|congruence|done].
    + apply (leafrec_intro _ r p); [|done|done].
      rewrite div_pg_other; [done| |done|].
      * intros ->. congruence.
      * intros ->. apply zget_lt in Hp. unfold NP in Hp. lia.
Qed.

Lemma divide_leaf_count : leaf_count pg' = leaf_count pgV.
Proof.
  assert (HQ1 : zget (zset P pP' pgV ++ [pNP']) Q = Some pQ).
  { apply zget_app_l. rewrite zget_set_ne by (apply not_eq_sym, div_Q_ne_P). done. }
  pose proof (leaf_count_zset _ _ _ pQ' HQ1) as E1.
  rewrite leaf_count_snoc in E1.
  pose proof (leaf_count_zset _ _ _ pP' HP) as E2.
  assert (leaf_len pQ = O ∧ leaf_len pQ' = O) as [E3 E4].
  { unfold leaf_len, pQ'. simpl. by rewrite HQl. }
  assert (leaf_len pP' + leaf_len pNP' = leaf_len pV)%nat as E5.
  { unfold leaf_len. rewrite HleafP, HleafNP. destruct (Page.IsLeaf pV) eqn:E; [|done].
    rewrite <- (Hperm eq_refl). by rewrite length_app. }
  unfold pg'. lia.
Qed.

Lemma divide_Prov : Prov pgV → Prov pg'.
Proof.
  intros HProv.
  assert (Hs' : ∃ y, leafrec pgV y ∧ Key.Get y = s).
  { destruct Hsep as (x0 & Hx0 & <-). destruct (Page.IsLeaf pV) eqn:E.
    - exists x0. split; [|done]. by apply (leafrec_intro _ P pV).
    - by apply (HProv P pV). }
  intros r p x Hp Hl Hx.
  assert (∃ y, leafrec pgV y ∧ Key.Get y = Key.Get x) as (y & Hy & E).
  { destruct (div_pg_cases _ _ Hp) as [[-> ->]|[[-> ->]|[[-> ->]|(H1 & H2 & H3 & Hp')]]].
    - simpl in Hx. destruct divide_SInv as [_ Hfresh].
      apply (place_elem _ _ _ _ Hfresh) in Hx as [->|Hx]; [exact Hs'|by apply (HProv Q pQ)].
    - apply (HProv P pV); [done|congruence|]. apply Hsub. by right.
    - apply (HProv P pV); [done|congruence|]. apply Hsub. by left.
    - by apply (HProv r p). }
  exists y. split; [|done]. by apply divide_leafrec.
Qed.

End Divide.

(** Replacing one page by a page that fits the same entry. *)
Lemma SInv_update pg root G r p p' i :
  SInv pg root G → zget pg r = Some p → zget G r = Some i →
  page_ok G i p' → link_ok G i p' → SInv (zset r p' pg) root G.
Proof.
  intros HS Hp Hi Hok Hlk. split.
  - rewrite zset_length. apply HS.
  - destruct (s_root _ _ _ HS) as (h & ? & ? & ?). exists h.
    rewrite zset_length. done.
  - intros r' q j Hq Hj. rewrite zget_set in Hq. case_bool_decide as E.
    + subst r'. rewrite Hp in Hq. injection Hq as <-.
      rewrite Hi in Hj. by injection Hj as <-.
    + by apply (s_page _ _ _ HS r').
  - apply HS.
Qed.

(** A new root above the old one. *)
Lemma promote_SInv pg root G h :
  SInv pg root G → zget G root = Some (mkInfo (S h) [] None) →
  SInv (pg ++ [Page.mk false (-1) root []]) (Z.of_nat (length pg))
       (G ++ [mkInfo (S (S h)) [] None]).
Proof.
  intros HS Hroot.
  assert (Hlen : length G = length pg) by apply HS.
  destruct (s_root _ _ _ HS) as (h' & Hroot' & Hbound & Hh).
  rewrite Hroot in Hroot'. injection Hroot' as <-.
  assert (Hold : ∀ r j, zget G r = Some j → zget (G ++ [mkInfo (S (S h)) [] None]) r = Some j).
  { intros r j Hj. by apply zget_app_l. }
  assert (Hcases : ∀ r j, zget (G ++ [mkInfo (S (S h)) [] None]) r = Some j →
            (r = Z.of_nat (length pg) ∧ j = mkInfo (S (S h)) [] None) ∨
            (r ≠ Z.of_nat (length pg) ∧ zget G r = Some j)).
  { intros r j. rewrite zget_snoc, Hlen. case_bool_decide; [|by right].
    intros [= <-]. by left. }
  split.
  - rewrite !length_app. simpl. lia.
  - exists (S h). split; [|split].
    + rewrite zget_snoc, Hlen. by rewrite bool_decide_true.
    + intros r j Hj. destruct (Hcases _ _ Hj) as [[-> ->]|[_ Hj']]; simpl; [lia|].
      specialize (Hbound _ _ Hj'). lia.
    + rewrite length_app. simpl. lia.
  - intros r p j Hp Hj. destruct (Hcases _ _ Hj) as [[-> ->]|[Hne Hj']].
    + rewrite zget_snoc, bool_decide_true in Hp by done. injection Hp as <-.
      split; [|done]. unfold page_ok. simpl. split; [done|]. split; [|done].
      by apply Hold.
    + rewrite zget_snoc, bool_decide_false in Hp by done.
      destruct (s_page _ _ _ HS _ _ _ Hp Hj') as [Hok Hlk]. split.
      * eapply page_ok_frame; [exact Hok|]. intros c Hleaf Hc.
        destruct (sinv_child HS _ _ _ _ Hp Hj' Hleaf Hc) as (ic & Hz & _).
        rewrite Hz. by apply Hold.
      * eapply link_ok_stable; [exact Hlk|]. intros c j0 Hj0. exists j0. split; [by apply Hold|done].
  - intros r r' i i' k Hi Hi' Hl Hk Hk'.
    destruct (Hcases _ _ Hi) as [[-> ->]|[Hne Hj]];
    destruct (Hcases _ _ Hi') as [[-> ->]|[Hne' Hj']]; try done.
    + specialize (Hbound _ _ Hj'). simpl in Hl. lia.
    + specialize (Hbound _ _ Hj). simpl in Hl. lia.
    + eapply (s_inj _ _ _ HS r r'); eauto.
Qed.

(** ** Running the stateful code *)

Lemma bind_Ok {A B} (m : Btree.M A) (k : A → Btree.M B) b a b' :
  m b = Ok (a, b') → Btree.bind m k b = k a b'.
Proof. unfold Btree.bind. by intros ->. Qed.

Lemma pagerGet_Ok b r p :
  zget (Btree.pager b) r = Some p → Btree.pagerGet r b = Ok (p, b).
Proof.
  intros H. unfold Btree.pagerGet, Btree.lift, Pager.Get, at_index. by rewrite H.
Qed.

Lemma call_Ok {A} b r (f : Page.t → A * Page.t) p :
  zget (Btree.pager b) r = Some p →
  Btree.call r f b =
  Ok ((f p).1, Btree.set_pager (zset r (f p).2 (Btree.pager b)) b).
Proof.
  intros H. unfold Btree.call. rewrite (bind_Ok _ _ _ _ _ (pagerGet_Ok _ _ _ H)).
  by destruct (f p).
Qed.

Lemma read_Ok {A} b r (f : Page.t → A) p :
  zget (Btree.pager b) r = Some p → Btree.read r f b = Ok (f p, b).
Proof.
  intros H. unfold Btree.read. by rewrite (bind_Ok _ _ _ _ _ (pagerGet_Ok _ _ _ H)).
Qed.

Lemma last_index_1 pre (P : Z) b :
  Btree.last_index (pre ++ [P]) 1 b = Ok (P, b).
Proof.
  unfold Btree.last_index, Btree.lift, at_index.
  replace (Z.of_nat (length (pre ++ [P])) - 1) with (Z.of_nat (length pre))
    by (rewrite length_app; simpl; lia).
  by rewrite zget_snoc, bool_decide_true.
Qed.

Lemma last_index_2 pre (Q P : Z) b :
  Btree.last_index (pre ++ [Q; P]) 2 b = Ok (Q, b).
Proof.
  unfold Btree.last_index, Btree.lift, at_index.
  replace (Z.of_nat (length (pre ++ [Q; P])) - 2) with (Z.of_nat (length pre))
    by (rewrite length_app; simpl; lia).
  replace (pre ++ [Q; P]) with ((pre ++ [Q]) ++ [P]) by (by rewrite <- app_assoc).
  rewrite zget_snoc. rewrite bool_decide_false by (rewrite length_app; simpl; lia).
  by rewrite zget_snoc, bool_decide_true.
Qed.

Lemma zget_ext {A} (l l' : list A) : (∀ r, zget l r = zget l' r) → l = l'.
Proof.
  intros H. apply list_eq. intros i. specialize (H (Z.of_nat i)).
  unfold zget in H. destruct (Z.ltb_spec (Z.of_nat i) 0); [lia|].
  by rewrite Nat2Z.id in H.
Qed.

Ltac zget_norm :=
  repeat first
    [ rewrite zget_set
    | rewrite zget_snoc
    | rewrite zset_length
    | rewrite length_app ];
  simpl length.

(** Lookups in a store after some updates: the cases of the reference. *)
Ltac zlook :=
  zget_norm; repeat case_bool_decide; subst; try lia; try congruence;
  repeat match goal with
  | H : zget ?l ?r = Some _ |- context [zget ?l ?r] => rewrite H
  end; simpl; try done.

Lemma split_step_run N key ref pre Q P b pP pQ :
  zget (Btree.pager b) P = Some pP → zget (Btree.pager b) Q = Some pQ → P ≠ Q →
  Btree.split_step N key ref (pre ++ [Q; P]) b =
  Ok ((split_pages N key ref (Z.of_nat (length (Btree.pager b))) pP).1.1,
      Z.of_nat (length (Btree.pager b)), Q,
      (Page.Insert N (split_pages N key ref (Z.of_nat (length (Btree.pager b))) pP).1.1
         (Z.of_nat (length (Btree.pager b))) pQ).1,
      Btree.set_pager
        (zset Q (Page.Insert N (split_pages N key ref (Z.of_nat (length (Btree.pager b))) pP).1.1
                   (Z.of_nat (length (Btree.pager b))) pQ).2
           (zset P (split_pages N key ref (Z.of_nat (length (Btree.pager b))) pP).1.2
              (Btree.pager b) ++
            [(split_pages N key ref (Z.of_nat (length (Btree.pager b))) pP).2])) b).
Proof.
  intros HP HQ Hne.
  pose proof (zget_lt _ _ _ HP) as HPlt. pose proof (zget_lt _ _ _ HQ) as HQlt.
  unfold Btree.split_step.
  replace (pre ++ [Q; P]) with ((pre ++ [Q]) ++ [P]) at 1 by (by rewrite <- app_assoc).
  rewrite (bind_Ok _ _ _ _ _ (last_index_1 _ _ _)).
  rewrite (bind_Ok _ _ _ _ _ (pagerGet_Ok b _ _ HP)).
  rewrite (bind_Ok _ _ _ _ _ (last_index_2 _ _ _ _)).
  rewrite (bind_Ok _ _ _ _ _ (pagerGet_Ok b _ _ HQ)).
  unfold Btree.bind at 1. unfold Btree.pagerNew, Pager.New.
  remember (Btree.pager b) as pg eqn:Epg.
  remember (Z.of_nat (length pg)) as NP eqn:ENP.
  remember (Page.mk (Page.IsLeaf pP) (-1) (-1) []) as fresh eqn:Efresh.
  assert (H1 : zget (pg ++ [fresh]) P = Some pP) by (by apply zget_app_l).
  assert (H2 : zget (pg ++ [fresh]) NP = Some fresh).
  { subst NP. by rewrite zget_snoc, bool_decide_true. }
  assert (H3 : zget (pg ++ [fresh]) Q = Some pQ) by (by apply zget_app_l).
  (* Split *)
  unfold Btree.bind at 1. unfold Btree.Split_at.
  rewrite (bind_Ok _ _ (Btree.set_pager (pg ++ [fresh]) b) pP _) by (by apply pagerGet_Ok).
  rewrite (bind_Ok _ _ (Btree.set_pager (pg ++ [fresh]) b) fresh _) by (by apply pagerGet_Ok).
  unfold split_pages. rewrite <- Efresh.
  destruct (Page.Split N NP fresh pP) as [[s p1] np1] eqn:Esplit.
  erewrite bind_Ok; [|by apply (call_Ok _ _ _ pP)]. simpl.
  erewrite bind_Ok; [|apply (call_Ok _ _ _ fresh); simpl; zlook]. simpl.
  unfold Btree.ret at 1.
  (* sibling links *)
  erewrite bind_Ok; [|apply (read_Ok _ _ _ p1); simpl; zlook].
  erewrite bind_Ok; [|apply (call_Ok _ _ _ np1); simpl; zlook]. simpl.
  erewrite bind_Ok; [|apply (call_Ok _ _ _ p1); simpl; zlook]. simpl.
  remember (Page.SetNextPage (Page.NextPage p1) np1) as np2.
  remember (Page.SetNextPage NP p1) as p2.
  remember (zset P p2 (zset NP np2 (zset NP np1 (zset P p1 (pg ++ [fresh]))))) as pg5.
  assert (H5P : zget pg5 P = Some p2) by (subst pg5; zlook).
  assert (H5NP : zget pg5 NP = Some np2) by (subst pg5; zlook).
  assert (H5Q : ∀ x, zget (zset P x pg5) Q = Some pQ ∧ zget (zset NP x pg5) Q = Some pQ).
  { intros x. subst pg5. split; zlook. }
  destruct (keyLess key s).
  - erewrite bind_Ok; [|by apply (call_Ok _ _ _ p2)]. simpl.
    erewrite bind_Ok; [|apply (call_Ok _ _ _ pQ); simpl; apply H5Q]. simpl.
    unfold Btree.ret, Btree.set_pager. simpl. do 3 f_equal.
    apply zget_ext. intros r. subst pg5. zlook.
  - erewrite bind_Ok; [|by apply (call_Ok _ _ _ np2)]. simpl.
    erewrite bind_Ok; [|apply (call_Ok _ _ _ pQ); simpl; apply H5Q]. simpl.
    unfold Btree.ret, Btree.set_pager. simpl. do 3 f_equal.
    apply zget_ext. intros r. subst pg5. zlook.
Qed.

(** ** The pages of a division *)

Lemma leaf_place_inv lo l hi k r :
  leaf_ok lo (Page.place k r l) hi → k ∉ Key.Get <$> l → leaf_ok lo l hi.
Proof.
  destruct l as [|x l]; simpl; [done|]. intros Hs Hk.
  apply not_elem_of_cons in Hk as [Hk1 Hk2].
  destruct (keyLess_cases (Key.Get x) k) as [E|E]; rewrite E in Hs; simpl in Hs.
  - destruct Hs as [? Hs]. split; [done|]. by eapply place_sorted_inv.
  - destruct (keyLess_cases k (Key.Get x)) as [E'|E']; rewrite E' in Hs; simpl in Hs.
    + destruct Hs as (? & ? & ?). split; [korder|done].
    + exfalso. apply Hk1. korder.
Qed.

Lemma place_split_ge' k r l1 x l2 :
  (∀ y, y ∈ l1 → klt (Key.Get y) (Key.Get x)) → klt (Key.Get x) k →
  Page.place k r (l1 ++ x :: l2) = l1 ++ x :: Page.place k r l2.
Proof.
  intros Hs E. rewrite place_app_r.
  - by rewrite place_cons_gt.
  - intros y Hy. specialize (Hs y Hy). korder.
Qed.

Lemma place_split_lt' k r l1 x l2 :
  klt k (Key.Get x) →
  Page.place k r (l1 ++ x :: l2) = Page.place k r l1 ++ x :: l2.
Proof. intros E. apply place_app_l. by intros y [= <-]. Qed.

Lemma in_take {A} (x : A) n l : x ∈ take n l → x ∈ l.
Proof. intros H. rewrite <- (take_drop n l). apply elem_of_app. by left. Qed.

Lemma in_drop {A} (x : A) n l : x ∈ drop n l → x ∈ l.
Proof. intros H. rewrite <- (take_drop n l). apply elem_of_app. by right. Qed.

Lemma place_not_nil k r l : Page.place k r l ≠ [].
Proof.
  destruct l as [|x l]; simpl; [done|].
  destruct (keyLess (Key.Get x) k); [done|]. by destruct (keyLess k (Key.Get x)).
Qed.

Lemma insert_room N k r p :
  Page.Size p < Z.of_nat N →
  Page.Insert N k r p = (true, Page.set_keys (Page.place k r (Page.keys p)) p).
Proof.
  intros H. unfold Page.Insert.
  destruct (Z.leb_spec (Z.of_nat N) (Page.Size p)); [lia|done].
Qed.

Lemma insert_full N k r p :
  Z.of_nat N ≤ Page.Size p → Page.Insert N k r p = (false, p).
Proof.
  intros H. unfold Page.Insert.
  destruct (Z.leb_spec (Z.of_nat N) (Page.Size p)); [done|lia].
Qed.

Lemma split_pages_leaf N key ref NP pP lo hi :
  (2 ≤ N)%nat → Page.IsLeaf pP = true → length (Page.keys pP) = N →
  key ∉ Key.Get <$> Page.keys pP →
  leaf_ok lo (Page.place key ref (Page.keys pP)) hi →
  ∃ L1 x L2,
    Page.place key ref (Page.keys pP) = L1 ++ x :: L2 ∧ L1 ≠ [] ∧
    split_pages N key ref NP pP =
      (Key.Get x, Page.mk true NP (Page.First pP) L1,
       Page.mk true (Page.NextPage pP) (-1) (x :: L2)) ∧
    (length L1 ≤ N)%nat ∧ (length (x :: L2) ≤ N)%nat.
Proof.
  intros HN Hleaf Hlen Hfresh Hok.
  pose (half := (N / 2)%nat).
  assert (Hhalf : (1 ≤ half ∧ half < N)%nat).
  { unfold half. split; [apply Nat.div_le_lower_bound; lia|apply Nat.div_lt; lia]. }
  destruct (lookup_lt_is_Some_2 (Page.keys pP) half) as [x Hx]; [lia|].
  pose proof (take_drop_middle _ _ _ Hx) as Hdec.
  pose proof (leaf_place_inv _ _ _ _ _ Hok Hfresh) as Hreal.
  assert (Hlt : ∀ y, y ∈ take half (Page.keys pP) → klt (Key.Get y) (Key.Get x)).
  { intros y Hy. rewrite <- Hdec in Hreal. apply leaf_ok_app in Hreal as (H1 & _ & _).
    destruct (leaf_ok_elem _ _ _ _ H1 Hy) as [_ ?]. done. }
  assert (Hdrop : drop half (Page.keys pP) = x :: drop (S half) (Page.keys pP)).
  { by apply drop_S. }
  assert (Hxin : Key.Get x ∈ Key.Get <$> Page.keys pP).
  { apply list_elem_of_fmap. exists x. split; [done|]. by eapply list_elem_of_lookup_2. }
  assert (Htake : length (take half (Page.keys pP)) = half).
  { rewrite length_take. lia. }
  assert (Hdroplen : length (drop (S half) (Page.keys pP)) = (N - S half)%nat).
  { rewrite length_drop. lia. }
  unfold split_pages, Page.Split. rewrite Hleaf. fold half. rewrite Hdrop. simpl.
  destruct (keyLess_cases key (Key.Get x)) as [E|E]; rewrite E.
  - exists (Page.place key ref (take half (Page.keys pP))), x, (drop (S half) (Page.keys pP)).
    split; [|split; [apply place_not_nil|split; [|split]]].
    + rewrite <- Hdec at 1. by apply place_split_lt'.
    + rewrite insert_room.
      * unfold Page.set_keys, Page.SetNextPage, Page.SetFirst. simpl. rewrite ?Hleaf. done.
      * unfold Page.Size, Page.set_keys, Page.SetNextPage, Page.SetFirst. simpl. rewrite ?Hleaf, Htake. lia.
    + rewrite place_length; [rewrite Htake; lia|].
      intros Hin. apply Hfresh. apply list_elem_of_fmap in Hin as (y & -> & Hy).
      apply list_elem_of_fmap. exists y. split; [done|]. by eapply in_take.
    + simpl. rewrite Hdroplen. lia.
  - assert (klt (Key.Get x) key) as E'.
    { assert (key ≠ Key.Get x) by (intros ->; done). korder. }
    exists (take half (Page.keys pP)), x, (Page.place key ref (drop (S half) (Page.keys pP))).
    split; [|split; [|split; [|split]]].
    + rewrite <- Hdec at 1. by apply place_split_ge'.
    + intros E0. rewrite E0 in Htake. simpl in Htake. lia.
    + rewrite insert_room.
      * unfold Page.set_keys, Page.SetNextPage, Page.SetFirst. simpl. rewrite ?Hleaf. unfold klt in E'. rewrite ?E'. done.
      * unfold Page.Size, Page.set_keys, Page.SetNextPage, Page.SetFirst. simpl. rewrite Hdroplen. lia.
    + rewrite Htake. lia.
    + simpl. rewrite place_length; [rewrite Hdroplen; lia|].
      intros Hin. apply Hfresh. apply list_elem_of_fmap in Hin as (y & -> & Hy).
      apply list_elem_of_fmap. exists y. split; [done|]. by eapply in_drop.
Qed.

Lemma split_pages_internal N key ref NP pP lo hi :
  (2 ≤ N)%nat → Page.IsLeaf pP = false → S (length (Page.keys pP)) = N →
  key ∉ Key.Get <$> Page.keys pP →
  sorted_from lo (Page.place key ref (Page.keys pP)) hi →
  ∃ L1 x L2,
    Page.place key ref (Page.keys pP) = L1 ++ x :: L2 ∧
    split_pages N key ref NP pP =
      (Key.Get x, Page.mk false NP (Page.First pP) L1,
       Page.mk false (Page.NextPage pP) (Key.Ref x) L2) ∧
    (S (length L1) ≤ N)%nat ∧ (S (length L2) ≤ N)%nat.
Proof.
  intros HN Hleaf Hlen Hfresh Hok.
  pose (half := (N / 2)%nat).
  assert (Hhalf : (1 ≤ half ∧ half < N)%nat).
  { unfold half. split; [apply Nat.div_le_lower_bound; lia|apply Nat.div_lt; lia]. }
  pose (h := (half - 1)%nat).
  destruct (lookup_lt_is_Some_2 (Page.keys pP) h) as [x Hx]; [unfold h; lia|].
  pose proof (take_drop_middle _ _ _ Hx) as Hdec.
  pose proof (place_sorted_inv _ _ _ _ _ Hok Hfresh) as Hreal.
  assert (Hlt : ∀ y, y ∈ take h (Page.keys pP) → klt (Key.Get y) (Key.Get x)).
  { intros y Hy. rewrite <- Hdec in Hreal. apply sorted_from_app in Hreal as (H1 & _).
    destruct (sorted_from_elem _ _ _ _ H1 Hy) as [_ ?]. done. }
  assert (Hdrop : drop h (Page.keys pP) = x :: drop (S h) (Page.keys pP)).
  { by apply drop_S. }
  assert (Hxin : Key.Get x ∈ Key.Get <$> Page.keys pP).
  { apply list_elem_of_fmap. exists x. split; [done|]. by eapply list_elem_of_lookup_2. }
  assert (Htake : length (take h (Page.keys pP)) = h).
  { rewrite length_take. unfold h. lia. }
  assert (Hdroplen : length (drop (S h) (Page.keys pP)) = (N - 1 - S h)%nat).
  { rewrite length_drop. lia. }
  unfold split_pages, Page.Split. rewrite Hleaf. fold half. fold h. rewrite Hdrop. simpl.
  destruct (keyLess_cases key (Key.Get x)) as [E|E]; rewrite E.
  - exists (Page.place key ref (take h (Page.keys pP))), x, (drop (S h) (Page.keys pP)).
    split; [|split; [|split]].
    + rewrite <- Hdec at 1. by apply place_split_lt'.
    + rewrite insert_room.
      * unfold Page.set_keys, Page.SetNextPage, Page.SetFirst. simpl. rewrite ?Hleaf. done.
      * unfold Page.Size, Page.set_keys, Page.SetNextPage, Page.SetFirst. simpl. rewrite ?Hleaf, Htake. unfold h. lia.
    + rewrite place_length; [rewrite Htake; unfold h; lia|].
      intros Hin. apply Hfresh. apply list_elem_of_fmap in Hin as (y & -> & Hy).
      apply list_elem_of_fmap. exists y. split; [done|]. by eapply in_take.
    + rewrite Hdroplen. unfold h. lia.
  - assert (klt (Key.Get x) key) as E'.
    { assert (key ≠ Key.Get x) by (intros ->; done). korder. }
    exists (take h (Page.keys pP)), x, (Page.place key ref (drop (S h) (Page.keys pP))).
    split; [|split; [|split]].
    + rewrite <- Hdec at 1. by apply place_split_ge'.
    + rewrite insert_room.
      * unfold Page.set_keys, Page.SetNextPage, Page.SetFirst. simpl. rewrite ?Hleaf. done.
      * unfold Page.Size, Page.set_keys, Page.SetNextPage, Page.SetFirst. simpl. rewrite Hdroplen. unfold h. lia.
    + rewrite Htake. unfold h. lia.
    + rewrite place_length; [rewrite Hdroplen; unfold h; lia|].
      intros Hin. apply Hfresh. apply list_elem_of_fmap in Hin as (y & -> & Hy).
      apply list_elem_of_fmap. exists y. split; [done|]. by eapply in_drop.
Qed.

(** ** One step of [split] *)

Lemma zset_zset {A} (l : list A) r x y : zset r y (zset r x l) = zset r y l.
Proof.
  unfold zset. destruct (r <? 0); [done|]. apply list_insert_insert_eq.
Qed.

Lemma zset_id {A} (l : list A) r x : zget l r = Some x → zset r x l = l.
Proof.
  intros H. apply zget_Some in H as [? H]. unfold zset.
  destruct (Z.ltb_spec r 0); [lia|]. by apply list_insert_id.
Qed.

Lemma links_app_inv pg pre (Q P : Z) :
  links pg (pre ++ [Q; P]) →
  ∃ pq, zget pg Q = Some pq ∧ Page.IsLeaf pq = false ∧
        child (Page.First pq) (Page.keys pq) P.
Proof.
  intros Hl. apply (Hl (length pre)).
  - by rewrite lookup_app_r, Nat.sub_diag.
  - rewrite lookup_app_r by lia. by replace (S (length pre) - length pre)%nat with 1%nat by lia.
Qed.

Lemma links_shorten pg pg' pre (Q P : Z) :
  links pg (pre ++ [Q; P]) →
  (∀ r, r ∈ pre → zget pg' r = zget pg r) →
  links pg' (pre ++ [Q]).
Proof.
  intros Hl Hsame n q p Hq Hp.
  assert (n < length pre)%nat as Hn.
  { apply lookup_lt_Some in Hp. rewrite length_app in Hp. simpl in Hp. lia. }
  destruct (Hl n q p) as (pq & Hpq & ? & ?).
  - rewrite lookup_app_l by done. by rewrite lookup_app_l in Hq.
  - replace (pre ++ [Q; P]) with ((pre ++ [Q]) ++ [P]) by (by rewrite <- app_assoc).
    apply lookup_app_l_Some. done.
  - exists pq. split; [|done]. rewrite Hsame; [done|].
    rewrite lookup_app_l in Hq by done. by eapply list_elem_of_lookup_2.
Qed.

Section Step.
Context (N : nat) (b : Btree.t) (G : list Info) (key : bytes) (ref : Z).
Context (pre : list Z) (Q P : Z) (pP : Page.t).
Hypothesis HN : (2 ≤ N)%nat.
Hypothesis HP : zget (Btree.pager b) P = Some pP.
Hypothesis Hfull : Page.Size pP = Z.of_nat N.
Hypothesis Hfresh : key ∉ Key.Get <$> Page.keys pP.

Let pV : Page.t := Page.set_keys (Page.place key ref (Page.keys pP)) pP.
Let pgV : Pager.t := zset P pV (Btree.pager b).
Let NP : Z := Z.of_nat (length (Btree.pager b)).

Hypothesis HS : SInv pgV (Btree.root b) G.
Hypothesis Hlinks : links pgV (pre ++ [Q; P]).
Hypothesis Hhead : (pre ++ [Q; P]) !! O = Some (Btree.root b).
Hypothesis Hcap : CapInv N (Btree.pager b).

Local Lemma step_pgV_P : zget pgV P = Some pV.
Proof. unfold pgV. by eapply zget_set_eq. Qed.

Local Lemma step_pgV_len : length pgV = length (Btree.pager b).
Proof. unfold pgV. apply zset_length. Qed.

Local Lemma step_Q_ne_P : Q ≠ P.
Proof.
  intros E. destruct (s_root _ _ _ HS) as (h & Hroot & _).
  assert (length pre = S (length pre)); [|lia].
  eapply (links_inj HS _ _ _ _ _ P Hlinks Hhead Hroot).
  - rewrite lookup_app_r by lia. rewrite Nat.sub_diag. simpl. by rewrite E.
  - rewrite lookup_app_r by lia.
    by replace (S (length pre) - length pre)%nat with 1%nat by lia.
Qed.

Local Lemma step_pQ :
  ∃ pQ, zget (Btree.pager b) Q = Some pQ ∧ zget pgV Q = Some pQ ∧
        Page.IsLeaf pQ = false ∧ child (Page.First pQ) (Page.keys pQ) P.
Proof.
  destruct (links_app_inv _ _ _ _ Hlinks) as (pQ & HQ & Hl & Hc).
  exists pQ. repeat split; try done.
  unfold pgV in HQ. rewrite zget_set_ne in HQ; [done|].
  apply not_eq_sym, step_Q_ne_P.
Qed.

(** The divided pages fit the two halves of the interval. *)
Local Lemma step_pages :
  ∃ d a c s pP' pNP',
    zget G P = Some (mkInfo d a c) ∧
    split_pages N key ref NP pP = (s, pP', pNP') ∧
    klt a s ∧ lt_hi s c ∧
    page_ok G (mkInfo d a (Some s)) pP' ∧ page_ok G (mkInfo d s c) pNP' ∧
    Page.NextPage pP' = NP ∧ Page.NextPage pNP' = Page.NextPage pV ∧
    Page.IsLeaf pP' = Page.IsLeaf pV ∧ Page.IsLeaf pNP' = Page.IsLeaf pV ∧
    (Page.IsLeaf pV = true → Page.keys pP' ++ Page.keys pNP' ≡ₚ Page.keys pV) ∧
    (∀ x, x ∈ Page.keys pP' ∨ x ∈ Page.keys pNP' → x ∈ Page.keys pV) ∧
    (∃ x, x ∈ Page.keys pV ∧ Key.Get x = s) ∧
    Page.Size pP' ≤ Z.of_nat N ∧ Page.Size pNP' ≤ Z.of_nat N.
Proof.
  destruct (sinv_info HS _ _ step_pgV_P) as [[d a c] Hi].
  exists d, a, c.
  destruct (Page.IsLeaf pP) eqn:Hleaf.
  - destruct (sinv_leaf HS _ _ _ step_pgV_P Hi Hleaf) as (Hd & Hok & Hne).
    simpl in Hd, Hok, Hne. subst d.
    destruct (split_pages_leaf N key ref NP pP a c HN Hleaf) as
      (L1 & x & L2 & HV & HL1 & Hsp & Hl1 & Hl2); [|done|done|].
    { unfold Page.Size in Hfull. rewrite Hleaf in Hfull. lia. }
    simpl in HV. rewrite HV in Hok.
    destruct (leaf_ok_app _ _ _ _ _ Hok) as (Hok1 & Hok2 & Hlt).
    eexists _, _, _. split; [done|]. split; [exact Hsp|].
    split; [by apply Hlt|]. split.
    { rewrite <- HV in Hok. eapply leaf_ok_elem; [exact Hok|].
      rewrite HV. apply elem_of_app. right. by left. }
    split; [by split|]. split; [by split|].
    unfold pV. simpl. rewrite Hleaf, HV.
    split_and!; try done.
    + intros y [Hy|Hy]; apply elem_of_app; [by left|by right].
    + exists x. split; [|done]. apply elem_of_app. right. by left.
    + unfold Page.Size. simpl. lia.
    + unfold Page.Size. simpl. simpl in Hl2. lia.
  - destruct (sinv_internal HS _ _ _ step_pgV_P Hi Hleaf) as (d' & Hd & Hch).
    simpl in Hd, Hch. subst d.
    destruct (split_pages_internal N key ref NP pP a c HN Hleaf) as
      (L1 & x & L2 & HV & Hsp & Hl1 & Hl2); [|done|by eapply chain_sorted|].
    { unfold Page.Size in Hfull. rewrite Hleaf in Hfull. lia. }
    rewrite HV in Hch. apply chain_app in Hch as [Hch1 Hch2].
    eexists _, _, _. split; [done|]. split; [exact Hsp|].
    split.
    { apply chain_sorted, sorted_from_lt_hi in Hch1. done. }
    split.
    { by apply chain_sorted, sorted_from_lt_hi in Hch2. }
    split; [by split|]. split; [by split|].
    unfold pV. simpl. rewrite Hleaf, HV.
    split_and!; try done.
    + intros y [Hy|Hy]; apply elem_of_app; [by left|right; by right].
    + exists x. split; [|done]. apply elem_of_app. right. by left.
    + unfold Page.Size. simpl. lia.
    + unfold Page.Size. simpl. lia.
Qed.

Lemma split_step_ok :
  ∃ pQ s pg1 G',
    zget (Btree.pager b) Q = Some pQ ∧ Page.IsLeaf pQ = false ∧
    Btree.split_step N key ref (pre ++ [Q; P]) b =
      Ok ((s, NP, Q, (Page.Insert N s NP pQ).1),
          Btree.set_pager (zset Q (Page.Insert N s NP pQ).2 pg1) b) ∧
    zget pg1 Q = Some pQ ∧ CapInv N pg1 ∧ (s ∉ Key.Get <$> Page.keys pQ) ∧
    length pg1 = S (length (Btree.pager b)) ∧
    SInv (zset Q (Page.set_keys (Page.place s NP (Page.keys pQ)) pQ) pg1) (Btree.root b) G' ∧
    links (zset Q (Page.set_keys (Page.place s NP (Page.keys pQ)) pQ) pg1) (pre ++ [Q]) ∧
    (∀ x, leafrec (zset Q (Page.set_keys (Page.place s NP (Page.keys pQ)) pQ) pg1) x ↔
          leafrec pgV x) ∧
    leaf_count (zset Q (Page.set_keys (Page.place s NP (Page.keys pQ)) pQ) pg1) =
      leaf_count pgV ∧
    (Prov pgV → Prov (zset Q (Page.set_keys (Page.place s NP (Page.keys pQ)) pQ) pg1)).
Proof.
  destruct step_pQ as (pQ & HQ & HQV & HQl & HQc).
  destruct step_pages as (d & a & c & s & pP' & pNP' & HGP & Hsp & Has & Hsc & HokP & HokNP &
                          HnP & HnNP & HlP & HlNP & Hperm & Hsub & Hsep & HszP & HszNP).
  exists pQ, s, (zset P pP' (Btree.pager b) ++ [pNP']),
    (zset P (mkInfo d a (Some s)) G ++ [mkInfo d s c]).
  assert (Hpg1 : zset P pP' (Btree.pager b) = zset P pP' pgV).
  { unfold pgV. by rewrite zset_zset. }
  assert (HNP : NP = Z.of_nat (length pgV)) by (by rewrite step_pgV_len).
  split; [done|]. split; [done|]. split.
  { rewrite (split_step_run N key ref pre Q P b pP pQ HP HQ); [|apply not_eq_sym, step_Q_ne_P].
    fold NP. by rewrite Hsp. }
  split.
  { apply zget_app_l. rewrite zget_set_ne; [done|]. apply not_eq_sym, step_Q_ne_P. }
  split.
  { intros r p. rewrite zget_snoc, zset_length. case_bool_decide.
    - by intros [= <-].
    - rewrite zget_set. case_bool_decide.
      + subst r. rewrite HP. simpl. by intros [= <-].
      + apply Hcap. }
  rewrite Hpg1, HNP.
  pose proof (divide_SInv pgV (Btree.root b) G P Q pV pQ pP' pNP' d a c s HS step_pgV_P
                HGP HQV HQl HQc Has Hsc HokP HokNP) as HD.
  rewrite <- HNP in HD. specialize (HD HnP HnNP). rewrite HNP in HD.
  destruct HD as [HS' Hfr].
  split; [done|]. split.
  { rewrite length_app, zset_length, step_pgV_len. simpl. lia. }
  split; [done|]. split.
  { eapply links_shorten; [exact Hlinks|]. intros r Hr.
    apply list_elem_of_lookup in Hr as [n Hn].
    destruct (s_root _ _ _ HS) as (h & Hroot & _).
    assert (Hpath : (pre ++ [Q; P]) !! n = Some r) by (by apply lookup_app_l_Some).
    pose proof (lookup_lt_Some _ _ _ Hn) as Hlt.
    apply divide_lookup.
    - intros ->. assert (n = length pre); [|lia].
      eapply (links_inj HS _ _ _ _ _ Q Hlinks Hhead Hroot Hpath).
      by rewrite lookup_app_r, Nat.sub_diag.
    - intros ->. assert (n = S (length pre)); [|lia].
      eapply (links_inj HS _ _ _ _ _ P Hlinks Hhead Hroot Hpath).
      rewrite lookup_app_r by lia.
      by replace (S (length pre) - length pre)%nat with 1%nat by lia.
    - intros ->.
      destruct (links_lvl HS _ _ _ Hlinks Hhead Hroot _ _ Hpath) as (i & Hi & _).
      apply zget_lt in Hi. rewrite (s_len _ _ _ HS) in Hi. lia. }
  rewrite HNP in HnP.
  split.
  { apply (divide_leafrec pgV (Btree.root b) G P Q pV pQ pP' pNP' d a c s HS step_pgV_P
             HGP HQV HQl HQc HlP HlNP Hperm Hsub). }
  split.
  { apply (divide_leaf_count pgV (Btree.root b) G P Q pV pQ pP' pNP' d a c s HS step_pgV_P
             HGP HQV HQl HQc HlP HlNP Hperm). }
  { apply (divide_Prov pgV (Btree.root b) G P Q pV pQ pP' pNP' d a c s HS step_pgV_P
             HGP HQV HQl HQc Has Hsc HokP HokNP HnP HnNP HlP HlNP Hperm Hsub Hsep). }
Qed.

End Step.

(** ** The recursion of [split] *)

Lemma zset_app_l {A} (l l' : list A) r x y :
  zget l r = Some x → zset r y (l ++ l') = zset r y l ++ l'.
Proof.
  intros H. apply zget_Some in H as [? H]. unfold zset.
  destruct (Z.ltb_spec r 0); [lia|].
  apply insert_app_l. by eapply lookup_lt_Some.
Qed.

Lemma zset_snoc_new {A} (l : list A) x y :
  zset (Z.of_nat (length l)) y (l ++ [x]) = l ++ [y].
Proof.
  unfold zset. destruct (Z.ltb_spec (Z.of_nat (length l)) 0); [lia|].
  rewrite Nat2Z.id. rewrite insert_app_r_alt by lia.
  by rewrite Nat.sub_diag.
Qed.

Lemma promote_root_run b :
  Btree.promote_root b =
  Ok (Z.of_nat (length (Btree.pager b)),
      Btree.mk (Btree.pager b ++ [Page.mk false (-1) (Btree.root b) []])
        (Btree.values b) (Z.of_nat (length (Btree.pager b))) (Btree.size b)).
Proof.
  unfold Btree.promote_root.
  unfold Btree.bind at 1. unfold Btree.gets.
  unfold Btree.bind at 1. unfold Btree.pagerNew, Pager.New.
  erewrite bind_Ok; [|apply (call_Ok _ _ _ (Page.mk false (-1) (-1) [])); simpl;
                       by rewrite zget_snoc, bool_decide_true].
  simpl. unfold Btree.bind, Btree.modify, Btree.ret, Btree.set_root, Btree.set_pager. simpl.
  by rewrite zset_snoc_new.
Qed.

Lemma split_rec_unfold N fuel key ref path b :
  Btree.split_rec N (S fuel) key ref path b =
  match Btree.split_step N key ref path b with
  | Ok ((s, NP, parent, ok), b1) =>
      if ok then Ok (tt, b1)
      else if parent =? Btree.root b1 then
        if negb (Z.of_nat (length path) =? 2) then Panic Btree.insane
        else match Btree.promote_root b1 with
             | Ok (NR, b2) => Btree.split_rec N fuel s NP [NR; parent] b2
             | Panic m => Panic m
             | Diverge => Diverge
             end
      else Btree.split_rec N fuel s NP (removelast path) b1
  | Panic m => Panic m
  | Diverge => Diverge
  end.
Proof.
  simpl. unfold Btree.bind at 1.
  destruct (Btree.split_step N key ref path b) as [[[[[s NP] parent] ok] b1]| |]; try done.
  destruct ok; [done|]. unfold Btree.bind at 1. unfold Btree.gets.
  destruct (parent =? Btree.root b1); [|done].
  destruct (negb (Z.of_nat (length path) =? 2)); [done|].
  unfold Btree.bind at 1. by destruct (Btree.promote_root b1) as [[NR b2]| |].
Qed.

Lemma leafrec_snoc pg p x :
  Page.IsLeaf p = false → leafrec (pg ++ [p]) x ↔ leafrec pg x.
Proof.
  intros Hl. split.
  - intros (r & q & Hq & Hleaf & Hx). rewrite zget_snoc in Hq.
    case_bool_decide; [injection Hq as <-; congruence|].
    by exists r, q.
  - intros (r & q & Hq & Hleaf & Hx). exists r, q. split; [by apply zget_app_l|done].
Qed.

Lemma Prov_snoc pg p :
  Page.IsLeaf p = false → Page.keys p = [] → Prov pg → Prov (pg ++ [p]).
Proof.
  intros Hl Hk HP r q x Hq Hleaf Hx. rewrite zget_snoc in Hq.
  case_bool_decide.
  - injection Hq as <-. rewrite Hk in Hx. by apply elem_of_nil in Hx.
  - destruct (HP r q x Hq Hleaf Hx) as (y & Hy & E). exists y.
    split; [by apply leafrec_snoc|done].
Qed.

Lemma CapInv_snoc N pg p :
  CapInv N pg → Page.Size p ≤ Z.of_nat N → CapInv N (pg ++ [p]).
Proof.
  intros HC Hp r q. rewrite zget_snoc. case_bool_decide; [by intros [= <-]|apply HC].
Qed.

Lemma CapInv_zset N pg r p :
  CapInv N pg → Page.Size p ≤ Z.of_nat N → CapInv N (zset r p pg).
Proof.
  intros HC Hp r' q. rewrite zget_set. case_bool_decide; [|apply HC].
  destruct (zget pg r); simpl; [by intros [= <-]|done].
Qed.

Lemma size_place k r p :
  k ∉ Key.Get <$> Page.keys p →
  Page.Size (Page.set_keys (Page.place k r (Page.keys p)) p) = Page.Size p + 1.
Proof.
  intros H. unfold Page.Size. simpl. rewrite place_length by done.
  destruct (Page.IsLeaf p); lia.
Qed.

Section SplitRec.
Context (N : nat).
Hypothesis HN : (2 ≤ N)%nat.

(** When the parent has room the step ends the recursion. *)
Lemma split_rec_room fuel b G key ref pre Q P pP :
  zget (Btree.pager b) P = Some pP → Page.Size pP = Z.of_nat N →
  key ∉ Key.Get <$> Page.keys pP →
  SInv (zset P (Page.set_keys (Page.place key ref (Page.keys pP)) pP) (Btree.pager b))
    (Btree.root b) G →
  links (zset P (Page.set_keys (Page.place key ref (Page.keys pP)) pP) (Btree.pager b))
    (pre ++ [Q; P]) →
  (pre ++ [Q; P]) !! O = Some (Btree.root b) → CapInv N (Btree.pager b) →
  (∀ pQ, zget (Btree.pager b) Q = Some pQ → Page.Size pQ < Z.of_nat N) →
  ∃ b', Btree.split_rec N (S fuel) key ref (pre ++ [Q; P]) b = Ok (tt, b') ∧
        split_post N b (zset P (Page.set_keys (Page.place key ref (Page.keys pP)) pP)
                        (Btree.pager b)) b'.
Proof.
  intros HP Hfull Hfresh HS Hlinks Hhead Hcap Hroom.
  destruct (split_step_ok N b G key ref pre Q P pP HN HP Hfull Hfresh HS Hlinks Hhead Hcap)
    as (pQ & s & pg1 & G' & HQ & HQl & Hrun & HQ1 & Hcap1 & Hfr & Hlen & HS' & Hl' & Hrec & Hcnt & Hprov).
  rewrite split_rec_unfold, Hrun.
  rewrite insert_room by (by apply Hroom). simpl.
  eexists. split; [done|].
  split; [by exists G'|]. simpl. split_and!; try done.
  apply CapInv_zset; [done|]. rewrite size_place by done.
  specialize (Hroom _ HQ). lia.
Qed.

Lemma split_rec_ok pre : ∀ fuel b G key ref Q P pP,
  (length pre + 2 ≤ fuel)%nat →
  zget (Btree.pager b) P = Some pP → Page.Size pP = Z.of_nat N →
  key ∉ Key.Get <$> Page.keys pP →
  SInv (zset P (Page.set_keys (Page.place key ref (Page.keys pP)) pP) (Btree.pager b))
    (Btree.root b) G →
  links (zset P (Page.set_keys (Page.place key ref (Page.keys pP)) pP) (Btree.pager b))
    (pre ++ [Q; P]) →
  (pre ++ [Q; P]) !! O = Some (Btree.root b) → CapInv N (Btree.pager b) →
  ∃ b', Btree.split_rec N fuel key ref (pre ++ [Q; P]) b = Ok (tt, b') ∧
        split_post N b (zset P (Page.set_keys (Page.place key ref (Page.keys pP)) pP)
                        (Btree.pager b)) b'.
Proof.
  induction pre as [|GP pre IH] using rev_ind;
    intros fuel b G key ref Q P pP Hfuel HP Hfull Hfresh HS Hlinks Hhead Hcap.
  - (* the parent is the root *)
    destruct fuel as [|fuel]; [simpl in Hfuel; lia|].
    destruct (split_step_ok N b G key ref [] Q P pP HN HP Hfull Hfresh HS Hlinks Hhead Hcap)
      as (pQ & s & pg1 & G' & HQ & HQl & Hrun & HQ1 & Hcap1 & Hfr & Hlen & HS' & Hl' & Hrec & Hcnt & Hprov).
    rewrite split_rec_unfold, Hrun.
    destruct (Z.leb_spec (Z.of_nat N) (Page.Size pQ)) as [Hle|Hlt].
    + (* the root is full: promote it *)
      rewrite insert_full by done. simpl.
      simpl in Hhead. injection Hhead as HQroot. subst Q.
      rewrite Z.eqb_refl. simpl.
      rewrite promote_root_run. simpl.
      rewrite (zset_id _ _ _ HQ1). rewrite Hlen.
      set (R := Btree.root b) in *.
      set (NP := Z.of_nat (length (Btree.pager b))) in *.
      set (NR := Z.of_nat (S (length (Btree.pager b)))).
      set (nr := Page.mk false (-1) R []).
      set (b2 := Btree.mk (pg1 ++ [nr]) (Btree.values b) NR (Btree.size b)).
      set (pgV' := zset R (Page.set_keys (Page.place s NP (Page.keys pQ)) pQ) pg1) in *.
      destruct (s_root _ _ _ HS') as (h & Hroot' & _).
      pose proof (promote_SInv _ _ _ _ HS' Hroot') as HS2.
      assert (HlenV : length pgV' = S (length (Btree.pager b))).
      { unfold pgV'. by rewrite zset_length. }
      rewrite HlenV in HS2. fold NR in HS2. fold nr in HS2.
      assert (HpgV2 : zset R (Page.set_keys (Page.place s NP (Page.keys pQ)) pQ) (pg1 ++ [nr])
                      = pgV' ++ [nr]).
      { unfold pgV'. by eapply zset_app_l. }
      destruct fuel as [|fuel]; [simpl in Hfuel; lia|].
      destruct (split_rec_room fuel b2 (G' ++ [mkInfo (S (S h)) [] None]) s NP [] NR R pQ)
        as (b' & Hrun' & Hpost).
      * simpl. by apply zget_app_l.
      * pose proof (Hcap1 _ _ HQ1). lia.
      * done.
      * simpl. rewrite HpgV2. exact HS2.
      * simpl. rewrite HpgV2. intros n q p Hq Hp.
        destruct n as [|[|n]]; simpl in Hq, Hp; try done.
        injection Hq as <-. injection Hp as <-.
        exists nr. split; [|split; [done|]].
        -- unfold NR. rewrite <- HlenV. by rewrite zget_snoc, bool_decide_true.
        -- simpl. apply child_nil. done.
      * done.
      * simpl. apply CapInv_snoc; [done|]. unfold Page.Size. simpl. lia.
      * simpl. intros pQ0. unfold NR. rewrite <- Hlen.
        rewrite zget_snoc, bool_decide_true by done. intros [= <-].
        unfold Page.Size. simpl. lia.
      * exists b'. split; [exact Hrun'|].
        destruct Hpost as (HG & Hc & Hv & Hs & Hr & Hn & Hp). simpl in *.
        rewrite HpgV2 in Hr, Hn, Hp.
        split; [done|]. split; [done|]. split; [done|]. split; [done|]. split_and!.
        -- intros x. rewrite Hr, leafrec_snoc by done. apply Hrec.
        -- rewrite Hn, leaf_count_snoc. unfold leaf_len. simpl. lia.
        -- intros HPr. apply Hp. apply Prov_snoc; [done|done|]. by apply Hprov.
    + rewrite insert_room by done. simpl.
      eexists. split; [done|].
      split; [by exists G'|]. simpl. split_and!; try done.
      apply CapInv_zset; [done|]. rewrite size_place by done. lia.
  - (* the parent has a parent *)
    destruct fuel as [|fuel]; [rewrite length_app in Hfuel; simpl in Hfuel; lia|].
    destruct (split_step_ok N b G key ref (pre ++ [GP]) Q P pP HN HP Hfull Hfresh HS Hlinks
                Hhead Hcap)
      as (pQ & s & pg1 & G' & HQ & HQl & Hrun & HQ1 & Hcap1 & Hfr & Hlen & HS' & Hl' & Hrec & Hcnt & Hprov).
    rewrite split_rec_unfold, Hrun.
    destruct (Z.leb_spec (Z.of_nat N) (Page.Size pQ)) as [Hle|Hlt].
    + rewrite insert_full by done. simpl.
      assert (HQroot : Q ≠ Btree.root b).
      { intros E. destruct (s_root _ _ _ HS) as (h & Hroot & _).
        assert (length (pre ++ [GP]) = O) as E0; [|rewrite length_app in E0; simpl in E0; lia].
        eapply (links_inj HS _ _ _ _ _ Q Hlinks Hhead Hroot).
        - by rewrite lookup_app_r, Nat.sub_diag.
        - rewrite Hhead. by rewrite E. }
      destruct (Z.eqb_spec Q (Btree.root b)) as [?|_]; [done|].
      rewrite (zset_id _ _ _ HQ1).
      replace (removelast ((pre ++ [GP]) ++ [Q; P])) with (pre ++ [GP; Q]).
      2:{ replace ((pre ++ [GP]) ++ [Q; P]) with ((pre ++ [GP; Q]) ++ [P]).
          - by rewrite removelast_last.
          - by rewrite <- !app_assoc. }
      set (NP := Z.of_nat (length (Btree.pager b))) in *.
      destruct (IH fuel (Btree.set_pager pg1 b) G' s NP GP Q pQ) as (b' & Hrun' & Hpost).
      * rewrite length_app in Hfuel. simpl in Hfuel. lia.
      * done.
      * pose proof (Hcap1 _ _ HQ1). lia.
      * done.
      * done.
      * simpl. by rewrite <- app_assoc in Hl'.
      * simpl. rewrite <- app_assoc in Hhead. simpl in Hhead.
        destruct pre; simpl in *; done.
      * done.
      * exists b'. split; [exact Hrun'|].
        destruct Hpost as (HG & Hc & Hv & Hs & Hr & Hn & Hp). simpl in *.
        split; [done|]. split; [done|]. split; [done|]. split; [done|]. split_and!.
        -- intros x. rewrite Hr. apply Hrec.
        -- by rewrite Hn.
        -- intros HPr. apply Hp. by apply Hprov.
    + rewrite insert_room by done. simpl.
      eexists. split; [done|].
      split; [by exists G'|]. simpl. split_and!; try done.
      apply CapInv_zset; [done|]. rewrite size_place by done. lia.
Qed.

End SplitRec.

(** ** The search: the path from the root to the leaf that covers the key *)

Lemma search_ref q p :
  Key.Ref (Page.Search q p).2 =
  match Page.floor q (Page.keys p) with Some x => Key.Ref x | None => Page.First p end.
Proof. unfold Page.Search. by destruct (Page.floor q (Page.keys p)). Qed.

Lemma links_cons pg r r' rest pr :
  zget pg r = Some pr → Page.IsLeaf pr = false →
  child (Page.First pr) (Page.keys pr) r' →
  links pg (r' :: rest) → links pg (r :: r' :: rest).
Proof.
  intros Hr Hl Hc Hlk n q p Hq Hp. destruct n as [|n].
  - simpl in Hq, Hp. injection Hq as <-. injection Hp as <-. by exists pr.
  - apply (Hlk n); done.
Qed.

Lemma links_single pg r : links pg [r].
Proof. intros n q p Hq Hp. destruct n; done. Qed.

Section Search.
Context (b : Btree.t) (G : list Info).
Hypothesis HS : SInv (Btree.pager b) (Btree.root b) G.

Lemma search_loop_ok q : ∀ fuel r i acc,
  zget G r = Some i → in_range i q → (lvl i < fuel)%nat →
  ∃ rest P pP iP,
    Btree.search_loop fuel b q r acc =
      Ok ((Page.Search q pP).1, (Page.Search q pP).2, acc ++ rest) ∧
    last (r :: rest) = Some P ∧ zget (Btree.pager b) P = Some pP ∧
    Page.IsLeaf pP = true ∧ zget G P = Some iP ∧ lvl iP = O ∧ in_range iP q ∧
    links (Btree.pager b) (r :: rest) ∧ length rest = lvl i.
Proof.
  induction fuel as [|fuel IH]; intros r i acc Hi Hq Hfuel; [lia|].
  destruct (sinv_page_of HS _ _ Hi) as [p Hp].
  simpl. rewrite (pager_get_zget _ _ _ Hp). simpl.
  destruct (Page.Search q p) as [ok k] eqn:Es.
  destruct (Page.IsLeaf p) eqn:Hleaf.
  - destruct (sinv_leaf HS _ _ _ Hp Hi Hleaf) as (Hl & _).
    exists [], r, p, i. rewrite Es, app_nil_r. simpl.
    split_and!; try done; apply links_single.
  - destruct (sinv_internal HS _ _ _ Hp Hi Hleaf) as (d & Hd & Hch).
    destruct Hq as [Hq1 Hq2].
    destruct (chain_floor _ _ _ _ _ _ q Hch Hq1 Hq2) as [Hc (lo' & hi' & Hz & Hlo & Hhi)].
    rewrite <- search_ref, Es in Hc, Hz. simpl in Hc, Hz.
    destruct (IH (Key.Ref k) _ (acc ++ [Key.Ref k]) Hz) as
      (rest & P & pP & iP & Hrun & Hlast & HP & HPl & HiP & HlP & HrP & Hlk & Hlen).
    { split; done. }
    { simpl. lia. }
    exists (Key.Ref k :: rest), P, pP, iP. rewrite Hrun, <- app_assoc. simpl.
    split_and!; try done.
    + eapply links_cons; eauto.
    + simpl in Hlen. lia.
Qed.

(** [search] reaches the leaf whose interval holds the key; the recorded
    path has at least two pages. *)
Lemma search_ok q :
  ∃ pre Q P pP iP,
    Btree.search b q = Ok ((Page.Search q pP).1, (Page.Search q pP).2, pre ++ [Q; P]) ∧
    (pre ++ [Q; P]) !! O = Some (Btree.root b) ∧
    zget (Btree.pager b) P = Some pP ∧ Page.IsLeaf pP = true ∧
    zget G P = Some iP ∧ lvl iP = O ∧ in_range iP q ∧
    links (Btree.pager b) (pre ++ [Q; P]).
Proof.
  destruct (s_root _ _ _ HS) as (h & Hroot & _ & Hh).
  destruct (search_loop_ok q (S (length (Btree.pager b))) (Btree.root b) _ [Btree.root b] Hroot)
    as (rest & P & pP & iP & Hrun & Hlast & HP & HPl & HiP & HlP & HrP & Hlk & Hlen).
  { split; simpl; [apply kle_nil|done]. }
  { simpl. lia. }
  simpl in Hlen.
  destruct rest as [|r1 rest] using rev_ind; [done|]. clear IHrest.
  assert (P = r1) as ->.
  { rewrite app_comm_cons, last_snoc in Hlast. by injection Hlast as <-. }
  assert (∃ pre Q, Btree.root b :: rest = pre ++ [Q]) as (pre & Q & E).
  { destruct rest as [|r0 rest0 _] using rev_ind.
    - by exists [], (Btree.root b).
    - by exists (Btree.root b :: rest0), r0. }
  exists pre, Q, r1, pP, iP.
  assert (Epath : Btree.root b :: rest ++ [r1] = pre ++ [Q; r1]).
  { rewrite app_comm_cons, E, <- app_assoc. done. }
  unfold Btree.search. rewrite Hrun. simpl. rewrite Epath.
  split_and!; try done.
  - by rewrite <- Epath.
  - by rewrite <- Epath.
Qed.

(** A key occurs in the leaf that covers it and in no other leaf. *)
Lemma leafrec_in_leaf x P pP iP :
  leafrec (Btree.pager b) x →
  zget (Btree.pager b) P = Some pP → zget G P = Some iP → lvl iP = O →
  in_range iP (Key.Get x) → x ∈ Page.keys pP.
Proof.
  intros (r & p & Hp & Hl & Hx) HP HiP HlP Hr.
  destruct (sinv_info HS _ _ Hp) as [i Hi].
  destruct (sinv_leaf HS _ _ _ Hp Hi Hl) as (Hli & Hok & _).
  assert (in_range i (Key.Get x)) as Hr' by (by eapply leaf_ok_elem).
  assert (r = P) as ->.
  { eapply (s_inj _ _ _ HS r P); eauto. congruence. }
  rewrite HP in Hp. by injection Hp as <-.
Qed.

Lemma leafrec_key_inj x y :
  leafrec (Btree.pager b) x → leafrec (Btree.pager b) y →
  Key.Get x = Key.Get y → x = y.
Proof.
  intros Hx (r & p & Hp & Hl & Hy) E.
  destruct (sinv_info HS _ _ Hp) as [i Hi].
  destruct (sinv_leaf HS _ _ _ Hp Hi Hl) as (Hli & Hok & _).
  assert (x ∈ Page.keys p).
  { eapply leafrec_in_leaf; eauto. rewrite E. by eapply leaf_ok_elem. }
  eapply leaf_ok_key_inj; eauto.
Qed.

End Search.

(** ** [Get], [Put] and [Append] on a tree that holds a map *)

Lemma wrap64_succ x : Btree.wrap64 (Btree.wrap64 x + 1) = Btree.wrap64 (x + 1).
Proof.
  unfold Btree.wrap64.
  replace ((x + 2 ^ 63) mod 2 ^ 64 - 2 ^ 63 + 1 + 2 ^ 63)
    with ((x + 2 ^ 63) mod 2 ^ 64 + 1) by lia.
  rewrite Z.add_mod_idemp_l by lia. f_equal. f_equal. lia.
Qed.

Lemma wrap64_small x : - 2 ^ 63 ≤ x < 2 ^ 63 → Btree.wrap64 x = x.
Proof. intros H. unfold Btree.wrap64. rewrite Z.mod_small; lia. Qed.

Lemma set_pager_id b : Btree.set_pager (Btree.pager b) b = b.
Proof. by destruct b. Qed.

Lemma links_frame pg pg' path :
  links pg path →
  (∀ q pq, zget pg q = Some pq → Page.IsLeaf pq = false → zget pg' q = Some pq) →
  links pg' path.
Proof.
  intros Hl Hf n q p Hq Hp. destruct (Hl n q p Hq Hp) as (pq & ? & ? & ?).
  exists pq. split; [by apply Hf|done].
Qed.

Lemma set_value_run b r f old :
  zget (Btree.values b) r = Some old →
  Btree.set_value r f b = Ok (tt, Btree.set_values (zset r (f old) (Btree.values b)) b).
Proof.
  intros H. unfold Btree.set_value, Btree.bind, Btree.gets, Btree.lift, at_index.
  by rewrite H.
Qed.

Lemma last_index_1' pre (Q P : Z) b :
  Btree.last_index (pre ++ [Q; P]) 1 b = Ok (P, b).
Proof.
  replace (pre ++ [Q; P]) with ((pre ++ [Q]) ++ [P]) by (by rewrite <- app_assoc).
  apply last_index_1.
Qed.

Lemma guard_ok c (k : bytes) (v : bytes) :
  Btree.is_empty (Some (c :: k)) || bool_decide (Some v = None) = false.
Proof. by rewrite bool_decide_false. Qed.

Section Ops.
Context (N : nat).
Hypothesis HN : (2 ≤ N)%nat.

Lemma Get_ok b m k :
  Rep N b m → k ≠ [] →
  Btree.Get (Some k) b =
  Ok (match m !! k with Some v => (true, v) | None => (false, []) end).
Proof.
  intros HR Hk. destruct (r_sinv _ _ _ HR) as [G HS].
  destruct (search_ok b G HS k) as (pre & Q & P & pP & iP & Hrun & Hhead & HP & HPl & HiP & HlP & Hr & Hlk).
  unfold Btree.Get. destruct k as [|c k]; [done|]. simpl Btree.is_empty. cbv iota.
  simpl default. rewrite Hrun. simpl.
  destruct (sinv_leaf HS _ _ _ HP HiP HPl) as (_ & Hok & _).
  destruct (leaf_search _ _ pP (c :: k) Hok) as [(x & Es & Hx & E)|(x & Es & Hx)]; rewrite Es; simpl.
  - assert (leafrec (Btree.pager b) x) as Hrec by (by exists P, pP).
    destruct (r_vals _ _ _ HR x Hrec) as [[v Hv] Hz]. rewrite E in Hv, Hz.
    rewrite Hv in *. unfold at_index. by rewrite Hz.
  - destruct (m !! (c :: k)) as [v|] eqn:Em; [|done]. exfalso.
    destruct (r_dom _ _ _ HR (c :: k)) as (y & Hy & E); [by eexists|].
    apply Hx. apply list_elem_of_fmap. exists y. split; [done|].
    eapply (leafrec_in_leaf b G HS); eauto. by rewrite E.
Qed.

(** Overwriting the value of a record. *)
Lemma Rep_overwrite b m x v :
  Rep N b m → leafrec (Btree.pager b) x →
  Rep N (Btree.set_values (zset (Key.Ref x) v (Btree.values b)) b) (<[Key.Get x := v]> m).
Proof.
  intros HR Hx. destruct (r_sinv _ _ _ HR) as [G HS].
  destruct (r_vals _ _ _ HR x Hx) as [[v0 Hv0] Hz0].
  split; simpl.
  - by exists G.
  - apply HR.
  - intros y Hy. destruct (decide (y = x)) as [->|Hne].
    + rewrite lookup_insert_eq. split; [by eexists|].
      eapply zget_set_eq. by rewrite Hz0.
    + assert (Key.Get y ≠ Key.Get x).
      { intros E. apply Hne. by eapply (leafrec_key_inj b G HS). }
      assert (Key.Ref y ≠ Key.Ref x).
      { intros E. apply Hne. by eapply (r_refs _ _ _ HR). }
      rewrite lookup_insert_ne by done. rewrite zget_set_ne by done.
      by apply (r_vals _ _ _ HR).
  - intros k [w Hw]. destruct (decide (k = Key.Get x)) as [->|Hne]; [by exists x|].
    rewrite lookup_insert_ne in Hw by done. apply (r_dom _ _ _ HR). by eexists.
  - apply HR.
  - rewrite map_size_insert_Some by (by eexists). apply HR.
  - rewrite map_size_insert_Some by (by eexists). apply HR.
  - apply HR.
Qed.

Lemma leafrec_place pg P pP k r x :
  zget pg P = Some pP → Page.IsLeaf pP = true → k ∉ Key.Get <$> Page.keys pP →
  leafrec (zset P (Page.set_keys (Page.place k r (Page.keys pP)) pP) pg) x ↔
  x = Key.mk k r ∨ leafrec pg x.
Proof.
  intros HP Hl Hk. split.
  - intros (q & p & Hp & Hleaf & Hx). rewrite zget_set in Hp. case_bool_decide.
    + subst q. rewrite HP in Hp. simpl in Hp. injection Hp as <-. simpl in Hx.
      apply place_elem in Hx as [->|Hx]; [by left| |done]. right. by exists P, pP.
    + right. by exists q, p.
  - intros [->|(q & p & Hp & Hleaf & Hx)].
    + exists P, (Page.set_keys (Page.place k r (Page.keys pP)) pP).
      split; [by eapply zget_set_eq|]. split; [done|]. simpl.
      apply place_elem; [done|by left].
    + destruct (decide (q = P)) as [->|Hne].
      * rewrite HP in Hp. injection Hp as <-.
        exists P, (Page.set_keys (Page.place k r (Page.keys pP)) pP).
        split; [by eapply zget_set_eq|]. split; [done|]. simpl.
        apply place_elem; [done|by right].
      * exists q, p. rewrite zget_set_ne by done. done.
Qed.

Lemma leaf_count_place pg P pP k r :
  zget pg P = Some pP → Page.IsLeaf pP = true → k ∉ Key.Get <$> Page.keys pP →
  leaf_count (zset P (Page.set_keys (Page.place k r (Page.keys pP)) pP) pg) =
  S (leaf_count pg).
Proof.
  intros HP Hl Hk.
  pose proof (leaf_count_zset _ _ _ (Page.set_keys (Page.place k r (Page.keys pP)) pP) HP) as E.
  unfold leaf_len in E. simpl in E. rewrite Hl in E. rewrite place_length in E by done. lia.
Qed.

Lemma Prov_place pg P pP k r :
  zget pg P = Some pP → Page.IsLeaf pP = true → k ∉ Key.Get <$> Page.keys pP →
  Prov pg → Prov (zset P (Page.set_keys (Page.place k r (Page.keys pP)) pP) pg).
Proof.
  intros HP Hl Hk HProv q p x Hp Hleaf Hx. rewrite zget_set in Hp. case_bool_decide.
  - subst q. rewrite HP in Hp. simpl in Hp. injection Hp as <-. simpl in Hleaf. congruence.
  - destruct (HProv q p x Hp Hleaf Hx) as (y & Hy & E). exists y. split; [|done].
    apply leafrec_place; [done|done|done|]. by right.
Qed.

(** The tree after a record with a new key has reached the leaves. *)
Lemma Rep_insert b m b' k v P pP :
  Rep N b m → m !! k = None →
  zget (Btree.pager b) P = Some pP → Page.IsLeaf pP = true →
  split_post N b
    (zset P (Page.set_keys (Page.place k (Z.of_nat (length (Btree.values b))) (Page.keys pP)) pP)
       (Btree.pager b)) b' →
  Rep N (Btree.mk (Btree.pager b') (Btree.values b ++ [v]) (Btree.root b')
           (Btree.wrap64 (Btree.size b + 1)))
    (<[k := v]> m).
Proof.
  intros HR Hm HP Hl (HG & Hcap & _ & _ & Hrec & Hcnt & Hprov).
  assert (Hk : k ∉ Key.Get <$> Page.keys pP).
  { intros Hin. apply list_elem_of_fmap in Hin as (y & -> & Hy).
    destruct (r_vals _ _ _ HR y) as [[w Hw] _]; [by exists P, pP|]. congruence. }
  assert (Hrec' : ∀ x, leafrec (Btree.pager b') x ↔
                       x = Key.mk k (Z.of_nat (length (Btree.values b))) ∨
                       leafrec (Btree.pager b) x).
  { intros x. rewrite Hrec. by apply leafrec_place. }
  assert (Hold : ∀ x, leafrec (Btree.pager b) x →
                      Key.Get x ≠ k ∧ Key.Ref x ≠ Z.of_nat (length (Btree.values b)) ∧
                      is_Some (zget (Btree.values b) (Key.Ref x))).
  { intros x Hx. destruct (r_vals _ _ _ HR x Hx) as [[w Hw] Hz]. split_and!.
    - intros E. congruence.
    - intros E. rewrite E, zget_fresh in Hz. congruence.
    - rewrite Hz. by eexists. }
  split; simpl.
  - done.
  - done.
  - intros x Hx. apply Hrec' in Hx as [->|Hx].
    + simpl. rewrite lookup_insert_eq. split; [by eexists|].
      by rewrite zget_snoc, bool_decide_true.
    + destruct (Hold x Hx) as (H1 & H2 & [w Hw]).
      rewrite lookup_insert_ne by done.
      rewrite (zget_app_l _ _ _ _ Hw), <- Hw. by apply (r_vals _ _ _ HR).
  - intros k' [w Hw]. destruct (decide (k' = k)) as [->|Hne].
    + eexists. split; [apply Hrec'; by left|done].
    + rewrite lookup_insert_ne in Hw by done.
      destruct (r_dom _ _ _ HR k') as (y & Hy & E); [by eexists|].
      exists y. split; [apply Hrec'; by right|done].
  - intros x y Hx Hy E. apply Hrec' in Hx as [->|Hx]; apply Hrec' in Hy as [->|Hy]; try done.
    + destruct (Hold y Hy) as (_ & H2 & _). simpl in E. congruence.
    + destruct (Hold x Hx) as (_ & H2 & _). simpl in E. congruence.
    + by apply (r_refs _ _ _ HR).
  - rewrite Hcnt, leaf_count_place by done. rewrite map_size_insert_None by done.
    f_equal. apply HR.
  - rewrite (r_size _ _ _ HR), wrap64_succ. rewrite map_size_insert_None by done.
    f_equal. lia.
  - apply Hprov. apply Prov_place; try done. apply HR.
Qed.

(** Inserting into the leaf that covers the key, with a division when the
    leaf is full. *)
Lemma insert_or_split b G k r pre Q P pP iP :
  SInv (Btree.pager b) (Btree.root b) G → CapInv N (Btree.pager b) →
  (pre ++ [Q; P]) !! O = Some (Btree.root b) →
  zget (Btree.pager b) P = Some pP → Page.IsLeaf pP = true →
  zget G P = Some iP → lvl iP = O → in_range iP k →
  links (Btree.pager b) (pre ++ [Q; P]) →
  k ∉ Key.Get <$> Page.keys pP →
  ∃ b1,
    Btree.bind (Btree.call P (Page.Insert N k r))
      (fun ok => if ok then Btree.ret tt else Btree.split N k r (pre ++ [Q; P])) b
    = Ok (tt, b1) ∧
    split_post N b (zset P (Page.set_keys (Page.place k r (Page.keys pP)) pP) (Btree.pager b)) b1.
Proof.
  intros HS Hcap Hhead HP HPl HiP HlP Hr Hlk Hk.
  set (pV := Page.set_keys (Page.place k r (Page.keys pP)) pP).
  set (pgV := zset P pV (Btree.pager b)).
  destruct (s_page _ _ _ HS _ _ _ HP HiP) as [Hok Hlink].
  assert (HSV : SInv pgV (Btree.root b) G).
  { apply (SInv_update _ _ _ P pP pV iP HS HP HiP).
    - unfold page_ok in *. rewrite HlP in *. destruct Hok as (? & Hok & ?).
      destruct Hr. split_and!; [done| |].
      + simpl. by apply place_leaf_ok.
      + intros _. apply place_not_nil.
    - eapply link_ok_ext; [| | |exact Hlink]; done. }
  assert (HlkV : links pgV (pre ++ [Q; P])).
  { eapply links_frame; [exact Hlk|]. intros q pq Hq Hleaf. unfold pgV.
    rewrite zget_set_ne; [done|]. intros ->. congruence. }
  rewrite (bind_Ok _ _ _ _ _ (call_Ok _ _ _ _ HP)).
  destruct (Z.leb_spec (Z.of_nat N) (Page.Size pP)) as [Hle|Hlt].
  - rewrite insert_full by done. simpl.
    rewrite (zset_id _ _ _ HP), set_pager_id.
    unfold Btree.split.
    destruct (split_rec_ok N HN pre (S (length (pre ++ [Q; P]))) b G k r Q P pP) as (b1 & Hrun & Hpost);
      try done.
    + rewrite length_app. simpl. lia.
    + specialize (Hcap _ _ HP). lia.
    + exists b1. split; [|done]. by rewrite Hrun.
  - rewrite insert_room by done. simpl. eexists. split; [done|].
    split; [by exists G|]. simpl. split_and!; try done.
    apply CapInv_zset; [done|]. unfold pV. rewrite size_place by done. lia.
Qed.

Lemma Put_ok b m k v :
  Rep N b m → k ≠ [] →
  ∃ b', Btree.Put N (Some k) (Some v) b = Ok (bool_decide (is_Some (m !! k)), b') ∧
        Rep N b' (<[k := v]> m).
Proof.
  intros HR Hk. destruct (r_sinv _ _ _ HR) as [G HS].
  destruct (search_ok b G HS k) as (pre & Q & P & pP & iP & Hrun & Hhead & HP & HPl & HiP & HlP & Hr & Hlk).
  unfold Btree.Put. destruct k as [|c k]; [done|]. rewrite guard_ok. cbv iota. simpl default.
  unfold Btree.bind at 1. unfold Btree.gets at 1. simpl id.
  unfold Btree.bind at 1. rewrite Hrun. simpl Btree.lift.
  destruct (sinv_leaf HS _ _ _ HP HiP HPl) as (_ & Hok & _).
  destruct (leaf_search _ _ pP (c :: k) Hok) as [(x & Es & Hx & E)|(x & Es & Hx)]; rewrite Es.
  - (* the key is present *)
    assert (leafrec (Btree.pager b) x) as Hrec by (by exists P, pP).
    destruct (r_vals _ _ _ HR x Hrec) as [[v0 Hv0] Hz0]. rewrite Hv0 in Hz0.
    rewrite E in Hv0. cbn [fst snd]. cbv beta iota.
    rewrite (bind_Ok _ _ _ _ _ (set_value_run _ _ _ _ Hz0)).
    eexists. split.
    + unfold Btree.ret. rewrite bool_decide_true by (by eexists). done.
    + rewrite <- E. by apply Rep_overwrite.
  - (* the key is new *)
    assert (Hm : m !! (c :: k) = None).
    { destruct (m !! (c :: k)) as [w|] eqn:Em; [|done]. exfalso.
      destruct (r_dom _ _ _ HR (c :: k)) as (y & Hy & E); [by eexists|].
      apply Hx. apply list_elem_of_fmap. exists y. split; [done|].
      eapply (leafrec_in_leaf b G HS); eauto. by rewrite E. }
    cbn [fst snd]. cbv beta iota.
    unfold Btree.bind at 1. unfold Btree.gets at 1.
    rewrite (bind_Ok _ _ _ _ _ (last_index_1' _ _ _ _)).
    rewrite (bind_Ok _ _ _ _ _ (pagerGet_Ok _ _ _ HP)).
    destruct (insert_or_split b G (c :: k) (Z.of_nat (length (Btree.values b))) pre Q P pP iP
                HS (r_cap _ _ _ HR) Hhead HP HPl HiP HlP Hr Hlk Hx) as (b1 & Hrun1 & Hpost).
    unfold Btree.bind in Hrun1.
    unfold Btree.bind at 1.
    destruct (Btree.call P (Page.Insert N (c :: k) (Z.of_nat (length (Btree.values b)))) b)
      as [[ok b0]| |]; try done.
    unfold Btree.bind at 1. rewrite Hrun1.
    pose proof Hpost as (_ & _ & Hv & Hsz & _).
    unfold Btree.bind at 1. unfold Btree.modify at 1.
    erewrite bind_Ok.
    2:{ apply (set_value_run _ _ _ []). simpl. rewrite Hv.
        by rewrite zget_snoc, bool_decide_true. }
    unfold Btree.bind, Btree.modify, Btree.ret. simpl.
    eexists. split.
    + rewrite bool_decide_false; [done|]. rewrite Hm. by intros [? ?].
    + rewrite Hv, Hsz, zset_snoc_new. simpl. unfold copyBytes.
      apply (Rep_insert b m b1 (c :: k) v P pP HR Hm HP HPl Hpost).
Qed.

Lemma Append_ok b m k v :
  Rep N b m → k ≠ [] →
  ∃ b', Btree.Append N (Some k) (Some v) b = Ok (tt, b') ∧
        Rep N b' (<[k := default [] (m !! k) ++ v]> m).
Proof.
  intros HR Hk. destruct (r_sinv _ _ _ HR) as [G HS].
  destruct (search_ok b G HS k) as (pre & Q & P & pP & iP & Hrun & Hhead & HP & HPl & HiP & HlP & Hr & Hlk).
  unfold Btree.Append. destruct k as [|c k]; [done|]. rewrite guard_ok. cbv iota. simpl default.
  unfold Btree.bind at 1. unfold Btree.gets at 1. simpl id.
  unfold Btree.bind at 1. rewrite Hrun. simpl Btree.lift.
  destruct (sinv_leaf HS _ _ _ HP HiP HPl) as (_ & Hok & _).
  destruct (leaf_search _ _ pP (c :: k) Hok) as [(x & Es & Hx & E)|(x & Es & Hx)]; rewrite Es.
  - assert (leafrec (Btree.pager b) x) as Hrec by (by exists P, pP).
    destruct (r_vals _ _ _ HR x Hrec) as [[v0 Hv0] Hz0]. rewrite Hv0 in Hz0.
    rewrite E in Hv0. cbn [fst snd]. cbv beta iota.
    rewrite (set_value_run _ _ _ _ Hz0).
    eexists. split; [done|]. rewrite Hv0. simpl. rewrite <- E. by apply Rep_overwrite.
  - assert (Hm : m !! (c :: k) = None).
    { destruct (m !! (c :: k)) as [w|] eqn:Em; [|done]. exfalso.
      destruct (r_dom _ _ _ HR (c :: k)) as (y & Hy & E); [by eexists|].
      apply Hx. apply list_elem_of_fmap. exists y. split; [done|].
      eapply (leafrec_in_leaf b G HS); eauto. by rewrite E. }
    cbn [fst snd]. cbv beta iota.
    destruct (Put_ok b m (c :: k) v HR) as (b' & Hput & HR'); [done|].
    unfold Btree.bind. rewrite Hput. rewrite bool_decide_false; [|rewrite Hm; by intros [? ?]].
    exists b'. split; [done|]. by rewrite Hm.
Qed.

End Ops.

(** ** [PutNext]: the descent along the last children *)

Lemma getkey_last p :
  Page.IsLeaf p = false →
  Page.GetKey (Page.Size p - 1) p =
  Ok (from_option Key.Get [] (last (Page.keys p)),
      from_option Key.Ref (Page.First p) (last (Page.keys p))).
Proof.
  intros Hl. unfold Page.GetKey, Page.Size. rewrite Hl.
  destruct (Page.keys p) as [|x l] eqn:E using rev_ind.
  - simpl. done.
  - clear IHl. rewrite length_app. simpl.
    destruct (Z.eqb_spec (1 + Z.of_nat (length l + 1) - 1) 0) as [?|_]; [lia|].
    rewrite last_snoc. simpl. unfold at_index.
    replace (1 + Z.of_nat (length l + 1) - 1 - 1) with (Z.of_nat (length l)) by lia.
    by rewrite zget_snoc, bool_decide_true.
Qed.

Lemma lt_hi_None_inv c : (∀ k, lt_hi k None → lt_hi k c) → c = None.
Proof.
  destruct c as [h|]; [|done]. intros H. specialize (H h I). simpl in H. korder.
Qed.

Section Descend.
Context (b : Btree.t) (G : list Info) (key : bytes).
Hypothesis HS : SInv (Btree.pager b) (Btree.root b) G.
Hypothesis Hint : ∀ r p x, zget (Btree.pager b) r = Some p → Page.IsLeaf p = false →
                           x ∈ Page.keys p → klt (Key.Get x) key.

Lemma descend_last_ok : ∀ fuel r p i acc,
  zget (Btree.pager b) r = Some p → zget G r = Some i →
  hi i = None → klt (lo i) key → (lvl i < fuel)%nat →
  ∃ rest P pP iP,
    Btree.descend_last fuel b key p acc = Ok (pP, acc ++ rest) ∧
    last (r :: rest) = Some P ∧ zget (Btree.pager b) P = Some pP ∧
    Page.IsLeaf pP = true ∧ zget G P = Some iP ∧ lvl iP = O ∧
    hi iP = None ∧ klt (lo iP) key ∧
    links (Btree.pager b) (r :: rest) ∧ length rest = lvl i.
Proof.
  induction fuel as [|fuel IH]; intros r p i acc Hp Hi Hhi Hlo Hfuel; [lia|].
  simpl. destruct (Page.IsLeaf p) eqn:Hleaf.
  - destruct (sinv_leaf HS _ _ _ Hp Hi Hleaf) as (Hl & _).
    exists [], r, p, i. rewrite app_nil_r. split_and!; try done; apply links_single.
  - destruct (sinv_internal HS _ _ _ Hp Hi Hleaf) as (d & Hd & Hch).
    rewrite Hhi in Hch.
    destruct (chain_last _ _ _ _ _ _ Hch) as (Hc & lo' & Hz & Hle & Hlo' & Hmax).
    assert (Hk : klt lo' key ∧ klt (from_option Key.Get [] (last (Page.keys p))) key).
    { destruct (Page.keys p) as [|x0 l0] eqn:Ek.
      - simpl in *. destruct Hch as [Hz' _]. rewrite Hz in Hz'. injection Hz' as ->.
        split; [done|]. apply klt_nil. by eapply klt_not_nil.
      - assert (is_Some (last (x0 :: l0))) as [x El] by (by apply last_is_Some).
        rewrite El in *. simpl in *. rewrite (Hlo' ltac:(done)).
        assert (klt (Key.Get x) key); [|done].
        eapply Hint; eauto. rewrite Ek. by apply last_Some_elem_of. }
    rewrite getkey_last by done. simpl.
    set (k := from_option Key.Get [] (last (Page.keys p))) in *.
    set (c := from_option Key.Ref (Page.First p) (last (Page.keys p))) in *.
    destruct Hk as [Hk1 Hk2]. unfold klt in Hk2. rewrite Hk2. simpl.
    destruct (sinv_page_of HS _ _ Hz) as [pc Hpc].
    rewrite (pager_get_zget _ _ _ Hpc). simpl.
    destruct (IH c pc _ (acc ++ [c]) Hpc Hz) as
      (rest & P & pP & iP & Hrun & Hlast & HP & HPl & HiP & HlP & HhP & HloP & Hlk & Hlen);
      try done.
    { simpl. lia. }
    exists (c :: rest), P, pP, iP. rewrite Hrun, <- app_assoc. simpl.
    split_and!; try done.
    + eapply links_cons; eauto.
    + simpl in Hlen. lia.
Qed.

End Descend.

(** ** One step of [appendPage] *)

Lemma appendPage_step_run N key ref pre Q P b pP pQ :
  zget (Btree.pager b) P = Some pP → zget (Btree.pager b) Q = Some pQ → P ≠ Q →
  Btree.appendPage_step N key ref (pre ++ [Q; P]) b =
  Ok (Z.of_nat (length (Btree.pager b)), Q,
      (Page.Insert N key (Z.of_nat (length (Btree.pager b))) pQ).1,
      Btree.set_pager
        (zset Q (Page.Insert N key (Z.of_nat (length (Btree.pager b))) pQ).2
           (zset P (append_pages N key ref (Z.of_nat (length (Btree.pager b))) pP).1
              (Btree.pager b) ++
            [(append_pages N key ref (Z.of_nat (length (Btree.pager b))) pP).2])) b).
Proof.
  intros HP HQ Hne.
  pose proof (zget_lt _ _ _ HP) as HPlt. pose proof (zget_lt _ _ _ HQ) as HQlt.
  unfold Btree.appendPage_step.
  rewrite (bind_Ok _ _ _ _ _ (last_index_1' _ _ _ _)).
  rewrite (bind_Ok _ _ _ _ _ (pagerGet_Ok b _ _ HP)).
  rewrite (bind_Ok _ _ _ _ _ (last_index_2 _ _ _ _)).
  rewrite (bind_Ok _ _ _ _ _ (pagerGet_Ok b _ _ HQ)).
  unfold Btree.bind at 1. unfold Btree.pagerNew, Pager.New.
  remember (Btree.pager b) as pg eqn:Epg.
  remember (Z.of_nat (length pg)) as NP eqn:ENP.
  remember (Page.mk (Page.IsLeaf pP) (-1) (-1) []) as fresh eqn:Efresh.
  assert (H1 : zget (pg ++ [fresh]) P = Some pP) by (by apply zget_app_l).
  assert (H2 : zget (pg ++ [fresh]) NP = Some fresh).
  { subst NP. by rewrite zget_snoc, bool_decide_true. }
  assert (H3 : zget (pg ++ [fresh]) Q = Some pQ) by (by apply zget_app_l).
  erewrite bind_Ok; [|by apply (call_Ok _ _ _ pP)]. simpl.
  unfold append_pages.
  destruct (Page.IsLeaf pP) eqn:Hleaf.
  - erewrite bind_Ok; [|apply (call_Ok _ _ _ fresh); simpl; zlook]. simpl.
    erewrite bind_Ok; [|apply (call_Ok _ _ _ pQ); simpl; zlook]. simpl.
    unfold Btree.ret, Btree.set_pager. simpl. do 3 f_equal.
    apply zget_ext. intros r. zlook.
  - erewrite bind_Ok; [|apply (call_Ok _ _ _ fresh); simpl; zlook]. simpl.
    erewrite bind_Ok; [|apply (call_Ok _ _ _ pQ); simpl; zlook]. simpl.
    unfold Btree.ret, Btree.set_pager. simpl. do 3 f_equal.
    apply zget_ext. intros r. zlook.
Qed.

Lemma place_last k r l :
  (∀ x, x ∈ l → klt (Key.Get x) k) → Page.place k r l = l ++ [Key.mk k r].
Proof.
  intros H. rewrite <- (app_nil_r l) at 1. by rewrite place_app_r.
Qed.

Lemma fresh_of_lt k (l : list Key.t) :
  (∀ x, x ∈ l → klt (Key.Get x) k) → k ∉ Key.Get <$> l.
Proof.
  intros H Hin. apply list_elem_of_fmap in Hin as (y & -> & Hy).
  specialize (H y Hy). korder.
Qed.

Section AppendStep.
Context (N : nat) (b : Btree.t) (G : list Info) (key : bytes) (ref : Z).
Context (pre : list Z) (Q P : Z) (pP : Page.t).
Hypothesis HN : (2 ≤ N)%nat.
Hypothesis HP : zget (Btree.pager b) P = Some pP.
Hypothesis Hfull : Page.Size pP = Z.of_nat N.
Hypothesis Hlt : ∀ x, x ∈ Page.keys pP → klt (Key.Get x) key.

Let pV : Page.t := Page.set_keys (Page.place key ref (Page.keys pP)) pP.
Let pgV : Pager.t := zset P pV (Btree.pager b).
Let NP : Z := Z.of_nat (length (Btree.pager b)).

Hypothesis HS : SInv pgV (Btree.root b) G.
Hypothesis Hlinks : links pgV (pre ++ [Q; P]).
Hypothesis Hhead : (pre ++ [Q; P]) !! O = Some (Btree.root b).
Hypothesis Hcap : CapInv N (Btree.pager b).
Hypothesis Hright : ∀ iP, zget G P = Some iP → hi iP = None ∧ klt (lo iP) key.
Hypothesis Hint : ∀ r p x, zget (Btree.pager b) r = Some p → Page.IsLeaf p = false →
                           x ∈ Page.keys p → klt (Key.Get x) key.

Local Lemma astep_fresh : key ∉ Key.Get <$> Page.keys pP.
Proof. by apply fresh_of_lt. Qed.

Local Lemma astep_pgV_P : zget pgV P = Some pV.
Proof. unfold pgV. by eapply zget_set_eq. Qed.

Local Lemma astep_pgV_len : length pgV = length (Btree.pager b).
Proof. unfold pgV. apply zset_length. Qed.

Local Lemma astep_Q_ne_P : Q ≠ P.
Proof.
  intros E. destruct (s_root _ _ _ HS) as (h & Hroot & _).
  assert (length pre = S (length pre)); [|lia].
  eapply (links_inj HS _ _ _ _ _ P Hlinks Hhead Hroot).
  - rewrite lookup_app_r by lia. rewrite Nat.sub_diag. simpl. by rewrite E.
  - rewrite lookup_app_r by lia.
    by replace (S (length pre) - length pre)%nat with 1%nat by lia.
Qed.

Local Lemma astep_pQ :
  ∃ pQ, zget (Btree.pager b) Q = Some pQ ∧ zget pgV Q = Some pQ ∧
        Page.IsLeaf pQ = false ∧ child (Page.First pQ) (Page.keys pQ) P.
Proof.
  destruct (links_app_inv _ _ _ _ Hlinks) as (pQ & HQ & Hl & Hc).
  exists pQ. repeat split; try done.
  unfold pgV in HQ. rewrite zget_set_ne in HQ; [done|].
  apply not_eq_sym, astep_Q_ne_P.
Qed.

Local Lemma astep_keys_ne : Page.keys pP ≠ [].
Proof.
  intros E. unfold Page.Size in Hfull. rewrite E in Hfull. simpl in Hfull.
  destruct (Page.IsLeaf pP); lia.
Qed.

Local Lemma astep_pages :
  ∃ d a,
    zget G P = Some (mkInfo d a None) ∧ klt a key ∧
    page_ok G (mkInfo d a (Some key)) (append_pages N key ref NP pP).1 ∧
    page_ok G (mkInfo d key None) (append_pages N key ref NP pP).2 ∧
    Page.NextPage (append_pages N key ref NP pP).1 = NP ∧
    Page.NextPage (append_pages N key ref NP pP).2 = Page.NextPage pV ∧
    Page.IsLeaf (append_pages N key ref NP pP).1 = Page.IsLeaf pV ∧
    Page.IsLeaf (append_pages N key ref NP pP).2 = Page.IsLeaf pV ∧
    (Page.IsLeaf pV = true →
     Page.keys (append_pages N key ref NP pP).1 ++ Page.keys (append_pages N key ref NP pP).2
     ≡ₚ Page.keys pV) ∧
    (∀ x, x ∈ Page.keys (append_pages N key ref NP pP).1 ∨
          x ∈ Page.keys (append_pages N key ref NP pP).2 → x ∈ Page.keys pV) ∧
    (∃ x, x ∈ Page.keys pV ∧ Key.Get x = key) ∧
    Page.Size (append_pages N key ref NP pP).1 ≤ Z.of_nat N ∧
    Page.Size (append_pages N key ref NP pP).2 ≤ Z.of_nat N ∧
    (Page.IsLeaf pP = false → Page.keys (append_pages N key ref NP pP).2 = []) ∧
    Page.keys (append_pages N key ref NP pP).1 = Page.keys pP.
Proof.
  destruct (sinv_info HS _ _ astep_pgV_P) as [[d a c] Hi].
  destruct (Hright _ Hi) as [Hc Ha]. simpl in Hc, Ha. subst c.
  exists d, a. split; [done|]. split; [done|].
  destruct (s_page _ _ _ HS _ _ _ astep_pgV_P Hi) as [_ Hlk].
  unfold link_ok in Hlk. simpl in Hlk.
  assert (HV : Page.keys pV = Page.keys pP ++ [Key.mk key ref]).
  { unfold pV. simpl. by apply place_last. }
  pose proof (place_last key ref (Page.keys pP) Hlt) as HV'.
  unfold append_pages.
  destruct (Page.IsLeaf pP) eqn:Hleaf.
  - destruct (sinv_leaf HS _ _ _ astep_pgV_P Hi Hleaf) as (Hd & Hok & Hne).
    rewrite HV in Hok. simpl in Hd, Hok, Hne. subst d.
    destruct (leaf_ok_app _ _ _ _ _ Hok) as (Hok1 & Hok2 & _).
    rewrite insert_room by (unfold Page.Size; simpl; lia).
    split.
    { split; [done|]. split; [done|]. intros _. apply astep_keys_ne. }
    split.
    { split; [done|]. split; [done|done]. }
    simpl. rewrite HV', Hlk, ?Hleaf. split_and!; try done.
    + intros x [Hx|Hx]; apply elem_of_app; [by left|by right].
    + exists (Key.mk key ref). split; [|done]. apply elem_of_app. right. by left.
    + unfold Page.Size in *. simpl. rewrite Hleaf in *. lia.
    + unfold Page.Size. simpl. lia.
  - destruct (sinv_internal HS _ _ _ astep_pgV_P Hi Hleaf) as (d' & Hd & Hch).
    rewrite HV in Hch. simpl in Hd, Hch. subst d.
    apply chain_app in Hch as [Hch1 Hch2].
    split; [by split|]. split; [by split|].
    simpl. rewrite HV', Hlk, ?Hleaf. split_and!; try done.
    + intros x [Hx|Hx]; [apply elem_of_app; by left|by apply elem_of_nil in Hx].
    + exists (Key.mk key ref). split; [|done]. apply elem_of_app. right. by left.
    + unfold Page.Size in *. simpl. rewrite Hleaf in *. lia.
    + unfold Page.Size. simpl. lia.
Qed.

Lemma append_step_ok :
  ∃ pQ pg1 G',
    zget (Btree.pager b) Q = Some pQ ∧ Page.IsLeaf pQ = false ∧
    Btree.appendPage_step N key ref (pre ++ [Q; P]) b =
      Ok ((NP, Q, (Page.Insert N key NP pQ).1),
          Btree.set_pager (zset Q ((Page.Insert N key NP pQ).2) pg1) b) ∧
    zget pg1 Q = Some pQ ∧ CapInv N pg1 ∧ (key ∉ Key.Get <$> Page.keys pQ) ∧
    length pg1 = S (length (Btree.pager b)) ∧
    SInv (zset Q (Page.set_keys (Page.place key NP (Page.keys pQ)) pQ) pg1) (Btree.root b) G' ∧
    links (zset Q (Page.set_keys (Page.place key NP (Page.keys pQ)) pQ) pg1) (pre ++ [Q]) ∧
    (∀ x, leafrec (zset Q (Page.set_keys (Page.place key NP (Page.keys pQ)) pQ) pg1) x ↔
          leafrec pgV x) ∧
    leaf_count (zset Q (Page.set_keys (Page.place key NP (Page.keys pQ)) pQ) pg1) =
      leaf_count pgV ∧
    (Prov pgV → Prov (zset Q (Page.set_keys (Page.place key NP (Page.keys pQ)) pQ) pg1)) ∧
    (∀ iQ, zget G' Q = Some iQ → hi iQ = None ∧ klt (lo iQ) key) ∧
    (∀ r p x, zget pg1 r = Some p → Page.IsLeaf p = false →
              x ∈ Page.keys p → klt (Key.Get x) key).
Proof.
  destruct astep_pQ as (pQ & HQ & HQV & HQl & HQc).
  destruct astep_pages as (d & a & HGP & Has & HokP & HokNP &
                          HnP & HnNP & HlP & HlNP & Hperm & Hsub & Hsep & HszP & HszNP & HkNP & HkP).
  set (pP' := (append_pages N key ref NP pP).1) in *.
  set (pNP' := (append_pages N key ref NP pP).2) in *.
  exists pQ, (zset P pP' (Btree.pager b) ++ [pNP']),
    (zset P (mkInfo d a (Some key)) G ++ [mkInfo d key None]).
  assert (Hpg1 : zset P pP' (Btree.pager b) = zset P pP' pgV).
  { unfold pgV. by rewrite zset_zset. }
  assert (HNP : NP = Z.of_nat (length pgV)) by (by rewrite astep_pgV_len).
  split; [done|]. split; [done|]. split.
  { rewrite (appendPage_step_run N key ref pre Q P b pP pQ HP HQ); [|apply not_eq_sym, astep_Q_ne_P].
    done. }
  split.
  { apply zget_app_l. rewrite zget_set_ne; [done|]. apply not_eq_sym, astep_Q_ne_P. }
  split.
  { intros r p. rewrite zget_snoc, zset_length. case_bool_decide.
    - by intros [= <-].
    - rewrite zget_set. case_bool_decide.
      + subst r. rewrite HP. simpl. by intros [= <-].
      + apply Hcap. }
  assert (Hsc : lt_hi key None) by done.
  pose proof (divide_SInv pgV (Btree.root b) G P Q pV pQ pP' pNP' d a None key HS astep_pgV_P
                HGP HQV HQl HQc Has Hsc HokP HokNP) as HD.
  rewrite <- HNP in HD. specialize (HD HnP HnNP).
  destruct HD as [HS' Hfr].
  split; [done|]. split.
  { rewrite length_app, zset_length. simpl. lia. }
  rewrite Hpg1.
  split; [done|]. split.
  { eapply links_shorten; [exact Hlinks|]. intros r Hr.
    apply list_elem_of_lookup in Hr as [n Hn].
    destruct (s_root _ _ _ HS) as (h & Hroot & _).
    assert (Hpath : (pre ++ [Q; P]) !! n = Some r) by (by apply lookup_app_l_Some).
    pose proof (lookup_lt_Some _ _ _ Hn) as Hlt'.
    rewrite HNP. apply divide_lookup.
    - intros ->. assert (n = length pre); [|lia].
      eapply (links_inj HS _ _ _ _ _ Q Hlinks Hhead Hroot Hpath).
      by rewrite lookup_app_r, Nat.sub_diag.
    - intros ->. assert (n = S (length pre)); [|lia].
      eapply (links_inj HS _ _ _ _ _ P Hlinks Hhead Hroot Hpath).
      rewrite lookup_app_r by lia.
      by replace (S (length pre) - length pre)%nat with 1%nat by lia.
    - intros ->.
      destruct (links_lvl HS _ _ _ Hlinks Hhead Hroot _ _ Hpath) as (i & Hi & _).
      apply zget_lt in Hi. rewrite (s_len _ _ _ HS) in Hi. lia. }
  rewrite HNP in HnP |- *.
  split.
  { apply (divide_leafrec pgV (Btree.root b) G P Q pV pQ pP' pNP' d a None key HS astep_pgV_P
             HGP HQV HQl HQc HlP HlNP Hperm Hsub). }
  split.
  { apply (divide_leaf_count pgV (Btree.root b) G P Q pV pQ pP' pNP' d a None key HS astep_pgV_P
             HGP HQV HQl HQc HlP HlNP Hperm). }
  split.
  { apply (divide_Prov pgV (Btree.root b) G P Q pV pQ pP' pNP' d a None key HS astep_pgV_P
             HGP HQV HQl HQc Has Hsc HokP HokNP HnP HnNP HlP HlNP Hperm Hsub Hsep). }
  split.
  { intros iQ HiQ.
    rewrite zget_divide in HiQ.
    rewrite bool_decide_false in HiQ by (apply zget_lt in HQ; rewrite (s_len _ _ _ HS), astep_pgV_len; lia).
    rewrite bool_decide_false in HiQ by apply astep_Q_ne_P.
    destruct (sinv_internal HS _ _ _ HQV HiQ HQl) as (d' & Hd' & Hch).
    destruct (chain_child _ _ _ _ _ _ _ Hch HQc) as (lo' & hi' & Hz & Hle & _ & Hhi).
    rewrite HGP in Hz. injection Hz as <- <- <-.
    split; [by apply lt_hi_None_inv|korder]. }
  { intros r p x. rewrite zget_snoc, zset_length. case_bool_decide.
    - intros [= <-] Hl Hx. unfold pNP' in *. rewrite HkNP in Hx; [by apply elem_of_nil in Hx|].
      rewrite HlNP in Hl. done.
    - rewrite zget_set. case_bool_decide.
      + subst r. rewrite astep_pgV_P. simpl. intros [= <-] Hl Hx. apply Hlt.
        by rewrite HkP in Hx.
      + unfold pgV. rewrite zget_set_ne by done. apply Hint. }
Qed.

End AppendStep.

Lemma appendPage_rec_unfold N fuel key ref path b :
  Btree.appendPage_rec N (S fuel) key ref path b =
  match Btree.appendPage_step N key ref path b with
  | Ok ((NP, parent, ok), b1) =>
      if ok then Ok (tt, b1)
      else if parent =? Btree.root b1 then
        match Btree.promote_root b1 with
        | Ok (NR, b2) => Btree.appendPage_rec N fuel key NP [NR; Btree.root b1] b2
        | Panic m => Panic m
        | Diverge => Diverge
        end
      else Btree.appendPage_rec N fuel key NP (removelast path) b1
  | Panic m => Panic m
  | Diverge => Diverge
  end.
Proof.
  simpl. unfold Btree.bind at 1.
  destruct (Btree.appendPage_step N key ref path b) as [[[[NP parent] ok] b1]| |]; try done.
  destruct ok; [done|]. unfold Btree.bind at 1. unfold Btree.gets.
  destruct (parent =? Btree.root b1); [|done].
  unfold Btree.bind at 1. by destruct (Btree.promote_root b1) as [[NR b2]| |].
Qed.

Section AppendRec.
Context (N : nat).
Hypothesis HN : (2 ≤ N)%nat.

(** When the parent has room the step ends the recursion. *)
Lemma append_rec_room fuel b G key ref pre Q P pP :
  zget (Btree.pager b) P = Some pP → Page.Size pP = Z.of_nat N →
  (∀ x, x ∈ Page.keys pP → klt (Key.Get x) key) →
  SInv (zset P (Page.set_keys (Page.place key ref (Page.keys pP)) pP) (Btree.pager b))
    (Btree.root b) G →
  links (zset P (Page.set_keys (Page.place key ref (Page.keys pP)) pP) (Btree.pager b))
    (pre ++ [Q; P]) →
  (pre ++ [Q; P]) !! O = Some (Btree.root b) → CapInv N (Btree.pager b) →
  (∀ iP, zget G P = Some iP → hi iP = None ∧ klt (lo iP) key) →
  (∀ r p x, zget (Btree.pager b) r = Some p → Page.IsLeaf p = false →
            x ∈ Page.keys p → klt (Key.Get x) key) →
  (∀ pQ, zget (Btree.pager b) Q = Some pQ → Page.Size pQ < Z.of_nat N) →
  ∃ b', Btree.appendPage_rec N (S fuel) key ref (pre ++ [Q; P]) b = Ok (tt, b') ∧
        split_post N b (zset P (Page.set_keys (Page.place key ref (Page.keys pP)) pP)
                        (Btree.pager b)) b'.
Proof.
  intros HP Hfull Hlt HS Hlinks Hhead Hcap Hright Hint Hroom.
  destruct (append_step_ok N b G key ref pre Q P pP HN HP Hfull Hlt HS Hlinks Hhead Hcap
              Hright Hint)
    as (pQ & pg1 & G' & HQ & HQl & Hrun & HQ1 & Hcap1 & Hfr & Hlen & HS' & Hl' & Hrec & Hcnt &
        Hprov & Hright' & Hint').
  rewrite appendPage_rec_unfold, Hrun.
  rewrite insert_room by (by apply Hroom). simpl.
  eexists. split; [done|].
  split; [by exists G'|]. simpl. split_and!; try done.
  apply CapInv_zset; [done|]. rewrite size_place by done.
  specialize (Hroom _ HQ). lia.
Qed.

Lemma append_rec_ok pre : ∀ fuel b G key ref Q P pP,
  (length pre + 2 ≤ fuel)%nat →
  zget (Btree.pager b) P = Some pP → Page.Size pP = Z.of_nat N →
  (∀ x, x ∈ Page.keys pP → klt (Key.Get x) key) →
  SInv (zset P (Page.set_keys (Page.place key ref (Page.keys pP)) pP) (Btree.pager b))
    (Btree.root b) G →
  links (zset P (Page.set_keys (Page.place key ref (Page.keys pP)) pP) (Btree.pager b))
    (pre ++ [Q; P]) →
  (pre ++ [Q; P]) !! O = Some (Btree.root b) → CapInv N (Btree.pager b) →
  (∀ iP, zget G P = Some iP → hi iP = None ∧ klt (lo iP) key) →
  (∀ r p x, zget (Btree.pager b) r = Some p → Page.IsLeaf p = false →
            x ∈ Page.keys p → klt (Key.Get x) key) →
  ∃ b', Btree.appendPage_rec N fuel key ref (pre ++ [Q; P]) b = Ok (tt, b') ∧
        split_post N b (zset P (Page.set_keys (Page.place key ref (Page.keys pP)) pP)
                        (Btree.pager b)) b'.
Proof.
  induction pre as [|GP pre IH] using rev_ind;
    intros fuel b G key ref Q P pP Hfuel HP Hfull Hlt HS Hlinks Hhead Hcap Hright Hint.
  - (* the parent is the root *)
    destruct fuel as [|fuel]; [simpl in Hfuel; lia|].
    destruct (append_step_ok N b G key ref [] Q P pP HN HP Hfull Hlt HS Hlinks Hhead Hcap
                Hright Hint)
      as (pQ & pg1 & G' & HQ & HQl & Hrun & HQ1 & Hcap1 & Hfr & Hlen & HS' & Hl' & Hrec & Hcnt &
          Hprov & Hright' & Hint').
    rewrite appendPage_rec_unfold, Hrun.
    destruct (Z.leb_spec (Z.of_nat N) (Page.Size pQ)) as [Hle|Hlt'].
    + (* the root is full: promote it *)
      rewrite insert_full by done. simpl.
      simpl in Hhead. injection Hhead as HQroot. subst Q.
      rewrite Z.eqb_refl. simpl.
      rewrite promote_root_run. simpl.
      rewrite (zset_id _ _ _ HQ1). rewrite Hlen.
      set (R := Btree.root b) in *.
      set (NP := Z.of_nat (length (Btree.pager b))) in *.
      set (NR := Z.of_nat (S (length (Btree.pager b)))).
      set (nr := Page.mk false (-1) R []).
      set (b2 := Btree.mk (pg1 ++ [nr]) (Btree.values b) NR (Btree.size b)).
      set (pgV' := zset R (Page.set_keys (Page.place key NP (Page.keys pQ)) pQ) pg1) in *.
      destruct (s_root _ _ _ HS') as (h & Hroot' & _).
      pose proof (promote_SInv _ _ _ _ HS' Hroot') as HS2.
      assert (HlenV : length pgV' = S (length (Btree.pager b))).
      { unfold pgV'. by rewrite zset_length. }
      rewrite HlenV in HS2. fold NR in HS2. fold nr in HS2.
      assert (HpgV2 : zset R (Page.set_keys (Page.place key NP (Page.keys pQ)) pQ) (pg1 ++ [nr])
                      = pgV' ++ [nr]).
      { unfold pgV'. by eapply zset_app_l. }
      destruct fuel as [|fuel]; [simpl in Hfuel; lia|].
      destruct (append_rec_room fuel b2 (G' ++ [mkInfo (S (S h)) [] None]) key NP [] NR R pQ)
        as (b' & Hrun' & Hpost).
      * simpl. by apply zget_app_l.
      * pose proof (Hcap1 _ _ HQ1). lia.
      * intros x Hx. by eapply Hint'.
      * simpl. rewrite HpgV2. exact HS2.
      * simpl. rewrite HpgV2. intros n q p Hq Hp.
        destruct n as [|[|n]]; simpl in Hq, Hp; try done.
        injection Hq as <-. injection Hp as <-.
        exists nr. split; [|split; [done|]].
        -- unfold NR. rewrite <- HlenV. by rewrite zget_snoc, bool_decide_true.
        -- simpl. apply child_nil. done.
      * done.
      * simpl. apply CapInv_snoc; [done|]. unfold Page.Size. simpl. lia.
      * intros iQ HiQ. apply Hright'. rewrite zget_snoc in HiQ.
        rewrite bool_decide_false in HiQ; [done|].
        apply zget_lt in Hroot'. lia.
      * simpl. intros r p x. rewrite zget_snoc. case_bool_decide.
        -- intros [= <-] _ Hx. by apply elem_of_nil in Hx.
        -- apply Hint'.
      * simpl. intros pQ0. unfold NR. rewrite <- Hlen.
        rewrite zget_snoc, bool_decide_true by done. intros [= <-].
        unfold Page.Size. simpl. lia.
      * exists b'. split; [exact Hrun'|].
        destruct Hpost as (HG & Hc & Hv & Hs & Hr & Hn & Hp). simpl in *.
        rewrite HpgV2 in Hr, Hn, Hp.
        split; [done|]. split; [done|]. split; [done|]. split; [done|]. split_and!.
        -- intros x. rewrite Hr, leafrec_snoc by done. apply Hrec.
        -- rewrite Hn, leaf_count_snoc. unfold leaf_len. simpl. lia.
        -- intros HPr. apply Hp. apply Prov_snoc; [done|done|]. by apply Hprov.
    + rewrite insert_room by done. simpl.
      eexists. split; [done|].
      split; [by exists G'|]. simpl. split_and!; try done.
      apply CapInv_zset; [done|]. rewrite size_place by done. lia.
  - (* the parent has a parent *)
    destruct fuel as [|fuel]; [rewrite length_app in Hfuel; simpl in Hfuel; lia|].
    destruct (append_step_ok N b G key ref (pre ++ [GP]) Q P pP HN HP Hfull Hlt HS Hlinks
                Hhead Hcap Hright Hint)
      as (pQ & pg1 & G' & HQ & HQl & Hrun & HQ1 & Hcap1 & Hfr & Hlen & HS' & Hl' & Hrec & Hcnt &
          Hprov & Hright' & Hint').
    rewrite appendPage_rec_unfold, Hrun.
    destruct (Z.leb_spec (Z.of_nat N) (Page.Size pQ)) as [Hle|Hlt'].
    + rewrite insert_full by done. simpl.
      assert (HQroot : Q ≠ Btree.root b).
      { intros E. destruct (s_root _ _ _ HS) as (h & Hroot & _).
        assert (length (pre ++ [GP]) = O) as E0; [|rewrite length_app in E0; simpl in E0; lia].
        eapply (links_inj HS _ _ _ _ _ Q Hlinks Hhead Hroot).
        - by rewrite lookup_app_r, Nat.sub_diag.
        - rewrite Hhead. by rewrite E. }
      destruct (Z.eqb_spec Q (Btree.root b)) as [?|_]; [done|].
      rewrite (zset_id _ _ _ HQ1).
      replace (removelast ((pre ++ [GP]) ++ [Q; P])) with (pre ++ [GP; Q]).
      2:{ replace ((pre ++ [GP]) ++ [Q; P]) with ((pre ++ [GP; Q]) ++ [P]).
          - by rewrite removelast_last.
          - by rewrite <- !app_assoc. }
      set (NP := Z.of_nat (length (Btree.pager b))) in *.
      destruct (IH fuel (Btree.set_pager pg1 b) G' key NP GP Q pQ) as (b' & Hrun' & Hpost).
      * rewrite length_app in Hfuel. simpl in Hfuel. lia.
      * done.
      * pose proof (Hcap1 _ _ HQ1). lia.
      * intros x Hx. by eapply Hint'.
      * done.
      * simpl. by rewrite <- app_assoc in Hl'.
      * simpl. rewrite <- app_assoc in Hhead. simpl in Hhead.
        destruct pre; simpl in *; done.
      * done.
      * done.
      * done.
      * exists b'. split; [exact Hrun'|].
        destruct Hpost as (HG & Hc & Hv & Hs & Hr & Hn & Hp). simpl in *.
        split; [done|]. split; [done|]. split; [done|]. split; [done|]. split_and!.
        -- intros x. rewrite Hr. apply Hrec.
        -- by rewrite Hn.
        -- intros HPr. apply Hp. by apply Hprov.
    + rewrite insert_room by done. simpl.
      eexists. split; [done|].
      split; [by exists G'|]. simpl. split_and!; try done.
      apply CapInv_zset; [done|]. rewrite size_place by done. lia.
Qed.

End AppendRec.

Section OpsNext.
Context (N : nat).
Hypothesis HN : (2 ≤ N)%nat.

Lemma append_or_insert b G k r pre Q P pP iP :
  SInv (Btree.pager b) (Btree.root b) G → CapInv N (Btree.pager b) →
  (pre ++ [Q; P]) !! O = Some (Btree.root b) →
  zget (Btree.pager b) P = Some pP → Page.IsLeaf pP = true →
  zget G P = Some iP → lvl iP = O → hi iP = None → klt (lo iP) k →
  links (Btree.pager b) (pre ++ [Q; P]) →
  (∀ x, x ∈ Page.keys pP → klt (Key.Get x) k) →
  (∀ r p x, zget (Btree.pager b) r = Some p → Page.IsLeaf p = false →
            x ∈ Page.keys p → klt (Key.Get x) k) →
  ∃ b1,
    Btree.bind (Btree.call P (Page.Insert N k r))
      (fun ok => if ok then Btree.ret tt else Btree.appendPage N k r (pre ++ [Q; P])) b
    = Ok (tt, b1) ∧
    split_post N b (zset P (Page.set_keys (Page.place k r (Page.keys pP)) pP) (Btree.pager b)) b1.
Proof.
  intros HS Hcap Hhead HP HPl HiP HlP Hhi Hlo Hlk Hlt Hint.
  set (pV := Page.set_keys (Page.place k r (Page.keys pP)) pP).
  set (pgV := zset P pV (Btree.pager b)).
  destruct (s_page _ _ _ HS _ _ _ HP HiP) as [Hok Hlink].
  assert (Hr : in_range iP k).
  { split; [korder|]. by rewrite Hhi. }
  assert (HSV : SInv pgV (Btree.root b) G).
  { apply (SInv_update _ _ _ P pP pV iP HS HP HiP).
    - unfold page_ok in *. rewrite HlP in *. destruct Hok as (? & Hok & ?).
      destruct Hr. split_and!; [done| |].
      + simpl. by apply place_leaf_ok.
      + intros _. apply place_not_nil.
    - eapply link_ok_ext; [| | |exact Hlink]; done. }
  assert (HlkV : links pgV (pre ++ [Q; P])).
  { eapply links_frame; [exact Hlk|]. intros q pq Hq Hleaf. unfold pgV.
    rewrite zget_set_ne; [done|]. intros ->. congruence. }
  rewrite (bind_Ok _ _ _ _ _ (call_Ok _ _ _ _ HP)).
  destruct (Z.leb_spec (Z.of_nat N) (Page.Size pP)) as [Hle|Hlt'].
  - rewrite insert_full by done. simpl.
    rewrite (zset_id _ _ _ HP), set_pager_id.
    unfold Btree.appendPage.
    destruct (append_rec_ok N HN pre (S (length (pre ++ [Q; P]))) b G k r Q P pP)
      as (b1 & Hrun & Hpost); try done.
    + rewrite length_app. simpl. lia.
    + specialize (Hcap _ _ HP). lia.
    + intros iP' HiP'. rewrite HiP in HiP'. by injection HiP' as <-.
    + exists b1. split; [|done]. by rewrite Hrun.
  - rewrite insert_room by done. simpl. eexists. split; [done|].
    split; [by exists G|]. simpl. split_and!; try done.
    apply CapInv_zset; [done|]. unfold pV. rewrite size_place; [lia|].
    by apply fresh_of_lt.
Qed.

Lemma PutNext_ok b m k v :
  Rep N b m → k ≠ [] → (∀ k', is_Some (m !! k') → klt k' k) →
  ∃ b', Btree.PutNext N (Some k) (Some v) b = Ok (tt, b') ∧ Rep N b' (<[k := v]> m).
Proof.
  intros HR Hk Hmax. destruct (r_sinv _ _ _ HR) as [G HS].
  destruct (s_root _ _ _ HS) as (h & Hroot & _ & Hh).
  destruct (sinv_page_of HS _ _ Hroot) as [pR HpR].
  assert (Hall : ∀ x, leafrec (Btree.pager b) x → klt (Key.Get x) k).
  { intros x Hx. apply Hmax. by destruct (r_vals _ _ _ HR x Hx). }
  assert (Hint : ∀ r p x, zget (Btree.pager b) r = Some p → Page.IsLeaf p = false →
                          x ∈ Page.keys p → klt (Key.Get x) k).
  { intros r p x Hp Hl Hx. destruct (r_prov _ _ _ HR r p x Hp Hl Hx) as (y & Hy & <-).
    by apply Hall. }
  destruct (descend_last_ok b G k HS Hint (S (length (Btree.pager b))) (Btree.root b) pR _
              [Btree.root b] HpR Hroot)
    as (rest & P & pP & iP & Hrun & Hlast & HP & HPl & HiP & HlP & HhP & HloP & Hlk & Hlen);
    [done|simpl; by apply klt_nil|simpl; lia|].
  simpl in Hlen.
  destruct rest as [|r1 rest] using rev_ind; [done|]. clear IHrest.
  assert (P = r1) as ->.
  { rewrite app_comm_cons, last_snoc in Hlast. by injection Hlast as <-. }
  assert (∃ pre Q, Btree.root b :: rest = pre ++ [Q]) as (pre & Q & E).
  { destruct rest as [|r0 rest0 _] using rev_ind.
    - by exists [], (Btree.root b).
    - by exists (Btree.root b :: rest0), r0. }
  assert (Epath : Btree.root b :: rest ++ [r1] = pre ++ [Q; r1]).
  { rewrite app_comm_cons, E, <- app_assoc. done. }
  assert (Hm : m !! k = None).
  { destruct (m !! k) as [w|] eqn:Em; [|done]. exfalso.
    assert (klt k k) by (apply Hmax; by rewrite Em). korder. }
  unfold Btree.PutNext. destruct k as [|c k]; [done|]. rewrite guard_ok. cbv iota. simpl default.
  unfold Btree.bind at 1. unfold Btree.gets at 1.
  rewrite (bind_Ok _ _ _ _ _ (pagerGet_Ok _ _ _ HpR)).
  unfold Btree.bind at 1. unfold Btree.gets at 1. simpl id.
  unfold Btree.bind at 1. unfold Btree.lift at 1. rewrite Hrun. simpl app. rewrite Epath.
  cbv beta iota.
  unfold Btree.bind at 1. unfold Btree.gets at 1.
  unfold Btree.bind at 1. unfold Btree.modify at 1.
  set (b0 := Btree.set_values (Btree.values b ++ [copyBytes v]) b).
  rewrite (bind_Ok _ _ _ _ _ (last_index_1' _ _ _ _)).
  destruct (append_or_insert b0 G (c :: k) (Z.of_nat (length (Btree.values b))) pre Q r1 pP iP)
    as (b1 & Hrun1 & Hpost); try done.
  { exact (r_cap _ _ _ HR). }
  { by rewrite <- Epath. }
  { by rewrite <- Epath. }
  { intros x Hx. apply Hall. by exists r1, pP. }
  unfold Btree.bind in Hrun1. change (copyBytes (c :: k)) with (c :: k).
  unfold Btree.bind at 1.
  destruct (Btree.call r1 (Page.Insert N (c :: k) (Z.of_nat (length (Btree.values b)))) b0)
    as [[ok b0']| |]; try done.
  unfold Btree.bind at 1. rewrite Hrun1.
  unfold Btree.modify. eexists. split; [done|].
  destruct Hpost as (HG & Hcap & Hv & Hsz & Hrec & Hcnt & Hprov).
  simpl in Hv, Hsz, Hrec, Hcnt, Hprov.
  assert (Hb1 : Btree.set_size (Btree.wrap64 (Btree.size b1 + 1)) b1 =
                Btree.mk (Btree.pager b1) (Btree.values b ++ [v]) (Btree.root b1)
                  (Btree.wrap64 (Btree.size b + 1))).
  { destruct b1. simpl in *. by subst. }
  rewrite Hb1.
  apply (Rep_insert N HN b m
           (Btree.mk (Btree.pager b1) (Btree.values b) (Btree.root b1) (Btree.size b))
           (c :: k) v r1 pP HR Hm HP HPl).
  split; [done|]. simpl. by split_and!.
Qed.

End OpsNext.

(** ** The empty tree and sequences of operations *)

Lemma zget_two {A} (a c x : A) r :
  zget [a; c] r = Some x → (r = 0 ∧ x = a) ∨ (r = 1 ∧ x = c).
Proof.
  unfold zget. destruct (Z.ltb_spec r 0); [done|].
  destruct (Z.to_nat r) as [|[|n]] eqn:E; simpl; intros [= <-]; [left|right]; split; try done; lia.
Qed.

Lemma SInv_new :
  SInv (Btree.pager Btree.NewInMemoryBtree) (Btree.root Btree.NewInMemoryBtree)
    [mkInfo 1 [] None; mkInfo 0 [] None].
Proof.
  split.
  - done.
  - exists O. split; [done|]. split; [|simpl; lia].
    intros r i Hi. apply zget_two in Hi as [[_ ->]|[_ ->]]; simpl; lia.
  - intros r p i Hp Hi.
    apply zget_two in Hp as [[-> ->]|[-> ->]]; apply zget_two in Hi as [[? ->]|[? ->]];
      try done.
  - intros r r' i i' k Hi Hi'.
    apply zget_two in Hi as [[-> ->]|[-> ->]]; apply zget_two in Hi' as [[-> ->]|[-> ->]];
      done.
Qed.

Lemma leafrec_new x : ¬ leafrec (Btree.pager Btree.NewInMemoryBtree) x.
Proof.
  intros (r & p & Hp & Hl & Hx).
  apply zget_two in Hp as [[-> ->]|[-> ->]]; [done|]. by apply elem_of_nil in Hx.
Qed.

Lemma Rep_new N : (1 ≤ N)%nat → Rep N Btree.NewInMemoryBtree ∅.
Proof.
  intros HN. split.
  - eexists. apply SInv_new.
  - intros r p Hp. apply zget_two in Hp as [[-> ->]|[-> ->]]; unfold Page.Size; simpl; lia.
  - intros x Hx. by apply leafrec_new in Hx.
  - intros k [v Hv]. by rewrite lookup_empty in Hv.
  - intros x y Hx. by apply leafrec_new in Hx.
  - done.
  - done.
  - intros r p x Hp Hl Hx.
    apply zget_two in Hp as [[-> ->]|[-> ->]]; [|done]. by apply elem_of_nil in Hx.
Qed.

Section Runs.
Context (N : nat).
Hypothesis HN : (2 ≤ N)%nat.

Lemma apply_op_ok b m o :
  Rep N b m → legal_op m o →
  ∃ b', apply_op N o b = Ok (tt, b') ∧ Rep N b' (model_step m o).
Proof.
  intros HR Hl. destruct o as [k v|k v|k v]; simpl in *.
  - destruct (Put_ok N HN b m k v HR Hl) as (b' & Hrun & HR').
    exists b'. split; [|done]. unfold Btree.bind. by rewrite Hrun.
  - by apply Append_ok.
  - destruct Hl as [Hk Hmax]. by apply PutNext_ok.
Qed.

Lemma run_ops_from ops : ∀ b m,
  Rep N b m → legal_from m ops →
  ∃ b', run_ops N ops b = Ok (tt, b') ∧ Rep N b' (fold_left model_step ops m).
Proof.
  induction ops as [|o ops IH]; intros b m HR Hl; simpl in *.
  - by exists b.
  - destruct Hl as [Ho Hl].
    destruct (apply_op_ok b m o HR Ho) as (b1 & Hrun & HR1).
    destruct (IH b1 _ HR1 Hl) as (b' & Hrun' & HR').
    exists b'. split; [|done]. unfold Btree.bind. by rewrite Hrun.
Qed.

Lemma run_ops_ok ops :
  legal ops →
  ∃ b, run_ops N ops Btree.NewInMemoryBtree = Ok (tt, b) ∧ Rep N b (model ops).
Proof.
  intros Hl. apply run_ops_from; [|done]. apply Rep_new. lia.
Qed.

End Runs.

(** ** Prefixes and the ordering *)

Lemma hasPrefix_le k p : hasPrefix k p = true → kle p k.
Proof.
  revert k; induction p as [|a p IH]; intros [|c k]; simpl; try done.
  intros H. apply andb_true_iff in H as [E H]. apply N.eqb_eq in E.
  specialize (IH _ H). unfold kle, keyLess in *. simpl.
  rewrite <- E, N.compare_refl. done.
Qed.

Lemma hasPrefix_above x y p :
  kle p x → hasPrefix x p = false → klt x y → hasPrefix y p = false.
Proof.
  revert x y; induction p as [|a p IH]; intros [|c x] [|d y]; simpl; try done.
  unfold kle, klt, keyLess. simpl.
  destruct (N.compare_spec (Byte.to_N c) (Byte.to_N a)) as [E|L|L]; try done.
  - rewrite E, N.eqb_refl. simpl.
    destruct (N.compare_spec (Byte.to_N a) (Byte.to_N d)) as [E'|L'|L']; try done.
    + rewrite E', N.eqb_refl. simpl. apply IH.
    + intros _ _ _. apply andb_false_iff. left. apply N.eqb_neq. lia.
  - intros _ _.
    destruct (N.compare_spec (Byte.to_N c) (Byte.to_N d)) as [E'|L'|L']; try done;
      intros _; apply andb_false_iff; left; apply N.eqb_neq; lia.
Qed.

Lemma sorted_from_hi_weaken lo l h h' :
  sorted_from lo l (Some h) → kle h h' → sorted_from lo l (Some h').
Proof.
  revert lo; induction l as [|x l IH]; intros lo; simpl.
  - intros. korder.
  - intros [? ?] ?. split; [done|]. by apply IH.
Qed.

Lemma leaf_ok_join lo l1 h l2 :
  leaf_ok lo l1 (Some h) → leaf_ok h l2 None → l2 ≠ [] → (l1 = [] → kle lo h) →
  leaf_ok lo (l1 ++ l2) None.
Proof.
  intros H1 H2 Hne Hle. destruct l2 as [|y l2]; [done|]. simpl in H2. destruct H2 as [Hy H2].
  destruct l1 as [|x l1]; simpl.
  - specialize (Hle eq_refl). split; [korder|done].
  - simpl in H1. destruct H1 as [Hx H1]. split; [done|].
    apply sorted_from_app. split; [|done]. by eapply sorted_from_hi_weaken.
Qed.

Lemma leaf_ok_tail lo x l hi : leaf_ok lo (x :: l) hi → leaf_ok (Key.Get x) l hi.
Proof.
  simpl. intros [_ H]. destruct l as [|y l]; [done|]. simpl in *. destruct H. split; [korder|done].
Qed.

Lemma leaf_ok_lower lo lo' l hi : leaf_ok lo l hi → kle lo' lo → leaf_ok lo' l hi.
Proof. destruct l as [|x l]; [done|]. simpl. intros [? ?] ?. split; [korder|done]. Qed.

(** ** The records with a prefix are the first ones from the prefix on *)

Lemma while_prefix_elem p l :
  leaf_ok p l None →
  ∀ x, x ∈ while_prefix p l ↔ x ∈ l ∧ hasPrefix (Key.Get x) p = true.
Proof.
  induction l as [|z l IH]; intros Hl x; simpl.
  - split; [intros H; by apply elem_of_nil in H|intros [H _]; by apply elem_of_nil in H].
  - assert (Hz : kle p (Key.Get z)) by (by destruct Hl).
    destruct (hasPrefix (Key.Get z) p) eqn:E.
    + rewrite !elem_of_cons, IH.
      * split; [intros [->|[? ?]]; auto|intros [[->|?] ?]; auto].
      * eapply leaf_ok_lower; [by eapply leaf_ok_tail|done].
    + split; [intros H; by apply elem_of_nil in H|]. intros [H Hx]. exfalso.
      apply elem_of_cons in H as [->|H]; [congruence|].
      destruct Hl as [_ Hs]. destruct (sorted_from_elem _ _ _ _ Hs H) as [Hlt _].
      rewrite (hasPrefix_above (Key.Get z) (Key.Get x) p Hz E Hlt) in Hx. done.
Qed.

Lemma while_prefix_prefix p l : ∃ l', l = while_prefix p l ++ l'.
Proof.
  induction l as [|z l [l' IH]]; simpl; [by exists []|].
  destruct (hasPrefix (Key.Get z) p); [|by eexists].
  exists l'. simpl. by rewrite <- IH.
Qed.

Lemma leaf_ok_strongly lo l hi :
  leaf_ok lo l hi → StronglySorted (λ x y, klt (Key.Get x) (Key.Get y)) l.
Proof.
  revert lo; induction l as [|z l IH]; intros lo Hl; constructor.
  - eapply IH. by eapply leaf_ok_tail.
  - apply Forall_forall. intros x Hx. destruct Hl as [_ Hs].
    by destruct (sorted_from_elem _ _ _ _ Hs Hx).
Qed.

Lemma while_prefix_strongly b p l lo :
  leaf_ok lo l None → StronglySorted by_key (yield b <$> while_prefix p l).
Proof.
  intros Hl. apply leaf_ok_strongly in Hl.
  destruct (while_prefix_prefix p l) as [l' E]. rewrite E in Hl.
  apply StronglySorted_app_1_l in Hl.
  eapply StronglySorted_fmap; [|exact Hl]. done.
Qed.

(** ** Seeking in a page *)

Lemma seek_split lo l hi p :
  leaf_ok lo l hi →
  ∃ l1, l = l1 ++ Page.seek p l ∧ (∀ x, x ∈ l1 → klt (Key.Get x) p) ∧
        leaf_ok p (Page.seek p l) hi.
Proof.
  revert lo; induction l as [|z l IH]; intros lo Hl; simpl.
  - exists []. split_and!; [done| |done]. intros x Hx. by apply elem_of_nil in Hx.
  - destruct (keyLess_cases (Key.Get z) p) as [E|E]; rewrite E.
    + destruct (IH _ (leaf_ok_tail _ _ _ _ Hl)) as (l1 & E1 & H1 & H2).
      exists (z :: l1). split; [simpl; by rewrite <- E1|]. split; [|done].
      intros x Hx. apply elem_of_cons in Hx as [->|Hx]; [done|by apply H1].
    + exists []. split; [done|]. split; [intros x Hx; by apply elem_of_nil in Hx|].
      destruct Hl as [_ Hs]. split; [korder|done].
Qed.

Lemma seek_ge p x l : kle p (Key.Get x) → Page.seek p (x :: l) = x :: l.
Proof. intros H. simpl. unfold kle in H. by rewrite H. Qed.

(** ** The measure of the walk along the leaves *)

Lemma filter_length_lt {A} (f g : A → bool) (l : list A) y :
  (∀ x, f x = true → g x = true) → y ∈ l → g y = true → f y = false →
  (length (List.filter f l) < length (List.filter g l))%nat.
Proof.
  intros Hfg Hy Hg Hf.
  assert (Hle : ∀ l', (length (List.filter f l') ≤ length (List.filter g l'))%nat).
  { induction l' as [|x l' IH]; simpl; [done|].
    destruct (f x) eqn:Ef.
    - rewrite (Hfg _ Ef). simpl. lia.
    - destruct (g x); simpl; lia. }
  induction l as [|x l IH]; [by apply elem_of_nil in Hy|].
  apply elem_of_cons in Hy as [<-|Hy]; simpl.
  - rewrite Hf, Hg. simpl. specialize (Hle l). lia.
  - specialize (IH Hy). destruct (f x) eqn:Ef.
    + rewrite (Hfg _ Ef). simpl. lia.
    + destruct (g x); simpl; lia.
Qed.

Lemma above_lt G r i a :
  zget G r = Some i → lvl i = O → klt a (lo i) →
  (above (lo i) G < above a G)%nat.
Proof.
  intros Hi Hl Ha. unfold above. apply (filter_length_lt _ _ _ i).
  - intros x Hx. apply andb_true_iff in Hx as [-> Hx]. simpl. korder.
  - apply zget_Some in Hi as [_ Hi]. by eapply list_elem_of_lookup_2.
  - rewrite Hl. simpl. done.
  - apply andb_false_iff. right. korder.
Qed.

(** ** One call of [Next] *)

Lemma PageIter_stuck pfx s :
  stuck pfx s → PageIter.Next (PageIter.mk s pfx) = ((false, [], 0), PageIter.mk s pfx).
Proof. unfold PageIter.Next. destruct s as [|x s]; simpl; [done|]. by intros ->. Qed.

Lemma Next_yield b pfx x s r v :
  hasPrefix (Key.Get x) pfx = true → zget (Btree.values b) (Key.Ref x) = Some v →
  Btree.Next b (Btree.mkIter pfx (PageIter.mk (x :: s) pfx) r false) =
  Ok ((true, Key.Get x, v), Btree.mkIter pfx (PageIter.mk s pfx) r false).
Proof.
  intros Hp Hv. unfold Btree.Next, PageIter.Next. simpl. rewrite Hp. simpl.
  rewrite at_index_zget, Hv. done.
Qed.

Lemma Next_end b pfx s r p :
  stuck pfx s → zget (Btree.pager b) r = Some p → Page.NextPage p = -1 →
  Btree.Next b (Btree.mkIter pfx (PageIter.mk s pfx) r false) =
  Ok ((false, [], []), Btree.mkIter pfx (PageIter.mk s pfx) r true).
Proof.
  intros Hs Hp Hn. unfold Btree.Next. simpl. rewrite (PageIter_stuck _ _ Hs). simpl.
  rewrite (pager_get_zget _ _ _ Hp). simpl. rewrite Hn. done.
Qed.

Lemma Next_cross_yield b pfx s r p p' y ys v :
  stuck pfx s → zget (Btree.pager b) r = Some p →
  zget (Btree.pager b) (Page.NextPage p) = Some p' → Page.keys p' = y :: ys →
  kle pfx (Key.Get y) → hasPrefix (Key.Get y) pfx = true →
  zget (Btree.values b) (Key.Ref y) = Some v →
  Btree.Next b (Btree.mkIter pfx (PageIter.mk s pfx) r false) =
  Ok ((true, Key.Get y, v), Btree.mkIter pfx (PageIter.mk ys pfx) (Page.NextPage p) false).
Proof.
  intros Hs Hp Hp' Hk Hy Hpre Hv. unfold Btree.Next. simpl. rewrite (PageIter_stuck _ _ Hs). simpl.
  rewrite (pager_get_zget _ _ _ Hp). simpl.
  destruct (Z.eqb_spec (Page.NextPage p) (-1)) as [E|_].
  { rewrite E in Hp'. done. }
  rewrite (pager_get_zget _ _ _ Hp'). simpl.
  unfold Page_Start. rewrite Hk, (seek_ge _ _ _ Hy). unfold PageIter.Next. simpl.
  rewrite Hpre. simpl. rewrite at_index_zget, Hv. done.
Qed.

Lemma Next_cross_end b pfx s r p p' y ys :
  stuck pfx s → zget (Btree.pager b) r = Some p →
  zget (Btree.pager b) (Page.NextPage p) = Some p' → Page.keys p' = y :: ys →
  kle pfx (Key.Get y) → hasPrefix (Key.Get y) pfx = false →
  Btree.Next b (Btree.mkIter pfx (PageIter.mk s pfx) r false) =
  Ok ((false, [], []),
      Btree.mkIter pfx (PageIter.mk (y :: ys) pfx) (Page.NextPage p) true).
Proof.
  intros Hs Hp Hp' Hk Hy Hpre. unfold Btree.Next. simpl. rewrite (PageIter_stuck _ _ Hs). simpl.
  rewrite (pager_get_zget _ _ _ Hp). simpl.
  destruct (Z.eqb_spec (Page.NextPage p) (-1)) as [E|_].
  { rewrite E in Hp'. done. }
  rewrite (pager_get_zget _ _ _ Hp'). simpl.
  unfold Page_Start. rewrite Hk, (seek_ge _ _ _ Hy). unfold PageIter.Next. simpl.
  rewrite Hpre. done.
Qed.

Lemma Next_done b it : Btree.done it = true → Btree.Next b it = Ok ((false, [], []), it).
Proof. intros H. unfold Btree.Next. by rewrite H. Qed.

(** ** The leaves from a page on *)

Section Iterate.
Context (b : Btree.t) (G : list Info).
Hypothesis HS : SInv (Btree.pager b) (Btree.root b) G.

Lemma leaves_exists : ∀ (n : nat) r i p,
  zget (Btree.pager b) r = Some p → zget G r = Some i → lvl i = O →
  lt_hi (lo i) (hi i) → (above (lo i) G < n)%nat →
  ∃ t, Leaves (Btree.pager b) (Page.NextPage p) t ∧
       leaf_ok (lo i) (Page.keys p ++ t) None ∧
       (∀ x, leafrec (Btree.pager b) x → kle (lo i) (Key.Get x) → x ∈ Page.keys p ++ t) ∧
       (∀ x, x ∈ t → leafrec (Btree.pager b) x) ∧
       (∀ x h, hi i = Some h → x ∈ t → kle h (Key.Get x)) ∧
       (hi i = None → t = []).
Proof.
  induction n as [|n IH]; intros r i p Hp Hi Hl Hlh Hn; [lia|].
  destruct (s_page _ _ _ HS r p i Hp Hi) as [Hok Hlk].
  unfold page_ok in Hok. rewrite Hl in Hok. destruct Hok as (HleafP & HokP & HneP).
  assert (Hin : ∀ x, leafrec (Btree.pager b) x → in_range i (Key.Get x) → x ∈ Page.keys p).
  { intros x Hx Hr. eapply (leafrec_in_leaf b G HS); eauto. }
  unfold link_ok in Hlk. destruct (hi i) as [h|] eqn:Eh.
  - destruct Hlk as (i' & Hi' & Hl' & Hlo'). rewrite Hl in Hl'.
    destruct (sinv_page_of HS _ _ Hi') as [p' Hp'].
    destruct (s_page _ _ _ HS _ p' i' Hp' Hi') as [Hok' _].
    unfold page_ok in Hok'. rewrite Hl' in Hok'. destruct Hok' as (Hleaf' & Hok' & Hne').
    simpl in Hlh.
    assert (Hh : h ≠ []) by (by eapply klt_not_nil).
    rewrite Hlo' in Hne', Hok'. specialize (Hne' Hh).
    assert (Hlh' : lt_hi (lo i') (hi i')).
    { rewrite Hlo'. destruct (Page.keys p') as [|y l]; [done|]. destruct Hok' as [Hy Hs].
      eapply lt_hi_le; [exact Hy|]. by eapply sorted_from_lt_hi. }
    destruct (IH (Page.NextPage p) i' p' Hp' Hi' Hl' Hlh')
      as (t' & Ht' & Hok2 & Hall & Hrec & Hge & _).
    { assert (Hlt : klt (lo i) (lo i')) by (by rewrite Hlo').
      pose proof (above_lt G _ i' (lo i) Hi' Hl' Hlt). lia. }
    rewrite Hlo' in Hok2, Hall.
    exists (Page.keys p' ++ t'). split_and!.
    + by apply Leaves_page.
    + eapply leaf_ok_join; [exact HokP|exact Hok2| |].
      * destruct (Page.keys p'); [done|]. done.
      * intros _. korder.
    + intros x Hx Hlo. apply elem_of_app.
      destruct (keyLess_cases (Key.Get x) h) as [E|E].
      * left. apply Hin; [done|]. split; [done|]. by rewrite Eh.
      * right. by apply Hall.
    + intros x Hx. apply elem_of_app in Hx as [Hx|Hx]; [|by apply Hrec].
      by eapply leafrec_intro.
    + intros x h0 [= <-] Hx. apply elem_of_app in Hx as [Hx|Hx].
      * by destruct (leaf_ok_elem _ _ _ _ Hok' Hx).
      * assert (Hx' : x ∈ Page.keys p' ++ t') by (apply elem_of_app; by right).
        by destruct (leaf_ok_elem _ _ _ _ Hok2 Hx').
    + done.
  - exists []. rewrite app_nil_r. split_and!.
    + rewrite Hlk. constructor.
    + done.
    + intros x Hx Hlo. apply Hin; [done|]. split; [done|]. by rewrite Eh.
    + intros x Hx. by apply elem_of_nil in Hx.
    + done.
    + done.
Qed.

(** ** Draining an iterator *)

Lemma drain_ok pfx : ∀ n t, Leaves (Btree.pager b) n t →
  ∀ s r p, zget (Btree.pager b) r = Some p → Page.NextPage p = n →
    leaf_ok pfx (s ++ t) None →
    (∀ x, x ∈ s ++ t → is_Some (zget (Btree.values b) (Key.Ref x))) →
    ∃ it', Btree.done it' = true ∧
      ∀ fuel, (length (while_prefix pfx (s ++ t)) < fuel)%nat →
        drain fuel b (Btree.mkIter pfx (PageIter.mk s pfx) r false) =
        Ok (yield b <$> while_prefix pfx (s ++ t), it').
Proof.
  intros n t Ht. induction Ht as [|n p' t' Hp' Hne' Ht' IH].
  - (* the last leaf *)
    induction s as [|x s IHs]; intros r p Hp Hn Hok Hv.
    + eexists. split; [|intros [|fuel] Hf; [simpl in Hf; lia|]].
      2:{ simpl drain. by rewrite (Next_end b pfx [] r p I Hp Hn). }
      done.
    + simpl app. simpl while_prefix. destruct (hasPrefix (Key.Get x) pfx) eqn:E.
      * destruct (IHs r p Hp Hn) as (it' & Hd & Hrun).
        { eapply leaf_ok_lower; [by eapply leaf_ok_tail|]. by destruct Hok. }
        { intros y Hy. apply Hv. by right. }
        exists it'. split; [done|]. intros [|fuel] Hf; [simpl in Hf; lia|].
        destruct (Hv x) as [v Hvx]; [by left|].
        simpl drain. rewrite (Next_yield b pfx x s r v E Hvx). simpl.
        rewrite Hrun by (simpl in Hf; lia). simpl. unfold yield at 2. by rewrite Hvx.
      * eexists. split; [|intros [|fuel] Hf; [simpl in Hf; lia|]].
        2:{ simpl drain. by rewrite (Next_end b pfx (x :: s) r p E Hp Hn). }
        done.
  - (* a leaf with a sibling *)
    destruct (Page.keys p') as [|y ys] eqn:Ek; [done|].
    induction s as [|x s IHs]; intros r p Hp Hn Hok Hv.
    + simpl app in *. simpl while_prefix.
      assert (Hy : kle pfx (Key.Get y)) by (by destruct Hok).
      rewrite <- Hn in Hp'.
      destruct (hasPrefix (Key.Get y) pfx) eqn:E.
      * destruct (IH ys n p') as (it' & Hd & Hrun).
        { by rewrite Hn in Hp'. }
        { done. }
        { eapply leaf_ok_lower; [by eapply leaf_ok_tail|]. done. }
        { intros z Hz. apply Hv. by right. }
        exists it'. split; [done|]. intros [|fuel] Hf; [simpl in Hf; lia|].
        destruct (Hv y) as [v Hvy]; [by left|].
        simpl drain. rewrite (Next_cross_yield b pfx [] r p p' y ys v I Hp Hp' Ek Hy E Hvy).
        simpl. rewrite Hn. rewrite Hrun by (simpl in Hf; lia). simpl.
        unfold yield at 2. by rewrite Hvy.
      * eexists. split; [|intros [|fuel] Hf; [simpl in Hf; lia|]].
        2:{ simpl drain. by rewrite (Next_cross_end b pfx [] r p p' y ys I Hp Hp' Ek Hy E). }
        done.
    + simpl app. simpl while_prefix. destruct (hasPrefix (Key.Get x) pfx) eqn:E.
      * destruct (IHs r p Hp Hn) as (it' & Hd & Hrun).
        { eapply leaf_ok_lower; [by eapply leaf_ok_tail|]. by destruct Hok. }
        { intros z Hz. apply Hv. by right. }
        exists it'. split; [done|]. intros [|fuel] Hf; [simpl in Hf; lia|].
        destruct (Hv x) as [v Hvx]; [by left|].
        simpl drain. rewrite (Next_yield b pfx x s r v E Hvx). simpl.
        simpl app in Hrun.
        rewrite Hrun by (simpl in Hf; lia). simpl. unfold yield at 2. by rewrite Hvx.
      * assert (Hx : kle pfx (Key.Get x)) by (by destruct Hok).
        assert (Hxy : klt (Key.Get x) (Key.Get y)).
        { destruct Hok as [_ Hs]. simpl in Hs.
          assert (Hin : y ∈ s ++ y :: ys ++ t') by (apply elem_of_app; right; by left).
          by destruct (sorted_from_elem _ _ _ _ Hs Hin). }
        pose proof (hasPrefix_above _ _ _ Hx E Hxy) as Ey.
        rewrite <- Hn in Hp'.
        eexists. split; [|intros [|fuel] Hf; [simpl in Hf; lia|]].
        2:{ simpl drain.
            rewrite (Next_cross_end b pfx (x :: s) r p p' y ys E Hp Hp' Ek ltac:(korder) Ey).
            done. }
        done.
Qed.

End Iterate.

(** ** Iteration from a prefix *)

Lemma leaf_ok_drop lo l1 l2 p :
  leaf_ok lo (l1 ++ l2) None → (∀ x, x ∈ l2 → kle p (Key.Get x)) → leaf_ok p l2 None.
Proof.
  intros Hl Hge. destruct l2 as [|y l2]; [done|].
  destruct (leaf_ok_app _ _ _ _ _ Hl) as (_ & [_ Hs] & _).
  split; [|done]. apply Hge. by left.
Qed.

Lemma Start_run b G p :
  SInv (Btree.pager b) (Btree.root b) G →
  ∃ P pP iP,
    Btree.Start (Some p) b = Ok (Btree.mkIter p (Page_Start p pP) P false) ∧
    zget (Btree.pager b) P = Some pP ∧ Page.IsLeaf pP = true ∧
    zget G P = Some iP ∧ lvl iP = O ∧ in_range iP p.
Proof.
  intros HS.
  destruct (search_ok b G HS p)
    as (pre & Q & P & pP & iP & Hrun & Hhead & HP & HPl & HiP & HlP & Hr & Hlk).
  exists P, pP, iP. split_and!; try done.
  unfold Btree.Start. rewrite Hrun. simpl.
  pose proof (last_index_1' pre Q P b) as Hlast.
  unfold Btree.last_index, Btree.lift in Hlast.
  destruct (at_index (pre ++ [Q; P]) (Z.of_nat (length (pre ++ [Q; P])) - 1)) as [x| |];
    try done.
  injection Hlast as ->. simpl. by rewrite (pager_get_zget _ _ _ HP).
Qed.

Theorem iterate_ok N b m p :
  Rep N b m →
  ∃ it L it',
    Btree.Start (Some p) b = Ok it ∧
    (∀ fuel, (length L < fuel)%nat → drain fuel b it = Ok (L, it')) ∧
    Btree.done it' = true ∧
    (∀ k v, (k, v) ∈ L ↔ m !! k = Some v ∧ hasPrefix k p = true) ∧
    StronglySorted by_key L.
Proof.
  intros HR. destruct (r_sinv _ _ _ HR) as [G HS].
  destruct (Start_run b G p HS) as (P & pP & iP & Hstart & HP & HPl & HiP & HlP & Hr).
  assert (Hlh : lt_hi (lo iP) (hi iP)).
  { destruct Hr as [? ?]. by eapply lt_hi_le. }
  destruct (leaves_exists b G HS (S (above (lo iP) G)) P iP pP HP HiP HlP Hlh)
    as (t & Ht & Hok & Hall & Hrec & Hge & Hnone); [lia|].
  destruct (sinv_leaf HS _ _ _ HP HiP HPl) as (_ & HokP & _).
  destruct (seek_split _ _ _ p HokP) as (l1 & E1 & H1 & H2).
  set (s := Page.seek p (Page.keys pP)) in *.
  rewrite E1, <- app_assoc in Hok, Hall.
  assert (Hge' : ∀ x, x ∈ s ++ t → kle p (Key.Get x)).
  { intros x Hx. apply elem_of_app in Hx as [Hx|Hx].
    - by destruct (leaf_ok_elem _ _ _ _ H2 Hx).
    - destruct (hi iP) as [h|] eqn:Eh.
      + specialize (Hge x h eq_refl Hx). destruct Hr as [_ Hr]. rewrite Eh in Hr. korder.
      + rewrite (Hnone eq_refl) in Hx. by apply elem_of_nil in Hx. }
  assert (Hok' : leaf_ok p (s ++ t) None) by (by eapply leaf_ok_drop).
  assert (Hleaf : ∀ x, x ∈ s ++ t → leafrec (Btree.pager b) x).
  { intros x Hx. apply elem_of_app in Hx as [Hx|Hx]; [|by apply Hrec].
    eapply leafrec_intro; [exact HP|done|]. rewrite E1. apply elem_of_app. by right. }
  assert (Hval : ∀ x, x ∈ s ++ t → is_Some (zget (Btree.values b) (Key.Ref x))).
  { intros x Hx. destruct (r_vals _ _ _ HR x (Hleaf x Hx)) as [Hs ->]. done. }
  destruct (drain_ok b p _ t Ht s P pP HP eq_refl Hok' Hval) as (it' & Hd & Hrun).
  set (T := while_prefix p (s ++ t)) in *.
  exists (Btree.mkIter p (Page_Start p pP) P false), (yield b <$> T), it'.
  split; [done|]. split.
  { intros fuel Hf. apply Hrun. by rewrite length_fmap in Hf. }
  split; [done|]. split.
  - intros k v. rewrite list_elem_of_fmap. split.
    + intros (x & E & Hx). apply (while_prefix_elem _ _ Hok') in Hx as [Hx Hpre].
      destruct (r_vals _ _ _ HR x (Hleaf x Hx)) as [[w Hw] Hz].
      unfold yield in E. rewrite Hz, Hw in E. simpl in E. injection E as -> ->. done.
    + intros [Hk Hpre].
      destruct (r_dom _ _ _ HR k) as (x & Hx & Ex); [by eexists|].
      assert (Hin : x ∈ s ++ t).
      { pose proof (hasPrefix_le _ _ Hpre) as Hle.
        assert (Hin : x ∈ l1 ++ s ++ t).
        { apply Hall; [done|]. rewrite Ex. destruct Hr. korder. }
        apply elem_of_app in Hin as [Hin|Hin]; [|done].
        specialize (H1 x Hin). rewrite Ex in H1. korder. }
      exists x. split.
      * destruct (r_vals _ _ _ HR x Hx) as [_ Hz].
        unfold yield. rewrite Hz, Ex, Hk. done.
      * apply (while_prefix_elem _ _ Hok'). split; [done|]. by rewrite Ex.
  - by eapply while_prefix_strongly.
Qed.

(** ** Termination of [split] and [appendPage] *)

Lemma terminates_bind {A B} (m : Btree.M A) (k : A → Btree.M B) b :
  terminates (m b) = true →
  (∀ a b', m b = Ok (a, b') → terminates (k a b') = true) →
  terminates (Btree.bind m k b) = true.
Proof.
  unfold Btree.bind. destruct (m b) as [[a b']| |]; try done. intros _ H. by apply H.
Qed.

Lemma bind_inv {A B} (m : Btree.M A) (k : A → Btree.M B) b r :
  Btree.bind m k b = Ok r → ∃ a b', m b = Ok (a, b') ∧ k a b' = Ok r.
Proof. unfold Btree.bind. destruct (m b) as [[a b']| |]; try done. eauto. Qed.

Lemma terminates_lift {A} (r : result A) b :
  terminates r = true → terminates (Btree.lift r b) = true.
Proof. by destruct r. Qed.

Lemma terminates_at_index {A} (l : list A) i : terminates (at_index l i) = true.
Proof. rewrite at_index_zget. by destruct (zget l i). Qed.

Lemma terminates_last_index l back b : terminates (Btree.last_index l back b) = true.
Proof. apply terminates_lift, terminates_at_index. Qed.

Lemma terminates_pagerGet r b : terminates (Btree.pagerGet r b) = true.
Proof. apply terminates_lift, terminates_at_index. Qed.

Lemma terminates_pagerNew l b : terminates (Btree.pagerNew l b) = true.
Proof. done. Qed.

Lemma terminates_call {A} r (f : Page.t → A * Page.t) b :
  terminates (Btree.call r f b) = true.
Proof.
  unfold Btree.call. apply terminates_bind; [apply terminates_pagerGet|].
  intros p b' _. by destruct (f p).
Qed.

Lemma terminates_read {A} r (f : Page.t → A) b : terminates (Btree.read r f b) = true.
Proof.
  unfold Btree.read. apply terminates_bind; [apply terminates_pagerGet|]. done.
Qed.

Lemma terminates_Split_at N P NP b : terminates (Btree.Split_at N P NP b) = true.
Proof.
  unfold Btree.Split_at.
  apply terminates_bind; [apply terminates_pagerGet|]. intros p b1 _.
  apply terminates_bind; [apply terminates_pagerGet|]. intros np b2 _.
  destruct (Page.Split N NP np p) as [[s p1] np1].
  apply terminates_bind; [apply terminates_call|]. intros _ b3 _.
  apply terminates_bind; [apply terminates_call|]. done.
Qed.

Lemma split_step_terminates N key ref path b :
  terminates (Btree.split_step N key ref path b) = true.
Proof.
  unfold Btree.split_step.
  apply terminates_bind; [apply terminates_last_index|]. intros P b1 _.
  apply terminates_bind; [apply terminates_pagerGet|]. intros p b2 _.
  apply terminates_bind; [apply terminates_last_index|]. intros Q b3 _.
  apply terminates_bind; [apply terminates_pagerGet|]. intros q b4 _.
  apply terminates_bind; [apply terminates_pagerNew|]. intros NP b5 _.
  apply terminates_bind; [apply terminates_Split_at|]. intros s b6 _.
  apply terminates_bind; [apply terminates_read|]. intros n b7 _.
  apply terminates_bind; [apply terminates_call|]. intros _ b8 _.
  apply terminates_bind; [apply terminates_call|]. intros _ b9 _.
  apply terminates_bind; [destruct (keyLess key s); apply terminates_call|]. intros _ b10 _.
  apply terminates_bind; [apply terminates_call|]. done.
Qed.

Lemma appendPage_step_terminates N key ref path b :
  terminates (Btree.appendPage_step N key ref path b) = true.
Proof.
  unfold Btree.appendPage_step.
  apply terminates_bind; [apply terminates_last_index|]. intros P b1 _.
  apply terminates_bind; [apply terminates_pagerGet|]. intros p b2 _.
  apply terminates_bind; [apply terminates_last_index|]. intros Q b3 _.
  apply terminates_bind; [apply terminates_pagerGet|]. intros q b4 _.
  apply terminates_bind; [apply terminates_pagerNew|]. intros NP b5 _.
  apply terminates_bind; [apply terminates_call|]. intros _ b6 _.
  apply terminates_bind; [destruct (Page.IsLeaf p); apply terminates_call|]. intros _ b7 _.
  apply terminates_bind; [apply terminates_call|]. done.
Qed.

Lemma last_index_inv l back b r b' :
  Btree.last_index l back b = Ok (r, b') →
  b' = b ∧ 0 ≤ Z.of_nat (length l) - back.
Proof.
  unfold Btree.last_index, Btree.lift. rewrite at_index_zget.
  destruct (zget l (Z.of_nat (length l) - back)) eqn:E; [|done].
  intros [= <- <-]. apply zget_lt in E. split; [done|lia].
Qed.

Lemma call_inv {A} r (f : Page.t → A * Page.t) b a b' :
  Btree.call r f b = Ok (a, b') →
  ∃ p, zget (Btree.pager b) r = Some p ∧ a = (f p).1 ∧
       b' = Btree.set_pager (zset r (f p).2 (Btree.pager b)) b.
Proof.
  intros H. destruct (zget (Btree.pager b) r) as [p|] eqn:E.
  - rewrite (call_Ok _ _ _ _ E) in H. injection H as <- <-. by exists p.
  - unfold Btree.call, Btree.bind, Btree.pagerGet, Btree.lift, Pager.Get in H.
    rewrite at_index_zget, E in H. done.
Qed.

Lemma split_step_inv N key ref path b s NP parent ok b1 :
  Btree.split_step N key ref path b = Ok ((s, NP, parent, ok), b1) →
  (2 ≤ length path)%nat ∧ 0 ≤ parent < Z.of_nat (length (Btree.pager b1)).
Proof.
  unfold Btree.split_step. intros H.
  apply bind_inv in H as (P & b2 & _ & H).
  apply bind_inv in H as (p & b3 & _ & H).
  apply bind_inv in H as (Q & b4 & HQ & H).
  apply bind_inv in H as (q & b5 & _ & H).
  apply bind_inv in H as (NP' & b6 & _ & H).
  apply bind_inv in H as (s' & b7 & _ & H).
  apply bind_inv in H as (n & b8 & _ & H).
  apply bind_inv in H as (u1 & b9 & _ & H).
  apply bind_inv in H as (u2 & b10 & _ & H).
  apply bind_inv in H as (u3 & b11 & _ & H).
  apply bind_inv in H as (ok' & b12 & Hc & H).
  unfold Btree.ret in H. injection H as _ _ <- _ <-.
  apply last_index_inv in HQ as [_ HQ].
  apply call_inv in Hc as (pq & Hpq & _ & ->). simpl.
  rewrite zset_length. split; [lia|]. by eapply zget_lt.
Qed.

Lemma appendPage_step_inv N key ref path b NP parent ok b1 :
  Btree.appendPage_step N key ref path b = Ok ((NP, parent, ok), b1) →
  (2 ≤ length path)%nat ∧ 0 ≤ parent < Z.of_nat (length (Btree.pager b1)).
Proof.
  unfold Btree.appendPage_step. intros H.
  apply bind_inv in H as (P & b2 & _ & H).
  apply bind_inv in H as (p & b3 & _ & H).
  apply bind_inv in H as (Q & b4 & HQ & H).
  apply bind_inv in H as (q & b5 & _ & H).
  apply bind_inv in H as (NP' & b6 & _ & H).
  apply bind_inv in H as (u1 & b7 & _ & H).
  apply bind_inv in H as (u2 & b8 & _ & H).
  apply bind_inv in H as (ok' & b9 & Hc & H).
  unfold Btree.ret in H. injection H as _ <- _ <-.
  apply last_index_inv in HQ as [_ HQ].
  apply call_inv in Hc as (pq & Hpq & _ & ->). simpl.
  rewrite zset_length. split; [lia|]. by eapply zget_lt.
Qed.

Section Termination.
Context (N : nat).
Hypothesis HN : (2 ≤ N)%nat.

(** After a root promotion the parent is the fresh root, which has room:
    the call returns. *)
Lemma split_promoted_returns fuel s NP parent b1 :
  0 ≤ parent < Z.of_nat (length (Btree.pager b1)) →
  ∃ b', Btree.split_rec N (S fuel) s NP [Z.of_nat (length (Btree.pager b1)); parent]
          (promoted b1) = Ok (tt, b').
Proof.
  intros Hp. destruct (zget_is_Some (Btree.pager b1) parent Hp) as [pP HP].
  set (nr := Page.mk false (-1) (Btree.root b1) []).
  assert (HP2 : zget (Btree.pager (promoted b1)) parent = Some pP) by (by apply zget_app_l).
  assert (HQ2 : zget (Btree.pager (promoted b1)) (Z.of_nat (length (Btree.pager b1))) = Some nr).
  { simpl. by rewrite zget_snoc, bool_decide_true. }
  rewrite split_rec_unfold.
  change [Z.of_nat (length (Btree.pager b1)); parent]
    with ([] ++ [Z.of_nat (length (Btree.pager b1)); parent]).
  rewrite (split_step_run N s NP [] _ _ _ pP nr HP2 HQ2) by lia.
  rewrite insert_room by (unfold Page.Size; simpl; lia). simpl. by eexists.
Qed.

Lemma appendPage_promoted_returns fuel key NP parent b1 :
  0 ≤ parent < Z.of_nat (length (Btree.pager b1)) →
  ∃ b', Btree.appendPage_rec N (S fuel) key NP [Z.of_nat (length (Btree.pager b1)); parent]
          (promoted b1) = Ok (tt, b').
Proof.
  intros Hp. destruct (zget_is_Some (Btree.pager b1) parent Hp) as [pP HP].
  set (nr := Page.mk false (-1) (Btree.root b1) []).
  assert (HP2 : zget (Btree.pager (promoted b1)) parent = Some pP) by (by apply zget_app_l).
  assert (HQ2 : zget (Btree.pager (promoted b1)) (Z.of_nat (length (Btree.pager b1))) = Some nr).
  { simpl. by rewrite zget_snoc, bool_decide_true. }
  rewrite appendPage_rec_unfold.
  change [Z.of_nat (length (Btree.pager b1)); parent]
    with ([] ++ [Z.of_nat (length (Btree.pager b1)); parent]).
  rewrite (appendPage_step_run N key NP [] _ _ _ pP nr HP2 HQ2) by lia.
  rewrite insert_room by (unfold Page.Size; simpl; lia). simpl. by eexists.
Qed.

Lemma split_rec_terminates : ∀ fuel path key ref b,
  (length path < fuel)%nat →
  terminates (Btree.split_rec N fuel key ref path b) = true.
Proof.
  induction fuel as [|fuel IH]; intros path key ref b Hf; [lia|].
  rewrite split_rec_unfold.
  pose proof (split_step_terminates N key ref path b) as Hstep.
  destruct (Btree.split_step N key ref path b) as [[[[[s NP] parent] ok] b1]| |] eqn:E;
    try done.
  destruct (split_step_inv _ _ _ _ _ _ _ _ _ _ E) as [Hlen Hpar].
  destruct ok; [done|].
  destruct (parent =? Btree.root b1).
  - destruct (Z.eqb_spec (Z.of_nat (length path)) 2) as [E2|_]; [|done]. simpl.
    rewrite promote_root_run. fold (promoted b1).
    destruct fuel as [|fuel]; [lia|].
    destruct (split_promoted_returns fuel s NP parent b1 Hpar) as [b' ->]. done.
  - apply IH. destruct path as [|x path] using rev_ind; [simpl in Hlen; lia|].
    rewrite removelast_last. rewrite length_app in Hf. simpl in Hf. lia.
Qed.

Lemma appendPage_rec_terminates : ∀ fuel path key ref b,
  (length path < fuel)%nat →
  terminates (Btree.appendPage_rec N fuel key ref path b) = true.
Proof.
  induction fuel as [|fuel IH]; intros path key ref b Hf; [lia|].
  rewrite appendPage_rec_unfold.
  pose proof (appendPage_step_terminates N key ref path b) as Hstep.
  destruct (Btree.appendPage_step N key ref path b) as [[[[NP parent] ok] b1]| |] eqn:E;
    try done.
  destruct (appendPage_step_inv _ _ _ _ _ _ _ _ _ E) as [Hlen Hpar].
  destruct ok; [done|].
  destruct (Z.eqb_spec parent (Btree.root b1)) as [Er|_].
  - rewrite promote_root_run. fold (promoted b1).
    destruct fuel as [|fuel]; [lia|]. rewrite <- Er.
    destruct (appendPage_promoted_returns fuel key NP parent b1 Hpar) as [b' ->]. done.
  - apply IH. destruct path as [|x path] using rev_ind; [simpl in Hlen; lia|].
    rewrite removelast_last. rewrite length_app in Hf. simpl in Hf. lia.
Qed.

(** More fuel does not change a run that ended. *)
Lemma split_rec_mono : ∀ fuel path key ref b,
  terminates (Btree.split_rec N fuel key ref path b) = true →
  Btree.split_rec N (S fuel) key ref path b = Btree.split_rec N fuel key ref path b.
Proof.
  induction fuel as [|fuel IH]; intros path key ref b Ht; [done|].
  rewrite (split_rec_unfold N (S fuel)). rewrite split_rec_unfold in Ht |- *.
  destruct (Btree.split_step N key ref path b) as [[[[[s NP] parent] ok] b1]| |]; try done.
  destruct ok; [done|].
  destruct (parent =? Btree.root b1).
  - destruct (negb (Z.of_nat (length path) =? 2)); [done|].
    destruct (Btree.promote_root b1) as [[NR b2]| |]; try done. by apply IH.
  - by apply IH.
Qed.

Lemma appendPage_rec_mono : ∀ fuel path key ref b,
  terminates (Btree.appendPage_rec N fuel key ref path b) = true →
  Btree.appendPage_rec N (S fuel) key ref path b = Btree.appendPage_rec N fuel key ref path b.
Proof.
  induction fuel as [|fuel IH]; intros path key ref b Ht; [done|].
  rewrite (appendPage_rec_unfold N (S fuel)). rewrite appendPage_rec_unfold in Ht |- *.
  destruct (Btree.appendPage_step N key ref path b) as [[[[NP parent] ok] b1]| |]; try done.
  destruct ok; [done|].
  destruct (parent =? Btree.root b1).
  - destruct (Btree.promote_root b1) as [[NR b2]| |]; try done. by apply IH.
  - by apply IH.
Qed.

Lemma split_rec_fuel fuel path key ref b :
  (length path < fuel)%nat →
  Btree.split_rec N fuel key ref path b = Btree.split N key ref path b.
Proof.
  unfold Btree.split. intros Hf.
  replace fuel with ((fuel - S (length path)) + S (length path))%nat by lia.
  induction (fuel - S (length path))%nat as [|n IH]; [done|].
  simpl Nat.add. rewrite split_rec_mono; [done|].
  apply split_rec_terminates. lia.
Qed.

Lemma appendPage_rec_fuel fuel path key ref b :
  (length path < fuel)%nat →
  Btree.appendPage_rec N fuel key ref path b = Btree.appendPage N key ref path b.
Proof.
  unfold Btree.appendPage. intros Hf.
  replace fuel with ((fuel - S (length path)) + S (length path))%nat by lia.
  induction (fuel - S (length path))%nat as [|n IH]; [done|].
  simpl Nat.add. rewrite appendPage_rec_mono; [done|].
  apply appendPage_rec_terminates. lia.
Qed.

End Termination.

(** ** The finite map of a sequence of operations *)

Lemma model_step_insert m o : ∃ v, model_step m o = <[op_key o := v]> m.
Proof. destruct o; simpl; eauto. Qed.

Lemma model_snoc ops o : model (ops ++ [o]) = model_step (model ops) o.
Proof. unfold model. by rewrite fold_left_app. Qed.

Lemma model_latest ops k : model ops !! k = latest k (reverse ops).
Proof.
  induction ops as [|o ops IH] using rev_ind; [done|].
  rewrite model_snoc, reverse_snoc. destruct o as [k' v|k' v|k' v]; simpl;
    destruct (decide (k' = k)) as [->|Hne];
    rewrite ?lookup_insert_eq, ?lookup_insert_ne by done; by rewrite <- ?IH.
Qed.

Lemma fold_model_dom ops : ∀ m : gmap bytes bytes,
  dom (fold_left model_step ops m) = dom m ∪ distinct_keys ops.
Proof.
  unfold distinct_keys.
  induction ops as [|o ops IH]; intros m; simpl; [set_solver|].
  rewrite IH. destruct (model_step_insert m o) as [v ->]. rewrite dom_insert_L. set_solver.
Qed.

Lemma model_dom ops : dom (model ops) = distinct_keys ops.
Proof. unfold model. rewrite fold_model_dom. set_solver. Qed.

Lemma model_written ops k : is_Some (model ops !! k) ↔ written ops k.
Proof.
  rewrite <- elem_of_dom, model_dom. unfold distinct_keys, written.
  rewrite elem_of_list_to_set, list_elem_of_fmap. naive_solver.
Qed.

Lemma model_size ops : size (model ops) = size (distinct_keys ops).
Proof. by rewrite <- model_dom, size_dom. Qed.

Lemma fold_model_size ops : ∀ m : gmap bytes bytes,
  (size (fold_left model_step ops m) ≤ size m + length ops)%nat.
Proof.
  induction ops as [|o ops IH]; intros m; simpl; [lia|].
  specialize (IH (model_step m o)).
  destruct (model_step_insert m o) as [v E]. rewrite E in IH.
  rewrite map_size_insert in IH. destruct (m !! op_key o); simpl in IH; rewrite E; lia.
Qed.

Lemma model_size_le ops : (size (model ops) ≤ length ops)%nat.
Proof. pose proof (fold_model_size ops ∅). by rewrite map_size_empty in H. Qed.

(** ** [Put] on a key that is present *)

Lemma Put_present N b m k v :
  Rep N b m → k ≠ [] → is_Some (m !! k) →
  ∃ x, leafrec (Btree.pager b) x ∧ Key.Get x = k ∧
       Btree.Put N (Some k) (Some v) b =
       Ok (true, Btree.set_values (zset (Key.Ref x) (copyBytes v) (Btree.values b)) b).
Proof.
  intros HR Hk Hm. destruct (r_sinv _ _ _ HR) as [G HS].
  destruct (search_ok b G HS k)
    as (pre & Q & P & pP & iP & Hrun & Hhead & HP & HPl & HiP & HlP & Hr & Hlk).
  unfold Btree.Put. destruct k as [|c k]; [done|]. rewrite guard_ok. cbv iota. simpl default.
  unfold Btree.bind at 1. unfold Btree.gets at 1. simpl id.
  unfold Btree.bind at 1. rewrite Hrun. simpl Btree.lift.
  destruct (sinv_leaf HS _ _ _ HP HiP HPl) as (_ & Hok & _).
  destruct (leaf_search _ _ pP (c :: k) Hok) as [(x & Es & Hx & E)|(x & Es & Hx)]; rewrite Es.
  - assert (leafrec (Btree.pager b) x) as Hrec by (by exists P, pP).
    destruct (r_vals _ _ _ HR x Hrec) as [[v0 Hv0] Hz0]. rewrite Hv0 in Hz0.
    cbn [fst snd]. cbv beta iota.
    rewrite (bind_Ok _ _ _ _ _ (set_value_run _ _ _ _ Hz0)).
    exists x. split; [done|]. split; [done|]. done.
  - exfalso. destruct (r_dom _ _ _ HR (c :: k) Hm) as (y & Hy & E).
    apply Hx. apply list_elem_of_fmap. exists y. split; [done|].
    eapply (leafrec_in_leaf b G HS); eauto. by rewrite E.
Qed.

(** ** Ascending insertions *)

Lemma legal_putnext (kvs : list (bytes * bytes)) : ∀ m : gmap bytes bytes,
  StronglySorted by_key kvs → Forall (λ kv, kv.1 ≠ []) kvs →
  (∀ k kv, is_Some (m !! k) → kv ∈ kvs → klt k kv.1) →
  legal_from m ((λ kv, OpPutNext kv.1 kv.2) <$> kvs).
Proof.
  induction kvs as [|kv kvs IH]; intros m Hs Hne Hm; [done|].
  apply StronglySorted_cons in Hs as [Hall Hs]. apply Forall_cons in Hne as [Hk Hne].
  simpl. split.
  - split; [done|]. intros k' Hk'. apply Hm; [done|by left].
  - apply IH; try done. intros k kv' Hin Hkv'.
    destruct (decide (k = kv.1)) as [->|Hneq].
    + rewrite Forall_forall in Hall. by apply Hall.
    + rewrite lookup_insert_ne in Hin by done. apply Hm; [done|by right].
Qed.

Lemma legal_put (kvs : list (bytes * bytes)) : ∀ m : gmap bytes bytes,
  Forall (λ kv, kv.1 ≠ []) kvs → legal_from m ((λ kv, OpPut kv.1 kv.2) <$> kvs).
Proof.
  induction kvs as [|kv kvs IH]; intros m Hne; [done|].
  apply Forall_cons in Hne as [Hk Hne]. simpl. split; [done|]. by apply IH.
Qed.

Lemma model_putnext_put (kvs : list (bytes * bytes)) : ∀ m : gmap bytes bytes,
  fold_left model_step ((λ kv, OpPutNext kv.1 kv.2) <$> kvs) m =
  fold_left model_step ((λ kv, OpPut kv.1 kv.2) <$> kvs) m.
Proof. induction kvs as [|kv kvs IH]; intros m; simpl; [done|]. apply IH. Qed.

(** ** Two ascending lists with the same elements are equal *)

Lemma by_key_NoDup L : StronglySorted by_key L → NoDup L.
Proof.
  induction 1 as [|x L Hs IH Hall]; constructor; [|done].
  intros Hx. rewrite Forall_forall in Hall. specialize (Hall x Hx).
  unfold by_key in Hall. korder.
Qed.

Lemma by_key_unique L1 L2 :
  StronglySorted by_key L1 → StronglySorted by_key L2 →
  (∀ x, x ∈ L1 ↔ x ∈ L2) → L1 = L2.
Proof.
  intros H1 H2 Hiff. apply (StronglySorted_unique_strong by_key); try done.
  - intros x y _ _ Hxy Hyx. unfold by_key in *. korder.
  - apply NoDup_Permutation; [by apply by_key_NoDup..|done].
Qed.

(** ** [PutNext] on a key that is not above a separator *)

Lemma Spine_start pg r r' p' : Spine pg r r' p' → ∃ p, zget pg r = Some p.
Proof. destruct 1; eauto. Qed.

Lemma descend_last_panics b G k :
  SInv (Btree.pager b) (Btree.root b) G →
  ∀ r r' p', Spine (Btree.pager b) r r' p' → Page.IsLeaf p' = false →
  ∀ x, last (Page.keys p') = Some x → keyLess (Key.Get x) k = false →
  ∀ (fuel : nat) p i acc, zget (Btree.pager b) r = Some p → zget G r = Some i →
    (lvl i < fuel)%nat → Btree.descend_last fuel b k p acc = Panic Btree.out_of_order.
Proof.
  intros HS r r' p' Hsp. induction Hsp as [r p0 Hp0|r p0 r' p' Hp0 Hl0 Hsp IH];
    intros Hleaf x Hx Hk fuel p i acc Hp Hi Hf.
  - rewrite Hp0 in Hp. injection Hp as <-.
    destruct fuel as [|fuel]; [lia|]. simpl. rewrite Hleaf.
    rewrite getkey_last by done. rewrite Hx. simpl. by rewrite Hk.
  - rewrite Hp0 in Hp. injection Hp as <-.
    destruct fuel as [|fuel]; [lia|]. simpl. rewrite Hl0.
    rewrite getkey_last by done. simpl.
    destruct (keyLess (from_option Key.Get [] (last (Page.keys p0))) k); [|done]. simpl.
    fold (lastChild p0).
    destruct (Spine_start _ _ _ _ Hsp) as [pc Hpc].
    rewrite (pager_get_zget _ _ _ Hpc). simpl.
    destruct (sinv_internal HS _ _ _ Hp0 Hi Hl0) as (d & Hd & Hch).
    destruct (chain_last _ _ _ _ _ _ Hch) as (_ & lo' & Hz & _).
    eapply (IH Hleaf x Hx Hk fuel pc _ _ Hpc Hz). simpl. lia.
Qed.

Lemma PutNext_panics N b m k v r p x :
  Rep N b m → k ≠ [] →
  Spine (Btree.pager b) (Btree.root b) r p → Page.IsLeaf p = false →
  last (Page.keys p) = Some x → keyLess (Key.Get x) k = false →
  Btree.PutNext N (Some k) (Some v) b = Panic Btree.out_of_order.
Proof.
  intros HR Hk Hsp Hleaf Hx Hlt. destruct (r_sinv _ _ _ HR) as [G HS].
  destruct (s_root _ _ _ HS) as (h & Hroot & _ & Hh).
  destruct (sinv_page_of HS _ _ Hroot) as [pR HpR].
  unfold Btree.PutNext. destruct k as [|c k]; [done|]. rewrite guard_ok. cbv iota. simpl default.
  unfold Btree.bind at 1. unfold Btree.gets at 1.
  rewrite (bind_Ok _ _ _ _ _ (pagerGet_Ok _ _ _ HpR)).
  unfold Btree.bind at 1. unfold Btree.gets at 1. simpl id.
  unfold Btree.bind at 1. unfold Btree.lift at 1.
  rewrite (descend_last_panics b G (c :: k) HS _ _ _ Hsp Hleaf x Hx Hlt
             (S (length (Btree.pager b))) pR _ [Btree.root b] HpR Hroot); [done|].
  simpl. lia.
Qed.

(** * The model on small inputs *)

Example get_after_three_puts :
  Btree.Get (Some (str "b"))
    (tree_of ramPageSize [OpPut (str "a") (str "1"); OpPut (str "b") (str "2");
                          OpPut (str "c") (str "3")]) = Ok (true, str "2") ∧
  Btree.Get (Some (str "d"))
    (tree_of ramPageSize [OpPut (str "a") (str "1"); OpPut (str "b") (str "2");
                          OpPut (str "c") (str "3")]) = Ok (false, []) ∧
  scan 10 (tree_of ramPageSize [OpPut (str "a") (str "1"); OpPut (str "b") (str "2");
                                OpPut (str "c") (str "3")]) []
    = Ok [(str "a", str "1"); (str "b", str "2"); (str "c", str "3")].
Proof. split_and!; vm_compute; reflexivity. Qed.

Example append_concatenates :
  Btree.Get (Some (str "x"))
    (tree_of ramPageSize [OpAppend (str "x") (str "abc"); OpAppend (str "x") (str "de")])
  = Ok (true, str "abcde").
Proof. vm_compute. reflexivity. Qed.

Example put_replaces_value :
  Btree.Put ramPageSize (Some (str "a")) (Some (str "X"))
    (tree_of ramPageSize [OpPut (str "a") (str "1"); OpPut (str "b") (str "2")])
  = Ok (true, Btree.mk [Page.mk false (-1) 1 [];
                        Page.mk true (-1) (-1) [Key.mk (str "a") 0; Key.mk (str "b") 1]]
                [str "X"; str "2"] 0 2).
Proof. vm_compute. reflexivity. Qed.

(** With capacity 4, the fifth ascending key splits the leaf: the root gets
    the third key, which refers to the new leaf, and the leaves are linked. *)
Example split_at_the_median :
  tree_of 4 ((λ n, OpPut (key_of n) []) <$> seq 1 5)
  = Btree.mk [Page.mk false (-1) 1 [Key.mk (key_of 3) 2];
              Page.mk true 2 (-1) [Key.mk (key_of 1) 0; Key.mk (key_of 2) 1];
              Page.mk true (-1) (-1)
                [Key.mk (key_of 3) 2; Key.mk (key_of 4) 3; Key.mk (key_of 5) 4]]
      [[]; []; []; []; []] 0 5.
Proof. vm_compute. reflexivity. Qed.

(** With capacity 4, the fifth key of [PutNext] opens a new leaf and moves
    no record. *)
Example putnext_opens_a_leaf :
  tree_of 4 ((λ n, OpPutNext (key_of n) []) <$> seq 1 5)
  = Btree.mk [Page.mk false (-1) 1 [Key.mk (key_of 5) 2];
              Page.mk true 2 (-1)
                [Key.mk (key_of 1) 0; Key.mk (key_of 2) 1; Key.mk (key_of 3) 2;
                 Key.mk (key_of 4) 3];
              Page.mk true (-1) (-1) [Key.mk (key_of 5) 4]]
      [[]; []; []; []; []] 0 5.
Proof. vm_compute. reflexivity. Qed.

Example scan_of_a_prefix :
  scan 10 (tree_of 4 [OpPut (str "banana") (str "y"); OpPut (str "apple") (str "x");
                      OpPut (str "cherry") (str "z"); OpPut (str "blueberry") (str "u");
                      OpPut (str "avocado") (str "v"); OpPut (str "bilberry") (str "w")])
    (str "b")
  = Ok [(str "banana", str "y"); (str "bilberry", str "w"); (str "blueberry", str "u")].
Proof. vm_compute. reflexivity. Qed.

Example check_of_a_built_tree :
  Btree.CheckConsistency 40 (tree_of 4 ((λ n, OpPut (key_of n) []) <$> seq 1 30)) = Ok None.
Proof. vm_compute. reflexivity. Qed.

(** * The claims *)

(** C1: after a legal sequence of operations, [Get] on a non-empty key
    that was written returns true with the value most recently written for
    the key: the value of its last [Put], extended by every [Append] since. *)
Theorem get_returns_latest_value (N : nat) (ops : list op) (k : bytes) :
  (2 ≤ N)%nat → legal ops → k ≠ [] → written ops k →
  ∃ b v, run_ops N ops Btree.NewInMemoryBtree = Ok (tt, b) ∧
         latest k (reverse ops) = Some v ∧
         Btree.Get (Some k) b = Ok (true, v).
Proof.
  intros HN Hl Hk Hw. destruct (run_ops_ok N HN ops Hl) as (b & Hrun & HR).
  apply model_written in Hw as [v Hv]. exists b, v. split; [done|].
  split; [by rewrite <- model_latest|]. by rewrite (Get_ok N b _ k HR Hk), Hv.
Qed.

Lemma get_returns_latest_value_witness :
  ∃ b v, run_ops ramPageSize [OpAppend (str "x") (str "abc"); OpAppend (str "x") (str "de")]
           Btree.NewInMemoryBtree = Ok (tt, b) ∧
         latest (str "x") (reverse [OpAppend (str "x") (str "abc");
                                    OpAppend (str "x") (str "de")]) = Some v ∧
         Btree.Get (Some (str "x")) b = Ok (true, v).
Proof.
  apply (get_returns_latest_value ramPageSize
           [OpAppend (str "x") (str "abc"); OpAppend (str "x") (str "de")] (str "x")).
  - unfold ramPageSize. lia.
  - simpl. repeat split; discriminate.
  - discriminate.
  - exists (OpAppend (str "x") (str "abc")). split; [left|reflexivity].
Defined.

(** C2: on a tree built by a legal sequence of operations, [Put] on a
    non-empty key reports replaced = true exactly when the key was written
    before; then it overwrites the slot of the value arena that the record
    of the key refers to with the new value and leaves the pages, the root
    and the size as they are, so no leaf record is added. *)
Theorem put_reports_replacement (N : nat) (ops : list op) (k v : bytes) :
  (2 ≤ N)%nat → legal ops → k ≠ [] →
  ∃ b replaced b',
    run_ops N ops Btree.NewInMemoryBtree = Ok (tt, b) ∧
    Btree.Put N (Some k) (Some v) b = Ok (replaced, b') ∧
    (replaced = true ↔ written ops k) ∧
    (replaced = true →
     ∃ x, leafrec (Btree.pager b) x ∧ Key.Get x = k ∧
          b' = Btree.set_values (zset (Key.Ref x) (copyBytes v) (Btree.values b)) b).
Proof.
  intros HN Hl Hk. destruct (run_ops_ok N HN ops Hl) as (b & Hrun & HR).
  destruct (Put_ok N HN b _ k v HR Hk) as (b' & Hput & _).
  exists b, (bool_decide (is_Some (model ops !! k))), b'.
  split; [done|]. split; [done|]. split.
  - rewrite bool_decide_eq_true. apply model_written.
  - intros Hrep. apply bool_decide_eq_true in Hrep.
    destruct (Put_present N b _ k v HR Hk Hrep) as (x & Hx & Ex & Hrun').
    exists x. split; [done|]. split; [done|]. rewrite Hrun' in Hput. by injection Hput as _ <-.
Qed.

Lemma put_reports_replacement_witness :
  ∃ b replaced b',
    run_ops ramPageSize [OpPut (str "a") (str "1")] Btree.NewInMemoryBtree = Ok (tt, b) ∧
    Btree.Put ramPageSize (Some (str "a")) (Some (str "2")) b = Ok (replaced, b') ∧
    (replaced = true ↔ written [OpPut (str "a") (str "1")] (str "a")) ∧
    (replaced = true →
     ∃ x, leafrec (Btree.pager b) x ∧ Key.Get x = str "a" ∧
          b' = Btree.set_values (zset (Key.Ref x) (copyBytes (str "2")) (Btree.values b)) b).
Proof.
  apply (put_reports_replacement ramPageSize [OpPut (str "a") (str "1")] (str "a") (str "2")).
  - unfold ramPageSize. lia.
  - simpl. repeat split; discriminate.
  - discriminate.
Defined.

(** C3: on a tree built by a legal sequence of operations, the iterator
    of [Start] on a prefix hands out, over successive calls of [Next], the
    pairs of a list [L] and then reports exhaustion, and stays exhausted;
    [L] holds exactly the keys of the tree that start with the prefix, each
    with its current value, in strictly ascending order of the keys. *)
Theorem iterator_yields_prefix_keys (N : nat) (ops : list op) (p : bytes) :
  (2 ≤ N)%nat → legal ops →
  ∃ b it L it',
    run_ops N ops Btree.NewInMemoryBtree = Ok (tt, b) ∧
    Btree.Start (Some p) b = Ok it ∧
    (∀ fuel, (length L < fuel)%nat → drain fuel b it = Ok (L, it')) ∧
    Btree.Next b it' = Ok ((false, [], []), it') ∧
    (∀ k v, (k, v) ∈ L ↔ model ops !! k = Some v ∧ hasPrefix k p = true) ∧
    StronglySorted by_key L.
Proof.
  intros HN Hl. destruct (run_ops_ok N HN ops Hl) as (b & Hrun & HR).
  destruct (iterate_ok N b _ p HR) as (it & L & it' & Hstart & Hdrain & Hdone & Hmem & Hs).
  exists b, it, L, it'. split_and!; try done. by apply Next_done.
Qed.

Lemma iterator_yields_prefix_keys_witness :
  ∃ b it L it',
    run_ops 4 [OpPut (str "banana") (str "y"); OpPut (str "apple") (str "x");
               OpPut (str "cherry") (str "z"); OpPut (str "blueberry") (str "u");
               OpPut (str "avocado") (str "v"); OpPut (str "bilberry") (str "w")]
      Btree.NewInMemoryBtree = Ok (tt, b) ∧
    Btree.Start (Some (str "b")) b = Ok it ∧
    (∀ fuel, (length L < fuel)%nat → drain fuel b it = Ok (L, it')) ∧
    Btree.Next b it' = Ok ((false, [], []), it') ∧
    (∀ k v, (k, v) ∈ L ↔
       model [OpPut (str "banana") (str "y"); OpPut (str "apple") (str "x");
              OpPut (str "cherry") (str "z"); OpPut (str "blueberry") (str "u");
              OpPut (str "avocado") (str "v"); OpPut (str "bilberry") (str "w")] !! k = Some v ∧
       hasPrefix k (str "b") = true) ∧
    StronglySorted by_key L.
Proof.
  apply (iterator_yields_prefix_keys 4
           [OpPut (str "banana") (str "y"); OpPut (str "apple") (str "x");
            OpPut (str "cherry") (str "z"); OpPut (str "blueberry") (str "u");
            OpPut (str "avocado") (str "v"); OpPut (str "bilberry") (str "w")] (str "b")).
  - lia.
  - simpl. repeat split; discriminate.
Defined.

(** C4: after a legal sequence of fewer than 2^63 operations, [Size]
    is the number of distinct keys of the sequence, which is also the number
    of leaf records of the tree. *)
Theorem size_counts_distinct_keys (N : nat) (ops : list op) :
  (2 ≤ N)%nat → legal ops → Z.of_nat (length ops) < 2 ^ 63 →
  ∃ b, run_ops N ops Btree.NewInMemoryBtree = Ok (tt, b) ∧
       Btree.Size b = Z.of_nat (size (distinct_keys ops)) ∧
       leaf_count (Btree.pager b) = size (distinct_keys ops).
Proof.
  intros HN Hl Hlen. destruct (run_ops_ok N HN ops Hl) as (b & Hrun & HR).
  exists b. split; [done|]. rewrite <- model_size. split; [|apply HR].
  unfold Btree.Size. rewrite (r_size _ _ _ HR). apply wrap64_small.
  pose proof (model_size_le ops). lia.
Qed.

Lemma size_counts_distinct_keys_witness :
  ∃ b, run_ops 4 [OpPut (str "a") (str "1"); OpPut (str "b") (str "2");
                  OpAppend (str "a") (str "3"); OpAppend (str "c") (str "4");
                  OpPut (str "b") (str "5"); OpPut (str "d") (str "6");
                  OpPut (str "e") (str "7")]
         Btree.NewInMemoryBtree = Ok (tt, b) ∧
       Btree.Size b =
         Z.of_nat (size (distinct_keys
                           [OpPut (str "a") (str "1"); OpPut (str "b") (str "2");
                            OpAppend (str "a") (str "3"); OpAppend (str "c") (str "4");
                            OpPut (str "b") (str "5"); OpPut (str "d") (str "6");
                            OpPut (str "e") (str "7")])) ∧
       leaf_count (Btree.pager b) =
         size (distinct_keys
                 [OpPut (str "a") (str "1"); OpPut (str "b") (str "2");
                  OpAppend (str "a") (str "3"); OpAppend (str "c") (str "4");
                  OpPut (str "b") (str "5"); OpPut (str "d") (str "6");
                  OpPut (str "e") (str "7")]).
Proof.
  apply (size_counts_distinct_keys 4
           [OpPut (str "a") (str "1"); OpPut (str "b") (str "2");
            OpAppend (str "a") (str "3"); OpAppend (str "c") (str "4");
            OpPut (str "b") (str "5"); OpPut (str "d") (str "6");
            OpPut (str "e") (str "7")]).
  - lia.
  - simpl. repeat split; discriminate.
  - simpl. lia.
Defined.

(** C5: for strictly ascending non-empty keys, inserting the pairs with
    [PutNext] and inserting them with [Put] give trees that answer every
    [Get] alike and on which the iterator of every prefix hands out the same
    pairs. *)
Theorem putnext_agrees_with_put (N : nat) (kvs : list (bytes * bytes)) :
  (2 ≤ N)%nat → StronglySorted by_key kvs → Forall (λ kv, kv.1 ≠ []) kvs →
  ∃ b1 b2,
    run_ops N ((λ kv, OpPutNext kv.1 kv.2) <$> kvs) Btree.NewInMemoryBtree = Ok (tt, b1) ∧
    run_ops N ((λ kv, OpPut kv.1 kv.2) <$> kvs) Btree.NewInMemoryBtree = Ok (tt, b2) ∧
    (∀ k, k ≠ [] → Btree.Get (Some k) b1 = Btree.Get (Some k) b2) ∧
    (∀ p, ∃ it1 it2 L it1' it2',
       Btree.Start (Some p) b1 = Ok it1 ∧ Btree.Start (Some p) b2 = Ok it2 ∧
       ∀ fuel, (length L < fuel)%nat →
               drain fuel b1 it1 = Ok (L, it1') ∧ drain fuel b2 it2 = Ok (L, it2')).
Proof.
  intros HN Hs Hne.
  destruct (run_ops_ok N HN ((λ kv, OpPutNext kv.1 kv.2) <$> kvs)) as (b1 & Hrun1 & HR1).
  { apply legal_putnext; try done. intros k kv [? Hk]. by rewrite lookup_empty in Hk. }
  destruct (run_ops_ok N HN ((λ kv, OpPut kv.1 kv.2) <$> kvs)) as (b2 & Hrun2 & HR2).
  { by apply legal_put. }
  unfold model in HR1. rewrite model_putnext_put in HR1. fold (model ((λ kv, OpPut kv.1 kv.2) <$> kvs)) in HR1.
  exists b1, b2. split; [done|]. split; [done|]. split.
  - intros k Hk. by rewrite (Get_ok N b1 _ k HR1 Hk), (Get_ok N b2 _ k HR2 Hk).
  - intros p.
    destruct (iterate_ok N b1 _ p HR1) as (it1 & L1 & it1' & Hst1 & Hd1 & _ & Hm1 & Hs1).
    destruct (iterate_ok N b2 _ p HR2) as (it2 & L2 & it2' & Hst2 & Hd2 & _ & Hm2 & Hs2).
    assert (L1 = L2) as <-.
    { apply by_key_unique; try done. intros [k v]. by rewrite Hm1, Hm2. }
    exists it1, it2, L1, it1', it2'. split; [done|]. split; [done|].
    intros fuel Hf. split; [by apply Hd1|by apply Hd2].
Qed.

Lemma putnext_agrees_with_put_witness :
  ∃ b1 b2,
    run_ops 4 ((λ kv, OpPutNext kv.1 kv.2) <$>
               [(str "a", str "1"); (str "b", str "2"); (str "c", str "3");
                (str "d", str "4"); (str "e", str "5"); (str "f", str "6")])
      Btree.NewInMemoryBtree = Ok (tt, b1) ∧
    run_ops 4 ((λ kv, OpPut kv.1 kv.2) <$>
               [(str "a", str "1"); (str "b", str "2"); (str "c", str "3");
                (str "d", str "4"); (str "e", str "5"); (str "f", str "6")])
      Btree.NewInMemoryBtree = Ok (tt, b2) ∧
    (∀ k, k ≠ [] → Btree.Get (Some k) b1 = Btree.Get (Some k) b2) ∧
    (∀ p, ∃ it1 it2 L it1' it2',
       Btree.Start (Some p) b1 = Ok it1 ∧ Btree.Start (Some p) b2 = Ok it2 ∧
       ∀ fuel, (length L < fuel)%nat →
               drain fuel b1 it1 = Ok (L, it1') ∧ drain fuel b2 it2 = Ok (L, it2')).
Proof.
  apply (putnext_agrees_with_put 4
           [(str "a", str "1"); (str "b", str "2"); (str "c", str "3");
            (str "d", str "4"); (str "e", str "5"); (str "f", str "6")]).
  - lia.
  - repeat constructor.
  - repeat constructor; discriminate.
Defined.

(** C6, as amended: on a tree built by a legal sequence of operations,
    [PutNext] on a non-empty key fails fatally with the out-of-order error
    when the key is not strictly above the last key of an internal page on
    the path from the root along the last children. *)
Theorem putnext_rejects_key_below_separator (N : nat) (ops : list op) (b : Btree.t)
    (k v : bytes) (r : Z) (p : Page.t) (x : Key.t) :
  (2 ≤ N)%nat → legal ops → run_ops N ops Btree.NewInMemoryBtree = Ok (tt, b) →
  k ≠ [] → Spine (Btree.pager b) (Btree.root b) r p → Page.IsLeaf p = false →
  last (Page.keys p) = Some x → keyLess (Key.Get x) k = false →
  Btree.PutNext N (Some k) (Some v) b = Panic Btree.out_of_order.
Proof.
  intros HN Hl Hrun Hk Hsp Hleaf Hx Hlt.
  destruct (run_ops_ok N HN ops Hl) as (b0 & Hrun0 & HR).
  rewrite Hrun in Hrun0. injection Hrun0 as <-.
  by eapply PutNext_panics.
Qed.

Lemma putnext_rejects_key_below_separator_witness :
  Btree.PutNext 4 (Some (key_of 1)) (Some [])
    (tree_of 4 ((λ n, OpPut (key_of n) []) <$> seq 1 5)) = Panic Btree.out_of_order.
Proof.
  apply (putnext_rejects_key_below_separator 4 ((λ n, OpPut (key_of n) []) <$> seq 1 5)
           (tree_of 4 ((λ n, OpPut (key_of n) []) <$> seq 1 5)) (key_of 1) [] 0
           (Page.mk false (-1) 1 [Key.mk (key_of 3) 2]) (Key.mk (key_of 3) 2)).
  - lia.
  - simpl. repeat split; discriminate.
  - vm_compute. reflexivity.
  - discriminate.
  - apply Spine_here. vm_compute. reflexivity.
  - reflexivity.
  - reflexivity.
  - vm_compute. reflexivity.
Defined.

(** C6, the claim as stated fails: on the tree that holds the key b,
    [PutNext] on the key a, which is not above b, returns without a panic
    and inserts the key. *)
Lemma putnext_accepts_out_of_order_key :
  ∃ b1 b2,
    Btree.PutNext ramPageSize (Some (str "b")) (Some (str "1")) Btree.NewInMemoryBtree
      = Ok (tt, b1) ∧
    keyLess (str "b") (str "a") = false ∧
    Btree.PutNext ramPageSize (Some (str "a")) (Some (str "2")) b1 = Ok (tt, b2) ∧
    Btree.Get (Some (str "a")) b2 = Ok (true, str "2").
Proof.
  do 2 eexists. split; [vm_compute; reflexivity|]. split; [reflexivity|].
  split; vm_compute; reflexivity.
Qed.

(** C7, the code at a failing input: the recursive pass and the whole of
    [CheckConsistency] accept a tree whose root has the key m before the key
    c and whose leaf behind m holds the smaller key b. *)
Theorem checkPage_accepts_unordered_page :
  Pager.Get (Btree.root unordered_tree) (Btree.pager unordered_tree)
    = Ok (Page.mk false (-1) 1 [Key.mk (str "m") 2; Key.mk (str "c") 3]) ∧
  keyLess (str "m") (str "c") = false ∧
  Pager.Get 2 (Btree.pager unordered_tree) = Ok (Page.mk true 3 (-1) [Key.mk (str "b") 1]) ∧
  keyLess (str "b") (str "m") = true ∧
  Btree.checkPage 8 unordered_tree
    (Page.mk false (-1) 1 [Key.mk (str "m") 2; Key.mk (str "c") 3]) false [] 0 0 = Ok None ∧
  Btree.CheckConsistency 8 unordered_tree = Ok None.
Proof. split_and!; vm_compute; reflexivity. Qed.

(** C8: when the parent of a split page is full and is the root, [split]
    panics unless the path has length 2; with a path of length 2 it goes on
    with the path of the new root and the old root, in the state where the
    new root is a fresh internal page whose first reference is the old root
    and the root reference of the tree is the new root. *)
Theorem split_promotes_full_root (N fuel : nat) (key : bytes) (ref : Z) (path : list Z)
    (b : Btree.t) (s : bytes) (NP parent : Z) (b1 : Btree.t) :
  Btree.split_step N key ref path b = Ok ((s, NP, parent, false), b1) →
  parent = Btree.root b1 →
  (length path ≠ 2%nat →
   Btree.split_rec N (S fuel) key ref path b = Panic Btree.insane) ∧
  (length path = 2%nat →
   Btree.split_rec N (S fuel) key ref path b =
     Btree.split_rec N fuel s NP [Btree.root (promoted b1); Btree.root b1] (promoted b1) ∧
   Btree.root (promoted b1) = Z.of_nat (length (Btree.pager b1)) ∧
   Btree.pager (promoted b1) = Btree.pager b1 ++ [Page.mk false (-1) (Btree.root b1) []]).
Proof.
  intros Hstep Hroot. rewrite split_rec_unfold, Hstep. rewrite Hroot, Z.eqb_refl.
  split; intros Hlen.
  - destruct (Z.eqb_spec (Z.of_nat (length path)) 2) as [E|_]; [lia|]. done.
  - rewrite Hlen. simpl. by rewrite promote_root_run.
Qed.

Lemma split_promotes_full_root_witness :
  (length [0; 1] ≠ 2%nat →
   Btree.split_rec 4 (S 2) (key_of 1 ++ key_of 1) 16 [0; 1] full_root_tree
     = Panic Btree.insane) ∧
  (length [0; 1] = 2%nat →
   Btree.split_rec 4 (S 2) (key_of 1 ++ key_of 1) 16 [0; 1] full_root_tree =
     Btree.split_rec 4 2 (key_of 3) 5
       [Btree.root (promoted after_leaf_split); Btree.root after_leaf_split]
       (promoted after_leaf_split) ∧
   Btree.root (promoted after_leaf_split) = Z.of_nat (length (Btree.pager after_leaf_split)) ∧
   Btree.pager (promoted after_leaf_split) =
     Btree.pager after_leaf_split ++ [Page.mk false (-1) (Btree.root after_leaf_split) []]).
Proof.
  apply (split_promotes_full_root 4 2 (key_of 1 ++ key_of 1) 16 [0; 1] full_root_tree
           (key_of 3) 5 0 after_leaf_split).
  - vm_compute. reflexivity.
  - vm_compute. reflexivity.
Defined.

(** C9, as amended: every operation panics on a null or empty key, [Put],
    [Append] and [PutNext] panic on a null value, and [Start] panics on a
    null prefix, in every state; on a tree built by a legal sequence of
    operations, [Get], [Put] and [Append] on a non-empty key and a value
    that may be empty return, [Start] returns on every prefix, and
    [PutNext] returns when its key is above every key written before. *)
Theorem panics_on_invalid_inputs (N : nat) (ops : list op) :
  (2 ≤ N)%nat → legal ops →
  ∃ b, run_ops N ops Btree.NewInMemoryBtree = Ok (tt, b) ∧
    (∀ (b0 : Btree.t) (k v : slice), Btree.is_empty k = true →
       Btree.Get k b0 = Panic Btree.illegal_key ∧
       Btree.Put N k v b0 = Panic Btree.illegal_key_or_value ∧
       Btree.Append N k v b0 = Panic Btree.illegal_key_or_value ∧
       Btree.PutNext N k v b0 = Panic Btree.illegal_key_or_value) ∧
    (∀ (b0 : Btree.t) (k : slice),
       Btree.Put N k None b0 = Panic Btree.illegal_key_or_value ∧
       Btree.Append N k None b0 = Panic Btree.illegal_key_or_value ∧
       Btree.PutNext N k None b0 = Panic Btree.illegal_key_or_value) ∧
    (∀ b0 : Btree.t, Btree.Start None b0 = Panic Btree.illegal_key) ∧
    (∀ k v : bytes, k ≠ [] →
       (∃ r, Btree.Get (Some k) b = Ok r) ∧
       (∃ r, Btree.Put N (Some k) (Some v) b = Ok r) ∧
       (∃ r, Btree.Append N (Some k) (Some v) b = Ok r) ∧
       ((∀ k', written ops k' → klt k' k) →
        ∃ r, Btree.PutNext N (Some k) (Some v) b = Ok r)) ∧
    (∀ p : bytes, ∃ it, Btree.Start (Some p) b = Ok it).
Proof.
  intros HN Hl. destruct (run_ops_ok N HN ops Hl) as (b & Hrun & HR).
  exists b. split; [done|]. split_and!.
  - intros b0 k v Hk. unfold Btree.Get, Btree.Put, Btree.Append, Btree.PutNext.
    by rewrite Hk.
  - intros b0 k. unfold Btree.Put, Btree.Append, Btree.PutNext.
    rewrite bool_decide_true by done. by rewrite orb_true_r.
  - done.
  - intros k v Hk. split_and!.
    + rewrite (Get_ok N b _ k HR Hk). by eexists.
    + destruct (Put_ok N HN b _ k v HR Hk) as (b' & -> & _). by eexists.
    + destruct (Append_ok N HN b _ k v HR Hk) as (b' & -> & _). by eexists.
    + intros Hmax. destruct (PutNext_ok N HN b _ k v HR Hk) as (b' & -> & _); [|by eexists].
      intros k' Hk'. apply Hmax. by apply model_written.
  - intros p. destruct (iterate_ok N b _ p HR) as (it & _ & _ & -> & _). by eexists.
Qed.

Lemma panics_on_invalid_inputs_witness :
  ∃ b, run_ops 4 [OpPut (str "a") []; OpPut (str "b") (str "1")] Btree.NewInMemoryBtree
         = Ok (tt, b) ∧
    (∀ (b0 : Btree.t) (k v : slice), Btree.is_empty k = true →
       Btree.Get k b0 = Panic Btree.illegal_key ∧
       Btree.Put 4 k v b0 = Panic Btree.illegal_key_or_value ∧
       Btree.Append 4 k v b0 = Panic Btree.illegal_key_or_value ∧
       Btree.PutNext 4 k v b0 = Panic Btree.illegal_key_or_value) ∧
    (∀ (b0 : Btree.t) (k : slice),
       Btree.Put 4 k None b0 = Panic Btree.illegal_key_or_value ∧
       Btree.Append 4 k None b0 = Panic Btree.illegal_key_or_value ∧
       Btree.PutNext 4 k None b0 = Panic Btree.illegal_key_or_value) ∧
    (∀ b0 : Btree.t, Btree.Start None b0 = Panic Btree.illegal_key) ∧
    (∀ k v : bytes, k ≠ [] →
       (∃ r, Btree.Get (Some k) b = Ok r) ∧
       (∃ r, Btree.Put 4 (Some k) (Some v) b = Ok r) ∧
       (∃ r, Btree.Append 4 (Some k) (Some v) b = Ok r) ∧
       ((∀ k', written [OpPut (str "a") []; OpPut (str "b") (str "1")] k' → klt k' k) →
        ∃ r, Btree.PutNext 4 (Some k) (Some v) b = Ok r)) ∧
    (∀ p : bytes, ∃ it, Btree.Start (Some p) b = Ok it).
Proof.
  apply (panics_on_invalid_inputs 4 [OpPut (str "a") []; OpPut (str "b") (str "1")]).
  - lia.
  - simpl. repeat split; discriminate.
Defined.

(** C9, the claim as stated fails: after the keys 1, ..., 101 are put in
    ascending order, [PutNext] on the non-empty key 1 with a non-null value
    panics, though its inputs are valid. *)
Lemma putnext_panics_on_valid_inputs :
  run_ops ramPageSize ascending_101 Btree.NewInMemoryBtree
    = Ok (tt, tree_of ramPageSize ascending_101) ∧
  Btree.is_empty (Some (key_of 1)) = false ∧
  Btree.PutNext ramPageSize (Some (key_of 1)) (Some []) (tree_of ramPageSize ascending_101)
    = Panic Btree.out_of_order.
Proof. split_and!; vm_compute; reflexivity. Qed.

(** C10: for every state and every path, the recursion of [split] and of
    [appendPage] ends within one call more than the path is long, and more
    fuel does not change the outcome; the call after a root promotion, on
    the path of the new root and the old root, returns at once. *)
Theorem split_and_appendPage_terminate (N fuel : nat) (path : list Z) (key : bytes) (ref : Z)
    (b : Btree.t) :
  (2 ≤ N)%nat → (length path < fuel)%nat →
  terminates (Btree.split N key ref path b) = true ∧
  terminates (Btree.appendPage N key ref path b) = true ∧
  Btree.split_rec N fuel key ref path b = Btree.split N key ref path b ∧
  Btree.appendPage_rec N fuel key ref path b = Btree.appendPage N key ref path b ∧
  (∀ oldRoot, 0 ≤ oldRoot < Z.of_nat (length (Btree.pager b)) →
     (∃ b', Btree.split_rec N 1 key ref [Btree.root (promoted b); oldRoot] (promoted b)
            = Ok (tt, b')) ∧
     (∃ b', Btree.appendPage_rec N 1 key ref [Btree.root (promoted b); oldRoot] (promoted b)
            = Ok (tt, b'))).
Proof.
  intros HN Hf. split_and!.
  - apply split_rec_terminates; [done|lia].
  - apply appendPage_rec_terminates; [done|lia].
  - by apply split_rec_fuel.
  - by apply appendPage_rec_fuel.
  - intros oldRoot Hold. split.
    + apply (split_promoted_returns N HN 0 key ref oldRoot b Hold).
    + apply (appendPage_promoted_returns N HN 0 key ref oldRoot b Hold).
Qed.

Lemma split_and_appendPage_terminate_witness :
  terminates (Btree.split 4 (key_of 1 ++ key_of 1) 16 [0; 1] full_root_tree) = true ∧
  terminates (Btree.appendPage 4 (key_of 1 ++ key_of 1) 16 [0; 1] full_root_tree) = true ∧
  Btree.split_rec 4 5 (key_of 1 ++ key_of 1) 16 [0; 1] full_root_tree =
    Btree.split 4 (key_of 1 ++ key_of 1) 16 [0; 1] full_root_tree ∧
  Btree.appendPage_rec 4 5 (key_of 1 ++ key_of 1) 16 [0; 1] full_root_tree =
    Btree.appendPage 4 (key_of 1 ++ key_of 1) 16 [0; 1] full_root_tree ∧
  (∀ oldRoot, 0 ≤ oldRoot < Z.of_nat (length (Btree.pager full_root_tree)) →
     (∃ b', Btree.split_rec 4 1 (key_of 1 ++ key_of 1) 16
              [Btree.root (promoted full_root_tree); oldRoot] (promoted full_root_tree)
            = Ok (tt, b')) ∧
     (∃ b', Btree.appendPage_rec 4 1 (key_of 1 ++ key_of 1) 16
              [Btree.root (promoted full_root_tree); oldRoot] (promoted full_root_tree)
            = Ok (tt, b'))).
Proof.
  apply (split_and_appendPage_terminate 4 5 [0; 1] (key_of 1 ++ key_of 1) 16 full_root_tree).
  - lia.
  - simpl. lia.
Defined.

(** * A further property *)

(** After a legal sequence of operations the pages satisfy the invariant of
    the tree for some table of levels and key intervals: the root is an
    internal page that covers every key, the keys of every page are strictly
    ascending inside the interval of the page, the children of an internal
    page cover consecutive intervals, the sibling references link the pages
    of a level in ascending order, and no page is above its capacity. *)
Theorem legal_runs_keep_the_invariant (N : nat) (ops : list op) :
  (2 ≤ N)%nat → legal ops →
  ∃ b G, run_ops N ops Btree.NewInMemoryBtree = Ok (tt, b) ∧
         SInv (Btree.pager b) (Btree.root b) G ∧ CapInv N (Btree.pager b).
Proof.
  intros HN Hl. destruct (run_ops_ok N HN ops Hl) as (b & Hrun & HR).
  destruct (r_sinv _ _ _ HR) as [G HS]. exists b, G. split; [done|]. split; [done|apply HR].
Qed.

Lemma legal_runs_keep_the_invariant_witness :
  ∃ b G, run_ops 4 ((λ n, OpPut (key_of n) []) <$> seq 1 9) Btree.NewInMemoryBtree
           = Ok (tt, b) ∧
         SInv (Btree.pager b) (Btree.root b) G ∧ CapInv 4 (Btree.pager b).
Proof.
  apply (legal_runs_keep_the_invariant 4 ((λ n, OpPut (key_of n) []) <$> seq 1 9)).
  - lia.
  - simpl. repeat split; discriminate.
Defined.

(** * Further properties of the operations *)

(** ** The runs of [Put] and [PutNext] on a new key *)

Section NewKey.
Context (N : nat).
Hypothesis HN : (2 ≤ N)%nat.

Lemma Put_absent b m k v :
  Rep N b m → k ≠ [] → m !! k = None →
  ∃ b', Btree.Put N (Some k) (Some v) b = Ok (false, b') ∧
        Rep N b' (<[k := v]> m) ∧ adds_record b k v b'.
Proof.
  intros HR Hk Hm. destruct (r_sinv _ _ _ HR) as [G HS].
  destruct (search_ok b G HS k)
    as (pre & Q & P & pP & iP & Hrun & Hhead & HP & HPl & HiP & HlP & Hr & Hlk).
  unfold Btree.Put. destruct k as [|c k]; [done|]. rewrite guard_ok. cbv iota. simpl default.
  unfold Btree.bind at 1. unfold Btree.gets at 1. simpl id.
  unfold Btree.bind at 1. rewrite Hrun. simpl Btree.lift.
  destruct (sinv_leaf HS _ _ _ HP HiP HPl) as (_ & Hok & _).
  destruct (leaf_search _ _ pP (c :: k) Hok) as [(x & Es & Hx & E)|(x & Es & Hx)]; rewrite Es.
  - exfalso. assert (leafrec (Btree.pager b) x) as Hrec by (by exists P, pP).
    destruct (r_vals _ _ _ HR x Hrec) as [[v0 Hv0] _]. congruence.
  - cbn [fst snd]. cbv beta iota.
    unfold Btree.bind at 1. unfold Btree.gets at 1.
    rewrite (bind_Ok _ _ _ _ _ (last_index_1' _ _ _ _)).
    rewrite (bind_Ok _ _ _ _ _ (pagerGet_Ok _ _ _ HP)).
    destruct (insert_or_split N HN b G (c :: k) (Z.of_nat (length (Btree.values b))) pre Q P pP iP
                HS (r_cap _ _ _ HR) Hhead HP HPl HiP HlP Hr Hlk Hx) as (b1 & Hrun1 & Hpost).
    unfold Btree.bind in Hrun1.
    unfold Btree.bind at 1.
    destruct (Btree.call P (Page.Insert N (c :: k) (Z.of_nat (length (Btree.values b)))) b)
      as [[ok b0]| |]; try done.
    unfold Btree.bind at 1. rewrite Hrun1.
    pose proof Hpost as (_ & _ & Hv & Hsz & Hrec & _).
    unfold Btree.bind at 1. unfold Btree.modify at 1.
    erewrite bind_Ok.
    2:{ apply (set_value_run _ _ _ []). simpl. rewrite Hv.
        by rewrite zget_snoc, bool_decide_true. }
    unfold Btree.bind, Btree.modify, Btree.ret. simpl.
    eexists. split; [done|].
    rewrite Hv, Hsz, zset_snoc_new. simpl. unfold copyBytes. split.
    + apply (Rep_insert N HN b m b1 (c :: k) v P pP HR Hm HP HPl Hpost).
    + split; [done|]. split; [done|]. simpl. intros y. rewrite Hrec. by apply leafrec_place.
Qed.

Lemma PutNext_run b m k v :
  Rep N b m → k ≠ [] → (∀ k', is_Some (m !! k') → klt k' k) →
  ∃ b', Btree.PutNext N (Some k) (Some v) b = Ok (tt, b') ∧
        Rep N b' (<[k := v]> m) ∧ adds_record b k v b'.
Proof.
  intros HR Hk Hmax. destruct (r_sinv _ _ _ HR) as [G HS].
  destruct (s_root _ _ _ HS) as (h & Hroot & _ & Hh).
  destruct (sinv_page_of HS _ _ Hroot) as [pR HpR].
  assert (Hall : ∀ x, leafrec (Btree.pager b) x → klt (Key.Get x) k).
  { intros x Hx. apply Hmax. by destruct (r_vals _ _ _ HR x Hx). }
  assert (Hint : ∀ r p x, zget (Btree.pager b) r = Some p → Page.IsLeaf p = false →
                          x ∈ Page.keys p → klt (Key.Get x) k).
  { intros r p x Hp Hl Hx. destruct (r_prov _ _ _ HR r p x Hp Hl Hx) as (y & Hy & <-).
    by apply Hall. }
  destruct (descend_last_ok b G k HS Hint (S (length (Btree.pager b))) (Btree.root b) pR _
              [Btree.root b] HpR Hroot)
    as (rest & P & pP & iP & Hrun & Hlast & HP & HPl & HiP & HlP & HhP & HloP & Hlk & Hlen);
    [done|simpl; by apply klt_nil|simpl; lia|].
  simpl in Hlen.
  destruct rest as [|r1 rest] using rev_ind; [done|]. clear IHrest.
  assert (P = r1) as ->.
  { rewrite app_comm_cons, last_snoc in Hlast. by injection Hlast as <-. }
  assert (∃ pre Q, Btree.root b :: rest = pre ++ [Q]) as (pre & Q & E).
  { destruct rest as [|r0 rest0 _] using rev_ind.
    - by exists [], (Btree.root b).
    - by exists (Btree.root b :: rest0), r0. }
  assert (Epath : Btree.root b :: rest ++ [r1] = pre ++ [Q; r1]).
  { rewrite app_comm_cons, E, <- app_assoc. done. }
  assert (Hm : m !! k = None).
  { destruct (m !! k) as [w|] eqn:Em; [|done]. exfalso.
    assert (klt k k) by (apply Hmax; by rewrite Em). korder. }
  assert (Hfresh : k ∉ Key.Get <$> Page.keys pP).
  { apply fresh_of_lt. intros x Hx. apply Hall. by exists r1, pP. }
  unfold Btree.PutNext. destruct k as [|c k]; [done|]. rewrite guard_ok. cbv iota. simpl default.
  unfold Btree.bind at 1. unfold Btree.gets at 1.
  rewrite (bind_Ok _ _ _ _ _ (pagerGet_Ok _ _ _ HpR)).
  unfold Btree.bind at 1. unfold Btree.gets at 1. simpl id.
  unfold Btree.bind at 1. unfold Btree.lift at 1. rewrite Hrun. simpl app. rewrite Epath.
  cbv beta iota.
  unfold Btree.bind at 1. unfold Btree.gets at 1.
  unfold Btree.bind at 1. unfold Btree.modify at 1.
  set (b0 := Btree.set_values (Btree.values b ++ [copyBytes v]) b).
  rewrite (bind_Ok _ _ _ _ _ (last_index_1' _ _ _ _)).
  destruct (append_or_insert N HN b0 G (c :: k) (Z.of_nat (length (Btree.values b))) pre Q r1 pP iP)
    as (b1 & Hrun1 & Hpost); try done.
  { exact (r_cap _ _ _ HR). }
  { by rewrite <- Epath. }
  { by rewrite <- Epath. }
  { intros x Hx. apply Hall. by exists r1, pP. }
  unfold Btree.bind in Hrun1. change (copyBytes (c :: k)) with (c :: k).
  unfold Btree.bind at 1.
  destruct (Btree.call r1 (Page.Insert N (c :: k) (Z.of_nat (length (Btree.values b)))) b0)
    as [[ok b0']| |]; try done.
  unfold Btree.bind at 1. rewrite Hrun1.
  unfold Btree.modify. eexists. split; [done|].
  destruct Hpost as (HG & Hcap & Hv & Hsz & Hrec & Hcnt & Hprov).
  simpl in Hv, Hsz, Hrec, Hcnt, Hprov.
  assert (Hb1 : Btree.set_size (Btree.wrap64 (Btree.size b1 + 1)) b1 =
                Btree.mk (Btree.pager b1) (Btree.values b ++ [v]) (Btree.root b1)
                  (Btree.wrap64 (Btree.size b + 1))).
  { destruct b1. simpl in *. by subst. }
  rewrite Hb1. split.
  - apply (Rep_insert N HN b m
             (Btree.mk (Btree.pager b1) (Btree.values b) (Btree.root b1) (Btree.size b))
             (c :: k) v r1 pP HR Hm HP HPl).
    split; [done|]. simpl. by split_and!.
  - split; [done|]. split; [done|]. simpl. intros y. rewrite Hrec. by apply leafrec_place.
Qed.

Lemma Append_present b m k v old :
  Rep N b m → k ≠ [] → m !! k = Some old →
  ∃ b', Btree.Append N (Some k) (Some v) b = Ok (tt, b') ∧
        Rep N b' (<[k := old ++ v]> m) ∧ overwrites b k (old ++ v) b'.
Proof.
  intros HR Hk Hm. destruct (r_sinv _ _ _ HR) as [G HS].
  destruct (search_ok b G HS k)
    as (pre & Q & P & pP & iP & Hrun & Hhead & HP & HPl & HiP & HlP & Hr & Hlk).
  unfold Btree.Append. destruct k as [|c k]; [done|]. rewrite guard_ok. cbv iota. simpl default.
  unfold Btree.bind at 1. unfold Btree.gets at 1. simpl id.
  unfold Btree.bind at 1. rewrite Hrun. simpl Btree.lift.
  destruct (sinv_leaf HS _ _ _ HP HiP HPl) as (_ & Hok & _).
  destruct (leaf_search _ _ pP (c :: k) Hok) as [(x & Es & Hx & E)|(x & Es & Hx)]; rewrite Es.
  - assert (leafrec (Btree.pager b) x) as Hrec by (by exists P, pP).
    destruct (r_vals _ _ _ HR x Hrec) as [_ Hz0]. rewrite E, Hm in Hz0.
    cbn [fst snd]. cbv beta iota.
    rewrite (set_value_run _ _ _ _ Hz0).
    eexists. split; [done|]. split.
    + rewrite <- E. by apply Rep_overwrite.
    + by exists x.
  - exfalso. destruct (r_dom _ _ _ HR (c :: k)) as (y & Hy & E); [by eexists|].
    apply Hx. apply list_elem_of_fmap. exists y. split; [done|].
    eapply (leafrec_in_leaf b G HS); eauto. by rewrite E.
Qed.

Lemma Append_absent b m k v :
  Rep N b m → k ≠ [] → m !! k = None →
  ∃ b', Btree.Put N (Some k) (Some v) b = Ok (false, b') ∧
        Btree.Append N (Some k) (Some v) b = Ok (tt, b') ∧
        Rep N b' (<[k := v]> m) ∧ adds_record b k v b'.
Proof.
  intros HR Hk Hm. destruct (Put_absent b m k v HR Hk Hm) as (b' & Hput & HR' & Hadd).
  exists b'. split; [done|]. split; [|done].
  destruct (r_sinv _ _ _ HR) as [G HS].
  destruct (search_ok b G HS k)
    as (pre & Q & P & pP & iP & Hrun & Hhead & HP & HPl & HiP & HlP & Hr & Hlk).
  unfold Btree.Append. destruct k as [|c k]; [done|]. rewrite guard_ok. cbv iota. simpl default.
  unfold Btree.bind at 1. unfold Btree.gets at 1. simpl id.
  unfold Btree.bind at 1. rewrite Hrun. simpl Btree.lift.
  destruct (sinv_leaf HS _ _ _ HP HiP HPl) as (_ & Hok & _).
  destruct (leaf_search _ _ pP (c :: k) Hok) as [(x & Es & Hx & E)|(x & Es & Hx)]; rewrite Es.
  - exfalso. assert (leafrec (Btree.pager b) x) as Hrec by (by exists P, pP).
    destruct (r_vals _ _ _ HR x Hrec) as [[v0 Hv0] _]. congruence.
  - cbn [fst snd]. cbv beta iota. unfold Btree.bind. by rewrite Hput.
Qed.

Lemma Put_overwrites b m k v :
  Rep N b m → k ≠ [] → is_Some (m !! k) →
  ∃ b', Btree.Put N (Some k) (Some v) b = Ok (true, b') ∧
        Rep N b' (<[k := v]> m) ∧ overwrites b k v b'.
Proof.
  intros HR Hk Hm. destruct (Put_present N b m k v HR Hk Hm) as (x & Hx & E & Hrun).
  eexists. split; [done|]. split.
  - rewrite <- E. by apply Rep_overwrite.
  - by exists x.
Qed.

(** One operation: it overwrites the slot of a key that is present and adds
    a record for a key that is new. *)
Lemma op_step b m o :
  Rep N b m → legal_op m o →
  ∃ b', apply_op N o b = Ok (tt, b') ∧ Rep N b' (model_step m o) ∧
        match m !! op_key o with
        | Some _ => overwrites b (op_key o) (op_result m o) b'
        | None => adds_record b (op_key o) (op_result m o) b'
        end.
Proof.
  intros HR Hl. destruct o as [k v|k v|k v]; simpl in *.
  - destruct (m !! k) as [old|] eqn:Em.
    + destruct (Put_overwrites b m k v HR Hl) as (b' & Hrun & HR' & Ho); [by eexists|].
      exists b'. unfold Btree.bind. by rewrite Hrun.
    + destruct (Put_absent b m k v HR Hl Em) as (b' & Hrun & HR' & Ha).
      exists b'. unfold Btree.bind. by rewrite Hrun.
  - destruct (m !! k) as [old|] eqn:Em; simpl.
    + destruct (Append_present b m k v old HR Hl Em) as (b' & Hrun & HR' & Ho). by exists b'.
    + destruct (Append_absent b m k v HR Hl Em) as (b' & _ & Hrun & HR' & Ha). by exists b'.
  - destruct Hl as [Hk Hmax]. destruct (m !! k) as [old|] eqn:Em.
    + exfalso. assert (klt k k) by (apply Hmax; by rewrite Em). korder.
    + destruct (PutNext_run b m k v HR Hk Hmax) as (b' & Hrun & HR' & Ha). by exists b'.
Qed.

End NewKey.

(** ** Legal sequences *)

Lemma legal_from_snoc ops : ∀ (m : gmap bytes bytes) o,
  legal_from m (ops ++ [o]) ↔ legal_from m ops ∧ legal_op (fold_left model_step ops m) o.
Proof.
  induction ops as [|o' ops IH]; intros m o; simpl.
  - naive_solver.
  - rewrite IH. naive_solver.
Qed.

Lemma legal_from_keys ops : ∀ (m : gmap bytes bytes) o,
  legal_from m ops → o ∈ ops → op_key o ≠ [].
Proof.
  induction ops as [|o' ops IH]; intros m o Hl Ho; [by apply elem_of_nil in Ho|].
  destruct Hl as [Ho' Hl]. apply elem_of_cons in Ho as [->|Ho]; [|by eapply IH].
  destruct o'; simpl in *; naive_solver.
Qed.

Lemma written_nonempty ops k : legal ops → written ops k → k ≠ [].
Proof. intros Hl (o & Ho & <-). by eapply legal_from_keys. Qed.

(** ** Reading back what was written *)

(** After a legal operation on a key, [Get] on the key returns the value
    the operation wrote (for [Append], what [Get] returned before, extended),
    and [Get] on every other key returns what it returned before. *)
Theorem write_then_get (N : nat) (ops : list op) (o : op) :
  (2 ≤ N)%nat → legal (ops ++ [o]) →
  ∃ b b' found old,
    run_ops N ops Btree.NewInMemoryBtree = Ok (tt, b) ∧
    apply_op N o b = Ok (tt, b') ∧
    Btree.Get (Some (op_key o)) b = Ok (found, old) ∧
    Btree.Get (Some (op_key o)) b' =
      Ok (true, match o with
                | OpPut _ v | OpPutNext _ v => v
                | OpAppend _ v => old ++ v
                end) ∧
    ∀ k, k ≠ [] → k ≠ op_key o → Btree.Get (Some k) b' = Btree.Get (Some k) b.
Proof.
  intros HN Hl. apply legal_from_snoc in Hl as [Hl Ho].
  destruct (run_ops_ok N HN ops Hl) as (b & Hrun & HR). fold (model ops) in Ho.
  destruct (op_step N HN b _ o HR Ho) as (b' & Hstep & HR' & _).
  assert (Hk : op_key o ≠ []) by (destruct o; simpl in *; naive_solver).
  exists b, b'.
  exists (match model ops !! op_key o with Some _ => true | None => false end), (default [] (model ops !! op_key o)).
  split; [done|]. split; [done|]. split.
  { rewrite (Get_ok N b _ _ HR Hk). by destruct (model ops !! op_key o). }
  split.
  - rewrite (Get_ok N b' _ _ HR' Hk).
    destruct o as [k v|k v|k v]; simpl; by rewrite lookup_insert_eq.
  - intros k Hk0 Hne. rewrite (Get_ok N b' _ _ HR' Hk0), (Get_ok N b _ _ HR Hk0).
    destruct (model_step_insert (model ops) o) as [w ->]. by rewrite lookup_insert_ne.
Qed.

Lemma write_then_get_witness :
  ∃ b b' found old,
    run_ops 4 [OpPut (str "a") (str "1"); OpPut (str "b") (str "2")] Btree.NewInMemoryBtree
      = Ok (tt, b) ∧
    apply_op 4 (OpAppend (str "a") (str "3")) b = Ok (tt, b') ∧
    Btree.Get (Some (op_key (OpAppend (str "a") (str "3")))) b = Ok (found, old) ∧
    Btree.Get (Some (op_key (OpAppend (str "a") (str "3")))) b' =
      Ok (true, match OpAppend (str "a") (str "3") with
                | OpPut _ v | OpPutNext _ v => v
                | OpAppend _ v => old ++ v
                end) ∧
    ∀ k, k ≠ [] → k ≠ op_key (OpAppend (str "a") (str "3")) →
         Btree.Get (Some k) b' = Btree.Get (Some k) b.
Proof.
  apply (write_then_get 4 [OpPut (str "a") (str "1"); OpPut (str "b") (str "2")]
           (OpAppend (str "a") (str "3"))).
  - lia.
  - simpl. repeat split; discriminate.
Defined.

(** [Get] on a non-empty key that no operation wrote returns false and no
    value. *)
Theorem get_misses_unwritten_key (N : nat) (ops : list op) (k : bytes) :
  (2 ≤ N)%nat → legal ops → k ≠ [] → (∀ o, o ∈ ops → op_key o ≠ k) →
  ∃ b, run_ops N ops Btree.NewInMemoryBtree = Ok (tt, b) ∧
       Btree.Get (Some k) b = Ok (false, []).
Proof.
  intros HN Hl Hk Hw. destruct (run_ops_ok N HN ops Hl) as (b & Hrun & HR).
  exists b. split; [done|]. rewrite (Get_ok N b _ k HR Hk).
  destruct (model ops !! k) as [v|] eqn:E; [|done].
  destruct (proj1 (model_written ops k)) as (o & Ho & Eo); [by eexists|]. by destruct (Hw o Ho).
Qed.

Lemma get_misses_unwritten_key_witness :
  ∃ b, run_ops 4 [OpPut (str "a") (str "1"); OpAppend (str "c") (str "2")]
         Btree.NewInMemoryBtree = Ok (tt, b) ∧
       Btree.Get (Some (str "b")) b = Ok (false, []).
Proof.
  apply (get_misses_unwritten_key 4 [OpPut (str "a") (str "1"); OpAppend (str "c") (str "2")]
           (str "b")).
  - lia.
  - simpl. repeat split; discriminate.
  - discriminate.
  - intros o Ho. repeat (apply elem_of_cons in Ho as [->|Ho]; [discriminate|]).
    by apply elem_of_nil in Ho.
Defined.

(** ** The size and the value arena under one operation *)

(** A legal operation on a key that was written before leaves [Size] as it
    is; on a new key it increments [Size] (an [int64]) by one. *)
Theorem size_steps_with_new_keys (N : nat) (ops : list op) (o : op) :
  (2 ≤ N)%nat → legal (ops ++ [o]) →
  ∃ b b',
    run_ops N ops Btree.NewInMemoryBtree = Ok (tt, b) ∧
    apply_op N o b = Ok (tt, b') ∧
    (written ops (op_key o) → Btree.Size b' = Btree.Size b) ∧
    ((∀ o', o' ∈ ops → op_key o' ≠ op_key o) →
     Btree.Size b' = Btree.wrap64 (Btree.Size b + 1)).
Proof.
  intros HN Hl. apply legal_from_snoc in Hl as [Hl Ho].
  destruct (run_ops_ok N HN ops Hl) as (b & Hrun & HR). fold (model ops) in Ho.
  destruct (op_step N HN b _ o HR Ho) as (b' & Hstep & HR' & Hkind).
  exists b, b'. split; [done|]. split; [done|]. unfold Btree.Size. split.
  - intros Hw. apply model_written in Hw as [old Hold]. rewrite Hold in Hkind.
    destruct Hkind as (x & _ & _ & ->). done.
  - intros Hnew. destruct (model ops !! op_key o) as [old|] eqn:E.
    + destruct (proj1 (model_written ops (op_key o))) as (o' & Ho' & Eo'); [by eexists|].
      by destruct (Hnew o' Ho').
    + by destruct Hkind as (_ & -> & _).
Qed.

Lemma size_steps_with_new_keys_witness :
  ∃ b b',
    run_ops 4 [OpPut (str "a") (str "1"); OpPut (str "b") (str "2")] Btree.NewInMemoryBtree
      = Ok (tt, b) ∧
    apply_op 4 (OpPut (str "a") (str "3")) b = Ok (tt, b') ∧
    (written [OpPut (str "a") (str "1"); OpPut (str "b") (str "2")]
       (op_key (OpPut (str "a") (str "3"))) → Btree.Size b' = Btree.Size b) ∧
    ((∀ o', o' ∈ [OpPut (str "a") (str "1"); OpPut (str "b") (str "2")] →
            op_key o' ≠ op_key (OpPut (str "a") (str "3"))) →
     Btree.Size b' = Btree.wrap64 (Btree.Size b + 1)).
Proof.
  apply (size_steps_with_new_keys 4 [OpPut (str "a") (str "1"); OpPut (str "b") (str "2")]
           (OpPut (str "a") (str "3"))).
  - lia.
  - simpl. repeat split; discriminate.
Defined.

(** A legal operation drops and moves no record: every leaf record keeps
    its key and its slot of the value arena, the arena grows by at most one
    slot, which a new key gets, and the slots of the other keys keep their
    contents. *)
Theorem records_keep_their_slots (N : nat) (ops : list op) (o : op) :
  (2 ≤ N)%nat → legal (ops ++ [o]) →
  ∃ b b',
    run_ops N ops Btree.NewInMemoryBtree = Ok (tt, b) ∧
    apply_op N o b = Ok (tt, b') ∧
    (∀ x, leafrec (Btree.pager b) x → leafrec (Btree.pager b') x) ∧
    (∀ x, leafrec (Btree.pager b') x →
          leafrec (Btree.pager b) x ∨
          x = Key.mk (op_key o) (Z.of_nat (length (Btree.values b)))) ∧
    (length (Btree.values b) ≤ length (Btree.values b') ≤ S (length (Btree.values b)))%nat ∧
    (∀ x, leafrec (Btree.pager b) x → Key.Get x ≠ op_key o →
          zget (Btree.values b') (Key.Ref x) = zget (Btree.values b) (Key.Ref x)).
Proof.
  intros HN Hl. apply legal_from_snoc in Hl as [Hl Ho].
  destruct (run_ops_ok N HN ops Hl) as (b & Hrun & HR). fold (model ops) in Ho.
  destruct (op_step N HN b _ o HR Ho) as (b' & Hstep & HR' & Hkind).
  exists b, b'. split; [done|]. split; [done|].
  assert (Hrec : ∀ x, leafrec (Btree.pager b) x → leafrec (Btree.pager b') x).
  { intros x Hx. destruct (model ops !! op_key o).
    - by destruct Hkind as (y & _ & _ & ->).
    - destruct Hkind as (_ & _ & Hiff). apply Hiff. by right. }
  split; [done|]. split_and!.
  - intros x Hx. destruct (model ops !! op_key o).
    + destruct Hkind as (y & _ & _ & ->). by left.
    + destruct Hkind as (_ & _ & Hiff). apply Hiff in Hx as [->|Hx]; [by right|by left].
  - destruct (model ops !! op_key o).
    + destruct Hkind as (y & _ & _ & ->). simpl. rewrite zset_length. lia.
    + destruct Hkind as (-> & _). rewrite length_app. simpl. lia.
  - destruct (model ops !! op_key o).
    + destruct Hkind as (y & _ & _ & ->). simpl. rewrite zset_length. lia.
    + destruct Hkind as (-> & _). rewrite length_app. simpl. lia.
  - intros x Hx Hne.
    destruct (r_vals _ _ _ HR' x (Hrec x Hx)) as [_ ->].
    destruct (r_vals _ _ _ HR x Hx) as [_ ->].
    destruct (model_step_insert (model ops) o) as [w ->]. by rewrite lookup_insert_ne.
Qed.

Lemma records_keep_their_slots_witness :
  ∃ b b',
    run_ops 4 ((λ n, OpPut (key_of n) []) <$> [2; 4; 6; 8]%nat) Btree.NewInMemoryBtree
      = Ok (tt, b) ∧
    apply_op 4 (OpPut (key_of 5) []) b = Ok (tt, b') ∧
    (∀ x, leafrec (Btree.pager b) x → leafrec (Btree.pager b') x) ∧
    (∀ x, leafrec (Btree.pager b') x →
          leafrec (Btree.pager b) x ∨
          x = Key.mk (op_key (OpPut (key_of 5) [])) (Z.of_nat (length (Btree.values b)))) ∧
    (length (Btree.values b) ≤ length (Btree.values b') ≤ S (length (Btree.values b)))%nat ∧
    (∀ x, leafrec (Btree.pager b) x → Key.Get x ≠ op_key (OpPut (key_of 5) []) →
          zget (Btree.values b') (Key.Ref x) = zget (Btree.values b) (Key.Ref x)).
Proof.
  apply (records_keep_their_slots 4 ((λ n, OpPut (key_of n) []) <$> [2; 4; 6; 8]%nat)
           (OpPut (key_of 5) [])).
  - lia.
  - simpl. repeat split; discriminate.
Defined.

(** ** [Append] and [Put] *)

Lemma set_values_id b : Btree.set_values (Btree.values b) b = b.
Proof. by destruct b. Qed.

(** [Append] on a key that was not written is [Put]: both end in the same
    tree.  On a key that was written it extends the slot of the key and
    changes nothing else; with an empty value it changes nothing. *)
Theorem append_is_put_or_extends (N : nat) (ops : list op) (k v : bytes) :
  (2 ≤ N)%nat → legal ops → k ≠ [] →
  ∃ b b',
    run_ops N ops Btree.NewInMemoryBtree = Ok (tt, b) ∧
    Btree.Append N (Some k) (Some v) b = Ok (tt, b') ∧
    ((∀ o, o ∈ ops → op_key o ≠ k) → Btree.Put N (Some k) (Some v) b = Ok (false, b')) ∧
    (written ops k →
     ∃ x old, leafrec (Btree.pager b) x ∧ Key.Get x = k ∧
              zget (Btree.values b) (Key.Ref x) = Some old ∧
              b' = Btree.set_values (zset (Key.Ref x) (old ++ v) (Btree.values b)) b) ∧
    (written ops k → v = [] → b' = b).
Proof.
  intros HN Hl Hk. destruct (run_ops_ok N HN ops Hl) as (b & Hrun & HR).
  destruct (model ops !! k) as [old|] eqn:Em.
  - destruct (Append_present N b _ k v old HR Hk Em) as (b' & Happ & _ & x & Hx & E & ->).
    assert (Hold : zget (Btree.values b) (Key.Ref x) = Some old).
    { destruct (r_vals _ _ _ HR x Hx) as [_ ->]. by rewrite E. }
    eexists b, _. split; [done|]. split; [done|]. split_and!.
    + intros Hnew. destruct (proj1 (model_written ops k)) as (o & Ho & Eo); [by eexists|].
      by destruct (Hnew o Ho).
    + intros _. by exists x, old.
    + intros _ ->. rewrite app_nil_r, (zset_id _ _ _ Hold). apply set_values_id.
  - destruct (Append_absent N HN b _ k v HR Hk Em) as (b' & Hput & Happ & _).
    exists b, b'. split; [done|]. split; [done|]. split_and!.
    + done.
    + intros Hw. apply model_written in Hw as [? ?]. congruence.
    + intros Hw. apply model_written in Hw as [? ?]. congruence.
Qed.

Lemma append_is_put_or_extends_witness :
  ∃ b b',
    run_ops 4 [OpPut (str "a") (str "1"); OpPut (str "b") (str "2")] Btree.NewInMemoryBtree
      = Ok (tt, b) ∧
    Btree.Append 4 (Some (str "c")) (Some (str "3")) b = Ok (tt, b') ∧
    ((∀ o, o ∈ [OpPut (str "a") (str "1"); OpPut (str "b") (str "2")] → op_key o ≠ str "c") →
     Btree.Put 4 (Some (str "c")) (Some (str "3")) b = Ok (false, b')) ∧
    (written [OpPut (str "a") (str "1"); OpPut (str "b") (str "2")] (str "c") →
     ∃ x old, leafrec (Btree.pager b) x ∧ Key.Get x = str "c" ∧
              zget (Btree.values b) (Key.Ref x) = Some old ∧
              b' = Btree.set_values (zset (Key.Ref x) (old ++ str "3") (Btree.values b)) b) ∧
    (written [OpPut (str "a") (str "1"); OpPut (str "b") (str "2")] (str "c") →
     str "3" = [] → b' = b).
Proof.
  apply (append_is_put_or_extends 4 [OpPut (str "a") (str "1"); OpPut (str "b") (str "2")]
           (str "c") (str "3")).
  - lia.
  - simpl. repeat split; discriminate.
  - discriminate.
Defined.

(** [Put] is idempotent: a second [Put] of the same key and value reports
    a replacement and leaves the tree as the first one left it. *)
Theorem put_is_idempotent (N : nat) (ops : list op) (k v : bytes) :
  (2 ≤ N)%nat → legal ops → k ≠ [] →
  ∃ b replaced b',
    run_ops N ops Btree.NewInMemoryBtree = Ok (tt, b) ∧
    Btree.Put N (Some k) (Some v) b = Ok (replaced, b') ∧
    Btree.Put N (Some k) (Some v) b' = Ok (true, b').
Proof.
  intros HN Hl Hk. destruct (run_ops_ok N HN ops Hl) as (b & Hrun & HR).
  destruct (Put_ok N HN b _ k v HR Hk) as (b' & Hput & HR').
  eexists b, _, b'. split; [done|]. split; [done|].
  destruct (Put_present N b' _ k v HR' Hk) as (x & Hx & E & ->).
  { rewrite lookup_insert_eq. by eexists. }
  destruct (r_vals _ _ _ HR' x Hx) as [_ Hz]. rewrite E, lookup_insert_eq in Hz.
  unfold copyBytes. by rewrite (zset_id _ _ _ Hz), set_values_id.
Qed.

Lemma put_is_idempotent_witness :
  ∃ b replaced b',
    run_ops 4 ((λ n, OpPut (key_of n) []) <$> [2; 4; 6; 8]%nat) Btree.NewInMemoryBtree
      = Ok (tt, b) ∧
    Btree.Put 4 (Some (key_of 5)) (Some (str "x")) b = Ok (replaced, b') ∧
    Btree.Put 4 (Some (key_of 5)) (Some (str "x")) b' = Ok (true, b').
Proof.
  apply (put_is_idempotent 4 ((λ n, OpPut (key_of n) []) <$> [2; 4; 6; 8]%nat)
           (key_of 5) (str "x")).
  - lia.
  - simpl. repeat split; discriminate.
  - discriminate.
Defined.

(** ** [search] *)

(** On a tree built by a legal sequence of operations, [search] returns:
    its path starts at the root, goes from each page to one of its children
    and ends at a leaf, so it has at least two pages; it reports the key as
    found exactly when the key was written, and then returns the leaf record
    of the key, whose slot holds the value of the key. *)
Theorem search_reaches_the_record (N : nat) (ops : list op) (k : bytes) :
  (2 ≤ N)%nat → legal ops → k ≠ [] →
  ∃ b found rec path leaf page,
    run_ops N ops Btree.NewInMemoryBtree = Ok (tt, b) ∧
    Btree.search b k = Ok (found, rec, path) ∧
    head path = Some (Btree.root b) ∧ last path = Some leaf ∧ (2 ≤ length path)%nat ∧
    links (Btree.pager b) path ∧
    zget (Btree.pager b) leaf = Some page ∧ Page.IsLeaf page = true ∧
    (found = true ↔ written ops k) ∧
    (found = true →
     rec ∈ Page.keys page ∧ Key.Get rec = k ∧
     zget (Btree.values b) (Key.Ref rec) = latest k (reverse ops)).
Proof.
  intros HN Hl Hk. destruct (run_ops_ok N HN ops Hl) as (b & Hrun & HR).
  destruct (r_sinv _ _ _ HR) as [G HS].
  destruct (search_ok b G HS k)
    as (pre & Q & P & pP & iP & Hs & Hhead & HP & HPl & HiP & HlP & Hr & Hlk).
  destruct (sinv_leaf HS _ _ _ HP HiP HPl) as (_ & Hok & _).
  exists b, (Page.Search k pP).1, (Page.Search k pP).2, (pre ++ [Q; P]), P, pP.
  split; [done|]. split; [done|]. split_and!; try done.
  - by destruct pre.
  - replace (pre ++ [Q; P]) with ((pre ++ [Q]) ++ [P]) by (by rewrite <- app_assoc).
    apply last_snoc.
  - rewrite length_app. simpl. lia.
  - rewrite <- model_written.
    destruct (leaf_search _ _ pP k Hok) as [(x & Es & Hx & E)|(x & Es & Hx)]; rewrite Es; simpl.
    + split; [|done]. intros _. rewrite <- E. apply (r_vals _ _ _ HR x). by exists P, pP.
    + split; [done|]. intros Hm. exfalso.
      destruct (r_dom _ _ _ HR k Hm) as (y & Hy & E).
      apply Hx. apply list_elem_of_fmap. exists y. split; [done|].
      eapply (leafrec_in_leaf b G HS); eauto. by rewrite E.
  - destruct (leaf_search _ _ pP k Hok) as [(x & Es & Hx & E)|(x & Es & Hx)]; rewrite Es; simpl;
      [|done].
    intros _. split; [done|]. split; [done|]. rewrite <- model_latest, <- E.
    apply (r_vals _ _ _ HR x). by exists P, pP.
Qed.

Lemma search_reaches_the_record_witness :
  ∃ b found rec path leaf page,
    run_ops 4 ((λ n, OpPut (key_of n) []) <$> seq 1 9) Btree.NewInMemoryBtree = Ok (tt, b) ∧
    Btree.search b (key_of 7) = Ok (found, rec, path) ∧
    head path = Some (Btree.root b) ∧ last path = Some leaf ∧ (2 ≤ length path)%nat ∧
    links (Btree.pager b) path ∧
    zget (Btree.pager b) leaf = Some page ∧ Page.IsLeaf page = true ∧
    (found = true ↔ written ((λ n, OpPut (key_of n) []) <$> seq 1 9) (key_of 7)) ∧
    (found = true →
     rec ∈ Page.keys page ∧ Key.Get rec = key_of 7 ∧
     zget (Btree.values b) (Key.Ref rec) =
       latest (key_of 7) (reverse ((λ n, OpPut (key_of n) []) <$> seq 1 9))).
Proof.
  apply (search_reaches_the_record 4 ((λ n, OpPut (key_of n) []) <$> seq 1 9) (key_of 7)).
  - lia.
  - simpl. repeat split; discriminate.
  - discriminate.
Defined.

(** ** The iterator, [Get] and [Size] *)

Lemma hasPrefix_nil k : hasPrefix k [] = true.
Proof. by destruct k. Qed.

(** The pairs that the iterator of a prefix hands out are the pairs that
    [Get] confirms: a key with its value is handed out exactly when the key
    starts with the prefix and [Get] on the key returns true with the
    value. *)
Theorem iterator_agrees_with_get (N : nat) (ops : list op) (p : bytes) :
  (2 ≤ N)%nat → legal ops →
  ∃ b it L it',
    run_ops N ops Btree.NewInMemoryBtree = Ok (tt, b) ∧
    Btree.Start (Some p) b = Ok it ∧
    (∀ fuel, (length L < fuel)%nat → drain fuel b it = Ok (L, it')) ∧
    ∀ k v, (k, v) ∈ L ↔
           k ≠ [] ∧ hasPrefix k p = true ∧ Btree.Get (Some k) b = Ok (true, v).
Proof.
  intros HN Hl. destruct (run_ops_ok N HN ops Hl) as (b & Hrun & HR).
  destruct (iterate_ok N b _ p HR) as (it & L & it' & Hstart & Hdrain & _ & Hmem & _).
  exists b, it, L, it'. split; [done|]. split; [done|]. split; [done|].
  intros k v. rewrite Hmem. split.
  - intros [Hm Hp].
    assert (Hk : k ≠ []).
    { apply (written_nonempty ops); [done|]. apply model_written. by eexists. }
    split; [done|]. split; [done|]. by rewrite (Get_ok N b _ k HR Hk), Hm.
  - intros (Hk & Hp & Hg). split; [|done].
    rewrite (Get_ok N b _ k HR Hk) in Hg. destruct (model ops !! k); [|done].
    by injection Hg as <-.
Qed.

Lemma iterator_agrees_with_get_witness :
  ∃ b it L it',
    run_ops 4 [OpPut (str "banana") (str "y"); OpPut (str "apple") (str "x");
               OpPut (str "cherry") (str "z"); OpPut (str "blueberry") (str "u");
               OpPut (str "avocado") (str "v"); OpPut (str "bilberry") (str "w")]
      Btree.NewInMemoryBtree = Ok (tt, b) ∧
    Btree.Start (Some (str "b")) b = Ok it ∧
    (∀ fuel, (length L < fuel)%nat → drain fuel b it = Ok (L, it')) ∧
    ∀ k v, (k, v) ∈ L ↔
           k ≠ [] ∧ hasPrefix k (str "b") = true ∧ Btree.Get (Some k) b = Ok (true, v).
Proof.
  apply (iterator_agrees_with_get 4
           [OpPut (str "banana") (str "y"); OpPut (str "apple") (str "x");
            OpPut (str "cherry") (str "z"); OpPut (str "blueberry") (str "u");
            OpPut (str "avocado") (str "v"); OpPut (str "bilberry") (str "w")] (str "b")).
  - lia.
  - simpl. repeat split; discriminate.
Defined.

Lemma full_scan_length (m : gmap bytes bytes) (L : list (bytes * bytes)) :
  StronglySorted by_key L → (∀ k v, (k, v) ∈ L ↔ m !! k = Some v) → length L = size m.
Proof.
  intros Hs Hmem. rewrite <- length_map_to_list. apply Permutation_length.
  apply NoDup_Permutation; [by apply by_key_NoDup|apply NoDup_map_to_list|].
  intros [k v]. by rewrite Hmem, elem_of_map_to_list.
Qed.

(** The scan of the empty prefix hands out as many pairs as [Size]
    reports (as an [int64]), one for each distinct key of the sequence. *)
Theorem full_scan_counts_size (N : nat) (ops : list op) :
  (2 ≤ N)%nat → legal ops →
  ∃ b L,
    run_ops N ops Btree.NewInMemoryBtree = Ok (tt, b) ∧
    (∀ fuel, (length L < fuel)%nat → scan fuel b [] = Ok L) ∧
    length L = size (distinct_keys ops) ∧
    Btree.Size b = Btree.wrap64 (Z.of_nat (length L)).
Proof.
  intros HN Hl. destruct (run_ops_ok N HN ops Hl) as (b & Hrun & HR).
  destruct (iterate_ok N b _ [] HR) as (it & L & it' & Hstart & Hdrain & _ & Hmem & Hs).
  assert (Hlen : length L = size (model ops)).
  { apply full_scan_length; [done|]. intros k v. rewrite Hmem, hasPrefix_nil. naive_solver. }
  exists b, L. split; [done|]. split_and!.
  - intros fuel Hf. unfold scan. rewrite Hstart. simpl. by rewrite (Hdrain fuel Hf).
  - by rewrite Hlen, model_size.
  - unfold Btree.Size. by rewrite (r_size _ _ _ HR), Hlen.
Qed.

Lemma full_scan_counts_size_witness :
  ∃ b L,
    run_ops 4 ((λ n, OpPut (key_of n) []) <$> [5; 3; 9; 3; 1; 7; 5]%nat)
      Btree.NewInMemoryBtree = Ok (tt, b) ∧
    (∀ fuel, (length L < fuel)%nat → scan fuel b [] = Ok L) ∧
    length L = size (distinct_keys ((λ n, OpPut (key_of n) []) <$> [5; 3; 9; 3; 1; 7; 5]%nat)) ∧
    Btree.Size b = Btree.wrap64 (Z.of_nat (length L)).
Proof.
  apply (full_scan_counts_size 4 ((λ n, OpPut (key_of n) []) <$> [5; 3; 9; 3; 1; 7; 5]%nat)).
  - lia.
  - simpl. repeat split; discriminate.
Defined.

(** ** The consistency checker *)

Lemma zget_middle {A} (l1 : list A) x l2 : zget (l1 ++ x :: l2) (Z.of_nat (length l1)) = Some x.
Proof.
  apply zget_Some. split; [lia|]. rewrite Nat2Z.id. by rewrite lookup_app_r, Nat.sub_diag.
Qed.

(** The loop over a leaf is [leaf_verdict] on the records. *)
Lemma checkLeaf_run page : Page.IsLeaf page = true →
  ∀ l2 l1 prev, Page.keys page = l1 ++ l2 →
    Btree.checkLeaf page (length l2) (Z.of_nat (length l1)) prev = Ok (leaf_verdict prev l2).
Proof.
  intros Hleaf. induction l2 as [|x l2 IH]; intros l1 prev Hk; [done|].
  simpl. unfold Page.GetKey. rewrite Hleaf, at_index_zget, Hk, zget_middle. simpl.
  destruct (negb (keyLess prev (Key.Get x))); [done|].
  destruct (Key.Ref x <? 0); [done|].
  replace (Z.of_nat (length l1) + 1) with (Z.of_nat (length (l1 ++ [x])))
    by (rewrite length_app; simpl; lia).
  apply IH. by rewrite <- app_assoc.
Qed.

Lemma leaf_verdict_None prev l :
  leaf_verdict prev l = None ↔
  sorted_from prev l None ∧ Forall (λ x, 0 ≤ Key.Ref x) l.
Proof.
  revert prev; induction l as [|x l IH]; intros prev; simpl.
  - split; [intros _; split; [done|constructor]|done].
  - destruct (keyLess_cases prev (Key.Get x)) as [E|E]; rewrite E; simpl.
    + destruct (Z.ltb_spec (Key.Ref x) 0) as [Hr|Hr].
      * split; [done|]. intros [_ HF]. apply Forall_cons in HF as [? _]. lia.
      * rewrite IH. split.
        -- intros [? ?]. split; [by split|by constructor].
        -- intros [[_ ?] HF]. apply Forall_cons in HF as [_ ?]. done.
    + split; [done|]. intros [[Hlt _] _]. korder.
Qed.

(** The leaf branch of [checkPage] returns a verdict, never a panic; it
    accepts a leaf exactly when its keys are strictly ascending from above
    the empty key and its references are not negative.  The minimum key
    passed by the caller plays no part. *)
Theorem checkPage_on_a_leaf (fuel : nat) (b : Btree.t) (page : Page.t) (checkMinKey : bool)
    (minKey : bytes) (ref depth : Z) :
  Page.IsLeaf page = true →
  ∃ verdict,
    Btree.checkPage (S fuel) b page checkMinKey minKey ref depth = Ok verdict ∧
    (verdict = None ↔
     sorted_from [] (Page.keys page) None ∧ Forall (λ x, 0 ≤ Key.Ref x) (Page.keys page)).
Proof.
  intros Hleaf. exists (leaf_verdict [] (Page.keys page)). split; [|apply leaf_verdict_None].
  simpl. rewrite Hleaf. unfold Page.Size. rewrite Hleaf, Nat2Z.id.
  by apply (checkLeaf_run page Hleaf (Page.keys page) [] []).
Qed.

Lemma checkPage_on_a_leaf_witness :
  ∃ verdict,
    Btree.checkPage (S 0) unordered_tree
      (Page.mk true (-1) (-1) [Key.mk (str "b") 1; Key.mk (str "a") 0]) true (str "z") 2 1
      = Ok verdict ∧
    (verdict = None ↔
     sorted_from []
       (Page.keys (Page.mk true (-1) (-1) [Key.mk (str "b") 1; Key.mk (str "a") 0])) None ∧
     Forall (λ x, 0 ≤ Key.Ref x)
       (Page.keys (Page.mk true (-1) (-1) [Key.mk (str "b") 1; Key.mk (str "a") 0]))).
Proof.
  apply (checkPage_on_a_leaf 0 unordered_tree
           (Page.mk true (-1) (-1) [Key.mk (str "b") 1; Key.mk (str "a") 0]) true (str "z") 2 1).
  reflexivity.
Defined.

Lemma chain_head G d lo c l hi :
  chain G d lo c l hi → ∃ hi', zget G c = Some (mkInfo d lo hi').
Proof. destruct l; simpl; [intros [? _]|intros (? & _)]; eauto. Qed.

(** The child behind a record covers the keys from the key of the record. *)
Lemma chain_record G d lo c l hi x :
  chain G d lo c l hi → x ∈ l → ∃ hi', zget G (Key.Ref x) = Some (mkInfo d (Key.Get x) hi').
Proof.
  revert lo c; induction l as [|y l IH]; intros lo c Hc Hx; [by apply elem_of_nil in Hx|].
  destruct Hc as (_ & _ & Hc). apply elem_of_cons in Hx as [->|Hx].
  - by eapply chain_head.
  - by eapply IH.
Qed.

Lemma sorted_from_no_bound lo l hi : sorted_from lo l hi → sorted_from lo l None.
Proof.
  revert lo; induction l as [|x l IH]; intros lo; simpl; [done|].
  intros [? ?]. split; [done|]. by apply IH.
Qed.

(** The loop over an internal page passes when every record passes. *)
Lemma checkInternal_passes rec b page cm minKey prevk : Page.IsLeaf page = false →
  ∀ l2 l1, Page.keys page = l1 ++ l2 →
    (∀ x, x ∈ l2 →
       (cm = true → klt minKey (Key.Get x)) ∧ klt prevk (Key.Get x) ∧ 0 ≤ Key.Ref x ∧
       ∃ child, zget (Btree.pager b) (Key.Ref x) = Some child ∧
                rec child (Key.Get x) (Key.Ref x) = Ok None) →
    Btree.checkInternal rec b page cm minKey prevk (length l2) (1 + Z.of_nat (length l1))
    = Ok None.
Proof.
  intros Hleaf. induction l2 as [|x l2 IH]; intros l1 Hk Hall; [done|].
  destruct (Hall x) as (Hmin & Hprev & Hr & child & Hc & Hrec); [by left|].
  simpl. unfold Page.GetKey. rewrite Hleaf.
  destruct (Z.eqb_spec (1 + Z.of_nat (length l1)) 0) as [?|_]; [lia|].
  replace (1 + Z.of_nat (length l1) - 1) with (Z.of_nat (length l1)) by lia.
  rewrite at_index_zget, Hk, zget_middle. simpl.
  replace (cm && negb (keyLess minKey (Key.Get x))) with false.
  2:{ destruct cm; [|done]. simpl. unfold klt in Hmin. by rewrite Hmin. }
  unfold klt in Hprev. rewrite Hprev. simpl.
  destruct (Z.ltb_spec (Key.Ref x) 0) as [?|_]; [lia|].
  rewrite (pager_get_zget _ _ _ Hc). simpl. rewrite Hrec. simpl.
  replace (1 + Z.of_nat (length l1) + 1) with (1 + Z.of_nat (length (l1 ++ [x])))
    by (rewrite length_app; simpl; lia).
  apply IH; [by rewrite <- app_assoc|]. intros y Hy. apply Hall. by right.
Qed.

Section CheckTree.
Context (b : Btree.t) (G : list Info).
Hypothesis HS : SInv (Btree.pager b) (Btree.root b) G.
Hypothesis Hkeys : ∀ x, leafrec (Btree.pager b) x → Key.Get x ≠ [].
Hypothesis Hrefs : ∀ x, leafrec (Btree.pager b) x → 0 ≤ Key.Ref x.

(** The recursive pass accepts every page of a tree that satisfies the
    invariant. *)
Lemma checkPage_passes : ∀ (fuel : nat) r p i cm minKey ref depth,
  zget (Btree.pager b) r = Some p → zget G r = Some i → (lvl i < fuel)%nat →
  (cm = true → kle minKey (lo i)) →
  Btree.checkPage fuel b p cm minKey ref depth = Ok None.
Proof.
  induction fuel as [|fuel IH]; intros r p i cm minKey ref depth Hp Hi Hf Hmin; [lia|].
  simpl. destruct (Page.IsLeaf p) eqn:Hleaf.
  - destruct (sinv_leaf HS _ _ _ Hp Hi Hleaf) as (_ & Hok & _).
    unfold Page.Size. rewrite Hleaf, Nat2Z.id.
    pose proof (checkLeaf_run p Hleaf (Page.keys p) [] [] eq_refl) as Hrun.
    change (Z.of_nat (length (@nil Key.t))) with 0 in Hrun. rewrite Hrun. f_equal.
    apply leaf_verdict_None. split.
    + destruct (Page.keys p) as [|x l] eqn:Ek; [done|]. destruct Hok as [_ Hs].
      split; [|by eapply sorted_from_no_bound].
      apply klt_nil, Hkeys. exists r, p. rewrite Ek. split_and!; [done..|by left].
    + apply Forall_forall. intros x Hx. apply Hrefs. by exists r, p.
  - destruct (sinv_internal HS _ _ _ Hp Hi Hleaf) as (d & Hd & Hch).
    unfold Page.GetKey at 1. rewrite Hleaf. simpl.
    destruct (chain_head _ _ _ _ _ _ Hch) as [hi' Hfirst].
    destruct (Z.eqb_spec (Page.First p) (-1)) as [E|_].
    { rewrite E in Hfirst. done. }
    simpl. unfold Page.Size. rewrite Hleaf.
    replace (Z.to_nat (1 + Z.of_nat (length (Page.keys p)) - 1)) with (length (Page.keys p))
      by lia.
    apply (checkInternal_passes _ b p cm minKey [] Hleaf (Page.keys p) []); [done|].
    intros x Hx.
    destruct (sorted_from_elem _ _ _ _ (chain_sorted _ _ _ _ _ _ Hch) Hx) as [Hlo _].
    destruct (chain_record _ _ _ _ _ _ x Hch Hx) as [hx Hz].
    destruct (sinv_page_of HS _ _ Hz) as [child Hchild].
    split_and!.
    + intros Hcm. specialize (Hmin Hcm). korder.
    + apply klt_nil. by eapply klt_not_nil.
    + by destruct (zget_lt _ _ _ Hz).
    + exists child. split; [done|].
      apply (IH (Key.Ref x) child _ true (Key.Get x) (Key.Ref x) (depth + 1) Hchild Hz).
      * simpl. lia.
      * intros _. simpl. korder.
Qed.

End CheckTree.

(** ** The scan of [CheckConsistency] *)

Lemma count_after_0 n : count_after n 0 = Btree.wrap64 (Z.of_nat n).
Proof.
  induction n as [|n IH]; [done|].
  unfold count_after in *. simpl Nat.iter. rewrite IH, wrap64_succ. f_equal. lia.
Qed.

Lemma count_after_S n c : count_after (S n) c = count_after n (Btree.wrap64 (c + 1)).
Proof. unfold count_after. by rewrite Nat.iter_succ_r. Qed.

(** The scan counts the pairs that the iterator hands out; it fails only
    on an empty key. *)
Lemma checkScan_counts b : ∀ (fuel : nat) it L it' c,
  drain fuel b it = Ok (L, it') → Forall (λ kv, kv.1 ≠ []) L →
  Btree.checkScan fuel b it [] c = Ok (inr (count_after (length L) c)).
Proof.
  induction fuel as [|fuel IH]; intros it L it' c Hd Hne; [done|].
  simpl in Hd |- *.
  destruct (Btree.Next b it) as [[[[ok k] v] it1]| |]; try done. simpl in Hd |- *.
  destruct ok; simpl.
  - destruct (drain fuel b it1) as [[L1 it2]| |] eqn:Hd1; try done. simpl in Hd.
    injection Hd as <- <-. apply Forall_cons in Hne as [Hk Hne]. simpl in Hk.
    rewrite bool_decide_false by done.
    replace (keyLess [] k) with true by (symmetry; by apply klt_nil). simpl.
    rewrite (IH it1 L1 it2 _ Hd1 Hne). do 2 f_equal. symmetry.
    apply (count_after_S (length L1) c).
  - by injection Hd as <- <-.
Qed.

Lemma Rep_keys_refs N b ops :
  legal ops → Rep N b (model ops) →
  ∀ x, leafrec (Btree.pager b) x → Key.Get x ≠ [] ∧ 0 ≤ Key.Ref x.
Proof.
  intros Hl HR x Hx. destruct (r_vals _ _ _ HR x Hx) as [Hs Hz]. split.
  - apply (written_nonempty ops); [done|]. by apply model_written.
  - destruct Hs as [v Hv]. rewrite Hv in Hz. by destruct (zget_lt _ _ _ Hz).
Qed.

(** The run of the scan on a tree that holds the map of a legal sequence. *)
Lemma scan_of_built_tree N b ops :
  legal ops → Rep N b (model ops) →
  ∃ it L it',
    Btree.Start (Some []) b = Ok it ∧
    (∀ fuel, (length L < fuel)%nat →
       drain fuel b it = Ok (L, it') ∧
       Btree.checkScan fuel b it [] 0 = Ok (inr (Btree.wrap64 (Z.of_nat (length L))))) ∧
    length L = size (model ops).
Proof.
  intros Hl HR.
  destruct (iterate_ok N b _ [] HR) as (it & L & it' & Hstart & Hdrain & _ & Hmem & Hs).
  exists it, L, it'. split; [done|]. split.
  - intros fuel Hf. split; [by apply Hdrain|].
    rewrite (checkScan_counts b fuel it L it' 0 (Hdrain fuel Hf)); [by rewrite count_after_0|].
    apply Forall_forall. intros [k v] Hkv. simpl. apply Hmem in Hkv as [Hm _].
    apply (written_nonempty ops); [done|]. apply model_written. by eexists.
  - apply full_scan_length; [done|]. intros k v. rewrite Hmem, hasPrefix_nil. naive_solver.
Qed.

(** [CheckConsistency] accepts every tree built by a legal sequence of
    operations: with enough fuel for the scan and the recursion it returns
    no error. *)
Theorem check_consistency_accepts_built_trees (N : nat) (ops : list op) :
  (2 ≤ N)%nat → legal ops →
  ∃ b n, run_ops N ops Btree.NewInMemoryBtree = Ok (tt, b) ∧
         ∀ fuel, (n ≤ fuel)%nat → Btree.CheckConsistency fuel b = Ok None.
Proof.
  intros HN Hl. destruct (run_ops_ok N HN ops Hl) as (b & Hrun & HR).
  destruct (scan_of_built_tree N b ops Hl HR) as (it & L & it' & Hstart & Hscan & Hlen).
  destruct (r_sinv _ _ _ HR) as [G HS].
  destruct (s_root _ _ _ HS) as (h & Hroot & _ & Hh).
  destruct (sinv_page_of HS _ _ Hroot) as [pR HpR].
  exists b, (S (length L + length (Btree.pager b))). split; [done|].
  intros fuel Hf. unfold Btree.CheckConsistency. rewrite Hstart. simpl.
  destruct (Hscan fuel) as [_ ->]; [lia|]. simpl.
  unfold Btree.Size. rewrite (r_size _ _ _ HR), Hlen, Z.eqb_refl. simpl.
  rewrite (pager_get_zget _ _ _ HpR). simpl.
  apply (checkPage_passes b G HS) with (r := Btree.root b) (i := mkInfo (S h) [] None);
    try done.
  - intros x Hx. by destruct (Rep_keys_refs N b ops Hl HR x Hx).
  - intros x Hx. by destruct (Rep_keys_refs N b ops Hl HR x Hx).
  - simpl. lia.
Qed.

Lemma check_consistency_accepts_built_trees_witness :
  ∃ b n, run_ops 4 ((λ n, OpPut (key_of n) []) <$> [5; 3; 9; 3; 1; 7; 5; 2; 8; 6; 4]%nat)
           Btree.NewInMemoryBtree = Ok (tt, b) ∧
         ∀ fuel, (n ≤ fuel)%nat → Btree.CheckConsistency fuel b = Ok None.
Proof.
  apply (check_consistency_accepts_built_trees 4
           ((λ n, OpPut (key_of n) []) <$> [5; 3; 9; 3; 1; 7; 5; 2; 8; 6; 4]%nat)).
  - lia.
  - simpl. repeat split; discriminate.
Defined.

(** The scan does not read the size field. *)
Lemma search_loop_set_size z b k : ∀ (fuel : nat) r acc,
  Btree.search_loop fuel (Btree.set_size z b) k r acc = Btree.search_loop fuel b k r acc.
Proof.
  induction fuel as [|fuel IH]; intros r acc; [done|]. simpl.
  destruct (Pager.Get r (Btree.pager b)) as [p| |]; try done. simpl.
  destruct (Page.Search k p) as [ok x]. destruct (Page.IsLeaf p); [done|]. apply IH.
Qed.

Lemma Start_set_size z b p : Btree.Start p (Btree.set_size z b) = Btree.Start p b.
Proof.
  destruct p as [p|]; [|done]. unfold Btree.Start, Btree.search.
  change (Btree.pager (Btree.set_size z b)) with (Btree.pager b).
  change (Btree.root (Btree.set_size z b)) with (Btree.root b).
  by rewrite search_loop_set_size.
Qed.

Lemma checkScan_set_size z b : ∀ (fuel : nat) it prev c,
  Btree.checkScan fuel (Btree.set_size z b) it prev c = Btree.checkScan fuel b it prev c.
Proof.
  induction fuel as [|fuel IH]; intros it prev c; [done|]. simpl.
  change (Btree.Next (Btree.set_size z b) it) with (Btree.Next b it).
  destruct (Btree.Next b it) as [[[[ok k] v] it1]| |]; try done. simpl.
  destruct ok; [|done]. simpl. case_bool_decide; [done|].
  destruct (negb (keyLess prev k)); [done|]. apply IH.
Qed.

(** [CheckConsistency] reports a size field that differs from the number
    of records: on a tree built by a legal sequence of operations whose size
    field is replaced by another number, it returns the error of the
    count. *)
Theorem check_consistency_reports_the_size (N : nat) (ops : list op) :
  (2 ≤ N)%nat → legal ops →
  ∃ b n, run_ops N ops Btree.NewInMemoryBtree = Ok (tt, b) ∧
         ∀ z fuel, z ≠ Btree.Size b → (n ≤ fuel)%nat →
           Btree.CheckConsistency fuel (Btree.set_size z b) = Ok (Some Btree.err_count).
Proof.
  intros HN Hl. destruct (run_ops_ok N HN ops Hl) as (b & Hrun & HR).
  destruct (scan_of_built_tree N b ops Hl HR) as (it & L & it' & Hstart & Hscan & Hlen).
  exists b, (S (length L)). split; [done|].
  intros z fuel Hz Hf. unfold Btree.CheckConsistency.
  rewrite Start_set_size, Hstart. simpl. rewrite checkScan_set_size.
  destruct (Hscan fuel) as [_ ->]; [lia|]. simpl.
  unfold Btree.Size in *. rewrite (r_size _ _ _ HR), <- Hlen in Hz.
  destruct (Z.eqb_spec (Btree.wrap64 (Z.of_nat (length L))) z) as [E|_]; [by destruct Hz|done].
Qed.

Lemma check_consistency_reports_the_size_witness :
  ∃ b n, run_ops 4 ((λ n, OpPut (key_of n) []) <$> [5; 3; 9; 3; 1; 7]%nat)
           Btree.NewInMemoryBtree = Ok (tt, b) ∧
         ∀ z fuel, z ≠ Btree.Size b → (n ≤ fuel)%nat →
           Btree.CheckConsistency fuel (Btree.set_size z b) = Ok (Some Btree.err_count).
Proof.
  apply (check_consistency_reports_the_size 4
           ((λ n, OpPut (key_of n) []) <$> [5; 3; 9; 3; 1; 7]%nat)).
  - lia.
  - simpl. repeat split; discriminate.
Defined.

(** ** The height of the tree and the size of the value arena *)

(** The tree is balanced: [search] visits the same number of pages, at
    least two, whatever the key. *)
Theorem search_paths_have_one_length (N : nat) (ops : list op) :
  (2 ≤ N)%nat → legal ops →
  ∃ b (height : nat),
    run_ops N ops Btree.NewInMemoryBtree = Ok (tt, b) ∧ (2 ≤ height)%nat ∧
    ∀ k, ∃ found rec path,
      Btree.search b k = Ok (found, rec, path) ∧ length path = height.
Proof.
  intros HN Hl. destruct (run_ops_ok N HN ops Hl) as (b & Hrun & HR).
  destruct (r_sinv _ _ _ HR) as [G HS].
  destruct (s_root _ _ _ HS) as (h & Hroot & _ & Hh).
  exists b, (S (S h)). split; [done|]. split; [lia|]. intros k.
  destruct (search_loop_ok b G HS k (S (length (Btree.pager b))) (Btree.root b) _
              [Btree.root b] Hroot)
    as (rest & P & pP & iP & Hs & _ & _ & _ & _ & _ & _ & _ & Hlen).
  { split; simpl; [apply kle_nil|done]. }
  { simpl. lia. }
  unfold Btree.search. rewrite Hs. eexists _, _, _. split; [done|].
  rewrite length_app, Hlen. simpl. lia.
Qed.

Lemma search_paths_have_one_length_witness :
  ∃ b (height : nat),
    run_ops 4 ((λ n, OpPut (key_of n) []) <$> seq 1 20) Btree.NewInMemoryBtree = Ok (tt, b) ∧
    (2 ≤ height)%nat ∧
    ∀ k, ∃ found rec path,
      Btree.search b k = Ok (found, rec, path) ∧ length path = height.
Proof.
  apply (search_paths_have_one_length 4 ((λ n, OpPut (key_of n) []) <$> seq 1 20)).
  - lia.
  - simpl. repeat split; discriminate.
Defined.

Lemma run_ops_slots N : (2 ≤ N)%nat → ∀ ops b (m : gmap bytes bytes),
  Rep N b m → length (Btree.values b) = size m →
  (∀ r, 0 ≤ r < Z.of_nat (length (Btree.values b)) →
        ∃ x, leafrec (Btree.pager b) x ∧ Key.Ref x = r) →
  legal_from m ops →
  ∃ b', run_ops N ops b = Ok (tt, b') ∧
        length (Btree.values b') = size (fold_left model_step ops m) ∧
        ∀ r, 0 ≤ r < Z.of_nat (length (Btree.values b')) →
             ∃ x, leafrec (Btree.pager b') x ∧ Key.Ref x = r.
Proof.
  intros HN. induction ops as [|o ops IH]; intros b m HR Hlen Hsl Hl; simpl in *.
  - by exists b.
  - destruct Hl as [Ho Hl].
    destruct (op_step N HN b m o HR Ho) as (b1 & Hrun & HR1 & Hkind).
    destruct (IH b1 _ HR1) as (b' & Hrun' & Hlen'); [| |done|].
    + destruct (model_step_insert m o) as [w ->]. rewrite map_size_insert.
      destruct (m !! op_key o).
      * destruct Hkind as (x & _ & _ & ->). simpl. by rewrite zset_length.
      * destruct Hkind as (-> & _). rewrite length_app. simpl. lia.
    + intros r Hr. destruct (m !! op_key o).
      * destruct Hkind as (x & _ & _ & ->). simpl in *.
        rewrite zset_length in Hr. by apply Hsl.
      * destruct Hkind as (Hv & _ & Hrec). rewrite Hv, length_app in Hr. simpl in Hr.
        destruct (decide (r = Z.of_nat (length (Btree.values b)))) as [->|Hne].
        -- eexists. split; [apply Hrec; by left|done].
        -- destruct (Hsl r) as (x & Hx & Hxr); [lia|].
           exists x. split; [|done]. apply Hrec. by right.
    + exists b'. split; [|done]. unfold Btree.bind. by rewrite Hrun.
Qed.

(** The value arena has exactly one slot for each distinct key written,
    and every slot is the slot of a record: no operation leaves a value
    that no key refers to. *)
Theorem arena_has_one_slot_per_key (N : nat) (ops : list op) :
  (2 ≤ N)%nat → legal ops →
  ∃ b, run_ops N ops Btree.NewInMemoryBtree = Ok (tt, b) ∧
       length (Btree.values b) = size (distinct_keys ops) ∧
       ∀ r, 0 ≤ r < Z.of_nat (length (Btree.values b)) →
            ∃ x, leafrec (Btree.pager b) x ∧ Key.Ref x = r.
Proof.
  intros HN Hl.
  destruct (run_ops_slots N HN ops Btree.NewInMemoryBtree ∅) as (b & Hrun & Hlen & Hsl).
  - apply Rep_new. lia.
  - done.
  - simpl. lia.
  - done.
  - exists b. split; [done|]. split; [|done].
    rewrite Hlen. apply model_size.
Qed.

Lemma arena_has_one_slot_per_key_witness :
  ∃ b, run_ops 4 [OpPut (key_of 2) [x01]; OpAppend (key_of 1) [x02]; OpPut (key_of 2) [x03];
                  OpAppend (key_of 1) [x04]] Btree.NewInMemoryBtree = Ok (tt, b) ∧
       length (Btree.values b) =
         size (distinct_keys [OpPut (key_of 2) [x01]; OpAppend (key_of 1) [x02];
                              OpPut (key_of 2) [x03]; OpAppend (key_of 1) [x04]]) ∧
       ∀ r, 0 ≤ r < Z.of_nat (length (Btree.values b)) →
            ∃ x, leafrec (Btree.pager b) x ∧ Key.Ref x = r.
Proof.
  apply (arena_has_one_slot_per_key 4
           [OpPut (key_of 2) [x01]; OpAppend (key_of 1) [x02]; OpPut (key_of 2) [x03];
            OpAppend (key_of 1) [x04]]).
  - lia.
  - simpl. repeat split; discriminate.
Defined.
